(** * UKV: the embedded in-memory store and the paths modality

    A shallow embedding of [src/ukv_stl_embedded.cpp] (the transactional
    in-memory key-value engine) and of [src/modality_paths.cpp] (string
    keys stored in collision buckets), followed by the properties of the
    specification that concern them.

    Conventions of the embedding:
    - [sequence_t] is [ssize_t]: a signed 64-bit integer, here a [Z] kept in
      range by [wrap64]; [ukv_length_t] / [ukv_val_len_t] are unsigned 32-bit
      integers, here an [N] kept in range by [wrap32];
    - a [std::unordered_map] is a [gmap]; a loop over it visits the entries
      in the order of [map_to_list];
    - a pointer to a collection is the name under which the database owns
      it ([None] for the unnamed collection, which is what a null handle
      resolves to);
    - the C interface passes parallel arrays; they are lists indexed by the
      task number. *)

From Stdlib Require Import ZArith NArith Lia.
From Stdlib.Strings Require Import Byte.
From stdpp Require Import gmap strings list fin_maps sorting.

Local Open Scope Z_scope.

(** ** Machine integers *)

Definition wrap64 (z : Z) : Z := (z + 2 ^ 63) mod 2 ^ 64 - 2 ^ 63.

Definition in_sequence_range (z : Z) : Prop := - 2 ^ 63 <= z < 2 ^ 63.

Definition wrap32 (n : N) : N := (n mod 2 ^ 32)%N.

Global Instance byte_eq_dec : EqDecision byte := Byte.byte_eq_dec.

(** ** Data of the store (ukv_stl_embedded.cpp, lines 30-96) *)

Abbreviation key_t := Z (only parsing).
Abbreviation value_t := (list byte) (only parsing).
Abbreviation sequence_t := Z (only parsing).

Record sequenced_value_t := {
  data : value_t;
  sequence_number : sequence_t
}.

Record collection_t := {
  name : string;
  pairs : gmap Z sequenced_value_t
}.

(** [collection_t*]: [None] is the null handle. *)
Abbreviation collection_ptr_t := (option string) (only parsing).

Record located_key_t := {
  collection_ptr : option string;
  key : Z
}.

Global Instance located_key_eq_dec : EqDecision located_key_t.
Proof. solve_decision. Defined.

Global Instance located_key_countable : Countable located_key_t.
Proof.
  refine (inj_countable' (fun lk => (collection_ptr lk, key lk))
            (fun p => {| collection_ptr := p.1; key := p.2 |}) _).
  by intros [].
Defined.

Record txn_t := {
  requested_keys : gmap located_key_t Z;
  new_values : gmap located_key_t (list byte);
  txn_sequence_number : sequence_t
}.

Record db_t := {
  unnamed : collection_t;
  named : gmap string collection_t;
  youngest_sequence : sequence_t
}.

(** [new db_t {}] *)
Definition db_new : db_t :=
  {| unnamed := {| name := ""; pairs := ∅ |}; named := ∅; youngest_sequence := 0 |}.

(** [new txn_t()] *)
Definition txn_new : txn_t :=
  {| requested_keys := ∅; new_values := ∅; txn_sequence_number := 0 |}.

(** Dereferencing a collection pointer.  A pointer to a named collection is
    valid while the database owns a collection of that name; the embedding
    is total and reads a stale pointer as an empty collection. *)
Definition deref (db : db_t) (c : option string) : collection_t :=
  match c with
  | None => unnamed db
  | Some n => default {| name := n; pairs := ∅ |} (named db !! n)
  end.

(** [collection.pairs.find(key)] *)
Definition find_pair (db : db_t) (c : option string) (k : Z) : option sequenced_value_t :=
  pairs (deref db c) !! k.

(** Storing an entry through a collection pointer: both
    [key_iterator->second = ...] and [pairs.insert_or_assign(key, ...)]. *)
Definition set_pair (db : db_t) (c : option string) (k : Z) (sv : sequenced_value_t) : db_t :=
  let col := deref db c in
  let col' := {| name := name col; pairs := <[k := sv]> (pairs col) |} in
  match c with
  | None => {| unnamed := col'; named := named db; youngest_sequence := youngest_sequence db |}
  | Some n => {| unnamed := unnamed db; named := <[n := col']> (named db);
                 youngest_sequence := youngest_sequence db |}
  end.

(** [++db.youngest_sequence] on [std::atomic<ssize_t>]: returns the new
    value, wrapping in two's complement. *)
Definition increment_youngest (db : db_t) : sequence_t * db_t :=
  let y := wrap64 (youngest_sequence db + 1) in
  (y, {| unnamed := unnamed db; named := named db; youngest_sequence := y |}).

(** Lines 105-112.  The operators [&] and [|] on [bool] evaluate both
    sides; on truth values they are [&&] and [||]. *)
Definition entry_was_overwritten (entry_sequence transaction_sequence youngest_sequence : Z) : bool :=
  if transaction_sequence <=? youngest_sequence
  then (entry_sequence >=? transaction_sequence) && (entry_sequence <=? youngest_sequence)
  else (entry_sequence >=? transaction_sequence) || (entry_sequence <=? youngest_sequence).

(** The interval test as the specification words it: the half-open interval
    (start, youngest] when start <= youngest, otherwise the complement of
    (youngest, start]. *)
Definition spec_overwrite_interval (entry_seq start youngest : Z) : bool :=
  if start <=? youngest
  then (start <? entry_seq) && (entry_seq <=? youngest)
  else negb ((youngest <? entry_seq) && (entry_seq <=? start)).

(** ** Options and collection lookup (lines 114-137) *)

Definition consistent_k : N := 1.
Definition colocated_k : N := 2.
Definition transaparent_read_k : N := 4.
Definition flush_write_k : N := 8.

(** Returns the collection the [i]-th task addresses, as a pointer
    ([None]: [db.unnamed]).  [c_collections = None] is a null array. *)
Definition collection_at (c_collections : option (list (option string))) (i : nat)
    (c_options : N) : option string :=
  match c_collections with
  | None => None
  | Some cs =>
      default None (cs !! (if (N.land c_options colocated_k =? 0)%N then i else 0%nat))
  end.

Definition set_flag (c_options : N) (c_enabled : bool) (flag : N) : N :=
  if c_enabled then N.lor c_options flag else N.ldiff c_options flag.

(** ** Loops *)

(** [for (size_t i = 0; i != count; ++i) body] *)
Definition for_range {S : Type} (count : nat) (body : nat -> S -> S) (s : S) : S :=
  foldl (fun acc i => body i acc) s (seq 0 count).

(** A loop whose body may leave the function with an error message. *)
Fixpoint for_each_or_return {A S : Type} (body : A -> S -> string + S) (l : list A) (s : S)
    : string + S :=
  match l with
  | [] => inr s
  | x :: l' =>
      match body x s with
      | inl e => inl e
      | inr s' => for_each_or_return body l' s'
      end
  end.

(** ** Writes and reads on HEAD (lines 167-285) *)

(** [value_t(begin, begin + length)]: [begin] is the memory a value pointer
    designates ([None]: a null pointer, from which no byte can be taken). *)
Definition value_of (begin : option (list byte)) (length : N) : list byte :=
  take (N.to_nat length) (default [] begin).

(** Body of the loop of [_ukv_write_head].  The allocations of the body
    succeed: the [catch] branch, which sets the error and leaves the loop,
    is not part of the embedding. *)
Definition write_head_body (c_keys : list Z) (c_collections : option (list (option string)))
    (c_options : N) (c_values : list (option (list byte))) (c_lengths : list N)
    (i : nat) (db : db_t) : db_t :=
  let collection := collection_at c_collections i c_options in
  let key := default 0 (c_keys !! i) in
  let length := default 0%N (c_lengths !! i) in
  let begin := default None (c_values !! i) in
  match find_pair db collection key with
  | Some _ =>
      let '(seq, db1) := increment_youngest db in
      set_pair db1 collection key {| data := value_of begin length; sequence_number := seq |}
  | None =>
      let '(seq, db1) := increment_youngest db in
      set_pair db1 collection key {| data := value_of begin length; sequence_number := seq |}
  end.

Definition _ukv_write_head (db : db_t) (c_keys : list Z) (c_keys_count : nat)
    (c_collections : option (list (option string))) (c_options : N)
    (c_values : list (option (list byte))) (c_lengths : list N) : db_t :=
  for_range c_keys_count (write_head_body c_keys c_collections c_options c_values c_lengths) db.

(** What a returned value pointer designates. *)
Inductive ukv_val_ptr_t :=
| NULL
| arena_plus (offset : N)
| txn_value (k : located_key_t).

(** The caller's export arena: [*c_arena_length] and the bytes at [*c_arena]. *)
Record arena_t := {
  arena_length : N;
  arena_bytes : list byte
}.

(** [std::memcpy(dst + offset, src, len)] on the bytes of a buffer. *)
Definition memcpy (dst : list byte) (offset : N) (src : list byte) : list byte :=
  take (N.to_nat offset) dst ++ src ++ drop (N.to_nat offset + length src) dst.

Record read_output := {
  out_arena : arena_t;
  c_values_out : list ukv_val_ptr_t;
  c_lengths_out : list N
}.

Definition read_head_total_bytes (db : db_t) (c_keys : list Z)
    (c_collections : option (list (option string))) (c_options : N) (i : nat) (total_bytes : N) : N :=
  match find_pair db (collection_at c_collections i c_options) (default 0 (c_keys !! i)) with
  | Some sv => (total_bytes + N.of_nat (length (data sv)))%N
  | None => total_bytes
  end.

(** State of the fetch loop: the arena bytes, [exported_into_arena], and the
    two output arrays filled so far ([c_values[i]] and [c_lengths[i]] are
    written for i = 0, 1, ... in turn, which appends to them). *)
Definition read_head_fetch (db : db_t) (c_keys : list Z)
    (c_collections : option (list (option string))) (c_options : N) (i : nat)
    (st : list byte * N * list ukv_val_ptr_t * list N)
    : list byte * N * list ukv_val_ptr_t * list N :=
  let '(arena, exported_into_arena, vals, lens) := st in
  match find_pair db (collection_at c_collections i c_options) (default 0 (c_keys !! i)) with
  | Some sv =>
      let len := N.of_nat (length (data sv)) in
      (memcpy arena exported_into_arena (data sv),
       (exported_into_arena + len)%N,
       vals ++ [arena_plus exported_into_arena],
       lens ++ [wrap32 len])
  | None => (arena, exported_into_arena, vals ++ [NULL], lens ++ [0%N])
  end.

(** [allocate n] is the block [allocator_t {}.allocate(n)] returns (its
    content is whatever the memory held), or [None] when it throws. *)
Definition _ukv_read_head (allocate : N -> option (list byte)) (db : db_t)
    (c_keys : list Z) (c_keys_count : nat)
    (c_collections : option (list (option string))) (c_options : N)
    (c_arena : arena_t) : string + read_output :=
  let total_bytes :=
    for_range c_keys_count (read_head_total_bytes db c_keys c_collections c_options) 0%N in
  let arena :=
    if (arena_length c_arena <? total_bytes)%N
    then match allocate total_bytes with
         | Some block => inr {| arena_length := total_bytes; arena_bytes := block |}
         | None => inl "Failed to allocate memory for exports!"%string
         end
    else inr c_arena in
  match arena with
  | inl e => inl e
  | inr a =>
      let '(bytes, _, vals, lens) :=
        for_range c_keys_count (read_head_fetch db c_keys c_collections c_options)
          (arena_bytes a, 0%N, [], []) in
      inr {| out_arena := {| arena_length := arena_length a; arena_bytes := bytes |};
             c_values_out := vals; c_lengths_out := lens |}
  end.

(** ** Writes and reads inside a transaction (lines 287-440) *)

(** Body of the loop of [_ukv_write_txn], allocations succeeding as above:
    [txn.new_values.insert_or_assign(located_key, value)]. *)
Definition write_txn_body (c_keys : list Z) (c_collections : option (list (option string)))
    (c_options : N) (c_values : list (option (list byte))) (c_lengths : list N)
    (i : nat) (txn : txn_t) : txn_t :=
  let collection := collection_at c_collections i c_options in
  let key := default 0 (c_keys !! i) in
  let length := default 0%N (c_lengths !! i) in
  let begin := default None (c_values !! i) in
  let located_key := {| collection_ptr := collection; key := key |} in
  let value := value_of begin length in
  {| requested_keys := requested_keys txn;
     new_values := <[located_key := value]> (new_values txn);
     txn_sequence_number := txn_sequence_number txn |}.

Definition _ukv_write_txn (txn : txn_t) (c_keys : list Z) (c_keys_count : nat)
    (c_collections : option (list (option string))) (c_options : N)
    (c_values : list (option (list byte))) (c_lengths : list N) : txn_t :=
  for_range c_keys_count (write_txn_body c_keys c_collections c_options c_values c_lengths) txn.

(** First loop of [_ukv_read_txn]: sizes the export, or returns early. *)
Definition read_txn_total_bytes (txn : txn_t) (db : db_t) (youngest_sequence_number : Z)
    (c_keys : list Z) (c_collections : option (list (option string))) (c_options : N)
    (i : nat) (total_bytes : N) : string + N :=
  let collection := collection_at c_collections i c_options in
  let key := default 0 (c_keys !! i) in
  match new_values txn !! {| collection_ptr := collection; key := key |} with
  | Some _ => inr total_bytes
  | None =>
      match find_pair db collection key with
      | Some sv =>
          if entry_was_overwritten (sequence_number sv) (txn_sequence_number txn)
               youngest_sequence_number
          then inl "Requested key was already overwritten since the start of the transaction!"%string
          else inr (total_bytes + N.of_nat (length (data sv)))%N
      | None => inr total_bytes
      end
  end.

Definition read_txn_fetch (txn : txn_t) (db : db_t)
    (c_keys : list Z) (c_collections : option (list (option string))) (c_options : N)
    (i : nat) (st : list byte * N * list ukv_val_ptr_t * list N)
    : list byte * N * list ukv_val_ptr_t * list N :=
  let '(arena, exported_into_arena, vals, lens) := st in
  let collection := collection_at c_collections i c_options in
  let key := default 0 (c_keys !! i) in
  let located_key := {| collection_ptr := collection; key := key |} in
  match new_values txn !! located_key with
  | Some value =>
      (arena, exported_into_arena,
       vals ++ [txn_value located_key],
       lens ++ [wrap32 (N.of_nat (length value))])
  | None =>
      match find_pair db collection key with
      | Some sv =>
          let len := N.of_nat (length (data sv)) in
          (memcpy arena exported_into_arena (data sv),
           (exported_into_arena + len)%N,
           vals ++ [arena_plus exported_into_arena],
           lens ++ [wrap32 len])
      | None => (arena, exported_into_arena, vals ++ [NULL], lens ++ [0%N])
      end
  end.

(** The function receives the transaction by reference; the embedding
    returns it next to the outputs, as the call leaves it. *)
Definition _ukv_read_txn (allocate : N -> option (list byte)) (txn : txn_t) (db : db_t)
    (c_keys : list Z) (c_keys_count : nat)
    (c_collections : option (list (option string))) (c_options : N)
    (c_arena : arena_t) : txn_t * (string + read_output) :=
  let youngest_sequence_number := youngest_sequence db in
  match for_each_or_return
          (read_txn_total_bytes txn db youngest_sequence_number c_keys c_collections c_options)
          (seq 0 c_keys_count) 0%N with
  | inl e => (txn, inl e)
  | inr total_bytes =>
      let arena :=
        if (arena_length c_arena <=? total_bytes)%N
        then match allocate total_bytes with
             | Some block => inr {| arena_length := total_bytes; arena_bytes := block |}
             | None => inl "Failed to allocate memory for exports!"%string
             end
        else inr c_arena in
      match arena with
      | inl e => (txn, inl e)
      | inr a =>
          let '(bytes, _, vals, lens) :=
            for_range c_keys_count (read_txn_fetch txn db c_keys c_collections c_options)
              (arena_bytes a, 0%N, [], []) in
          (txn, inr {| out_arena := {| arena_length := arena_length a; arena_bytes := bytes |};
                       c_values_out := vals; c_lengths_out := lens |})
      end
  end.

(** ** Transactions (lines 579-681) *)

(** [c_txn = None]: [*c_txn] is null and a transaction is allocated.
    [c_sequence_number] is a [size_t]; storing it in a [sequence_t] keeps
    its 64 bits. *)
Definition ukv_txn_begin (db : db_t) (c_sequence_number : Z) (c_txn : option txn_t)
    : db_t * txn_t :=
  let txn := default txn_new c_txn in
  let '(sequence, db') :=
    if c_sequence_number =? 0 then increment_youngest db
    else (wrap64 c_sequence_number, db) in
  (db', {| requested_keys := ∅; new_values := ∅; txn_sequence_number := sequence |}).

(** Step 1: check for refreshes among fetched keys. *)
Definition commit_check_requested (db : db_t) (entry : located_key_t * Z) (_ : unit)
    : string + unit :=
  let '(located_key, located_sequence) := entry in
  match find_pair db (collection_ptr located_key) (key located_key) with
  | Some sv =>
      if sequence_number sv =? located_sequence then inr tt
      else inl "Requested key was already overwritten since the start of the transaction!"%string
  | None => inr tt
  end.

(** Step 2: check for collisions among incoming values. *)
Definition commit_check_incoming (db : db_t) (txn : txn_t) (youngest_sequence_number : Z)
    (entry : located_key_t * list byte) (_ : unit) : string + unit :=
  let '(located_key, _) := entry in
  match find_pair db (collection_ptr located_key) (key located_key) with
  | Some sv =>
      if sequence_number sv =? txn_sequence_number txn
      then inl "Can't commit same entry more than once!"%string
      else if entry_was_overwritten (sequence_number sv) (txn_sequence_number txn)
                youngest_sequence_number
      then inl "Incoming key collides with newer entry!"%string
      else inr tt
  | None => inr tt
  end.

(** Step 4: import one buffered value.  When the key exists the buffers are
    swapped, so the transaction keeps the old bytes; when it is inserted the
    buffer is moved out of the transaction, which leaves it empty. *)
Definition commit_import (sequence : Z) (st : db_t * gmap located_key_t (list byte))
    (entry : located_key_t * list byte) : db_t * gmap located_key_t (list byte) :=
  let '(db, buffers) := st in
  let '(located_key, value) := entry in
  match find_pair db (collection_ptr located_key) (key located_key) with
  | Some sv =>
      (set_pair db (collection_ptr located_key) (key located_key)
         {| data := value; sequence_number := sequence |},
       <[located_key := data sv]> buffers)
  | None =>
      (set_pair db (collection_ptr located_key) (key located_key)
         {| data := value; sequence_number := sequence |},
       <[located_key := []]> buffers)
  end.

(** [reserve_ok] tells whether the [reserve_more] calls of step 3 succeed
    ([false]: one of them throws).  The result is the database, the
    transaction and [*c_error] ([None]: left unset). *)
Definition ukv_txn_commit (db : db_t) (txn : txn_t) (reserve_ok : bool)
    : db_t * txn_t * option string :=
  let youngest_sequence_number := youngest_sequence db in
  match for_each_or_return (commit_check_requested db) (map_to_list (requested_keys txn)) tt with
  | inl e => (db, txn, Some e)
  | inr _ =>
      match for_each_or_return (commit_check_incoming db txn youngest_sequence_number)
              (map_to_list (new_values txn)) tt with
      | inl e => (db, txn, Some e)
      | inr _ =>
          if negb reserve_ok then (db, txn, Some "Not enough memory!"%string)
          else
            let '(db', buffers) :=
              foldl (commit_import (txn_sequence_number txn)) (db, new_values txn)
                (map_to_list (new_values txn)) in
            (db',
             {| requested_keys := requested_keys txn; new_values := buffers;
                txn_sequence_number := txn_sequence_number txn |},
             None)
      end
  end.

(** ** Buckets of the paths modality (modality_paths.cpp, lines 54-214)

    A bucket is the value stored under one hashed key:
    the number N of members, N key lengths, N value lengths, the N keys and
    the N values, every counter a [ukv_length_t]. *)

Local Open Scope N_scope.

Definition counter_size_k : N := 4.
Definition bytes_in_header_k : N := counter_size_k.

Definition byte_of_N (n : N) : byte := default x00 (Byte.of_N (n mod 256)).

(** The four bytes of a [ukv_length_t] in memory, least significant first. *)
Definition le_bytes (n : N) : list byte :=
  [byte_of_N n; byte_of_N (n / 256); byte_of_N (n / 65536); byte_of_N (n / 16777216)].

Fixpoint le_value (bs : list byte) : N :=
  match bs with
  | [] => 0
  | b :: bs' => Byte.to_N b + 256 * le_value bs'
  end.

(** Reading the [ukv_length_t] at [mem + offset]. *)
Definition load_length (mem : list byte) (offset : N) : N :=
  le_value (take 4 (drop (N.to_nat offset) mem)).

(** Writing the [ukv_length_t] at [mem + offset]. *)
Definition store_length (mem : list byte) (offset : N) (v : N) : list byte :=
  memcpy mem offset (le_bytes v).

(** Modelled from the spec: [std::string_view] and [value_view_t] are
    declared outside these sources.  A view into the memory of a bucket is
    the offset of its first byte from the first byte of the bucket, and its
    size; a default-constructed [value_view_t], which converts to [false],
    is [None]. *)
Record view_t := {
  v_begin : N;
  v_size : N
}.

Definition view_bytes (mem : list byte) (v : view_t) : list byte :=
  take (N.to_nat (v_size v)) (drop (N.to_nat (v_begin v)) mem).

(** A bucket is itself a [value_view_t]: [None] is the empty view [{}], and
    [Some mem] a view over the bytes [mem]. *)
Definition bucket_bytes (bucket : option (list byte)) : list byte := default [] bucket.

Definition get_bucket_size (bucket : option (list byte)) : N :=
  if bytes_in_header_k <? N.of_nat (length (bucket_bytes bucket))
  then load_length (bucket_bytes bucket) 0
  else 0.

(** Modelled from the spec: [consecutive_strs_iterator_t] and
    [consecutive_bins_iterator_t] are declared outside these sources.  Such
    an iterator holds a pointer into an array of lengths and a pointer to
    the contents; it dereferences to the view of that length at the
    contents pointer, and incrementing it moves past that view and to the
    next length. *)
Record consecutive_iterator_t := {
  it_lengths : N;
  it_contents : N
}.

Definition it_deref (mem : list byte) (it : consecutive_iterator_t) : view_t :=
  {| v_begin := it_contents it; v_size := load_length mem (it_lengths it) |}.

Definition it_next (mem : list byte) (it : consecutive_iterator_t) : consecutive_iterator_t :=
  {| it_lengths := it_lengths it + counter_size_k;
     it_contents := it_contents it + load_length mem (it_lengths it) |}.

(** [std::accumulate(lengths + first, lengths + first + count, 0ul)] *)
Definition accumulate (mem : list byte) (first count : N) : N :=
  for_range (N.to_nat count)
    (fun j acc => acc + load_length mem (counter_size_k * (first + N.of_nat j))) 0.

Definition get_bucket_keys (size : N) : consecutive_iterator_t :=
  let bytes_for_counters := wrap32 (size * 2) * counter_size_k in
  {| it_lengths := counter_size_k * 1;
     it_contents := bytes_in_header_k + bytes_for_counters |}.

Definition get_bucket_vals (mem : list byte) (size : N) : consecutive_iterator_t :=
  let bytes_for_counters := wrap32 (size * 2) * counter_size_k in
  let bytes_for_keys := accumulate mem 1 size in
  {| it_lengths := counter_size_k * (1 + size);
     it_contents := bytes_in_header_k + bytes_for_counters + bytes_for_keys |}.

Record bucket_member_t := {
  idx : N;
  key_view : view_t;
  value_view : option view_t
}.

(** [bucket_member_t result;] *)
Definition no_member : bucket_member_t :=
  {| idx := 0; key_view := {| v_begin := 0; v_size := 0 |}; value_view := None |}.

Fixpoint for_each_in_bucket_loop {S : Type} (mem : list byte)
    (member_callback : bucket_member_t -> S -> S) (remaining : nat) (i : N)
    (bucket_keys bucket_vals : consecutive_iterator_t) (s : S) : S :=
  match remaining with
  | O => s
  | Datatypes.S remaining' =>
      let s' := member_callback
                  {| idx := i; key_view := it_deref mem bucket_keys;
                     value_view := Some (it_deref mem bucket_vals) |} s in
      for_each_in_bucket_loop mem member_callback remaining' (i + 1)
        (it_next mem bucket_keys) (it_next mem bucket_vals) s'
  end.

(** The callback of the source is a closure over local variables; here it
    takes and returns those variables. *)
Definition for_each_in_bucket {S : Type} (bucket : option (list byte))
    (member_callback : bucket_member_t -> S -> S) (s : S) : S :=
  let bucket_size := get_bucket_size bucket in
  if bucket_size =? 0 then s
  else
    let mem := bucket_bytes bucket in
    for_each_in_bucket_loop mem member_callback (N.to_nat bucket_size) 0
      (get_bucket_keys bucket_size) (get_bucket_vals mem bucket_size) s.

Definition find_in_bucket (bucket : option (list byte)) (key_str : list byte) : bucket_member_t :=
  for_each_in_bucket bucket
    (fun member result =>
       if decide (view_bytes (bucket_bytes bucket) (key_view member) = key_str)
       then member else result)
    no_member.

Definition starts_with (str prefix : list byte) : bool :=
  (length prefix <=? length str)%nat && bool_decide (take (length prefix) str = prefix).

(** Lines 123-128.  [full] is the memory the view [full] covers and [part] a
    view inside it.  The move copies [full.size() - part.size()] bytes from
    the end of the part to its beginning; the returned view keeps the first
    [full.size() - part.size()] bytes of the result, and what the move does
    to the memory behind the end of [full] is not part of the view. *)
Definition memmove (mem : list byte) (dst src len : N) : list byte :=
  take (N.to_nat dst) mem ++ take (N.to_nat len) (drop (N.to_nat src) mem)
    ++ drop (N.to_nat (dst + len)) mem.

Definition remove_part (full : list byte) (part : view_t) : list byte :=
  let removed_length := v_size part in
  let moved_length := N.of_nat (length full) - v_size part in
  let mem := memmove full (v_begin part) (v_begin part + v_size part) moved_length in
  take (N.to_nat (N.of_nat (length full) - removed_length)) mem.

Definition remove_from_bucket (bucket : option (list byte)) (key_str : list byte)
    : option (list byte) :=
  let found := find_in_bucket bucket key_str in
  match value_view found with
  | None => bucket
  | Some old_val =>
      let old_idx := idx found in
      let old_key := key_view found in
      let old_size := get_bucket_size bucket in
      if old_size =? 1 then None
      else
        let bucket1 := remove_part (bucket_bytes bucket) old_val in
        let bucket2 := remove_part bucket1 old_key in
        let value_length_bytes :=
          {| v_begin := counter_size_k * (old_size + old_idx + 1); v_size := counter_size_k |} in
        let bucket3 := remove_part bucket2 value_length_bytes in
        let key_length_bytes :=
          {| v_begin := counter_size_k * (old_idx + 1); v_size := counter_size_k |} in
        let bucket4 := remove_part bucket3 key_length_bytes in
        Some (store_length bucket4 0 (wrap32 (load_length bucket4 0 + (2 ^ 32 - 1))))
  end.

(** Unsigned 64-bit ([std::size_t]) subtraction. *)
Definition sub_size_t (a b : N) : N := (a + 2 ^ 64 - b mod 2 ^ 64) mod 2 ^ 64.

(** Body of the copy loop of [upsert_in_bucket] (lines 192-205), which
    walks the old bucket with the two iterators of [for_each_in_bucket]; a
    member is here the index [i] with what the iterators designate.  The
    state is the new buffer and the two output cursors. *)
Definition upsert_copy (old_mem : list byte) (is_missing : bool) (old_idx : N)
    (new_keys_lengths new_vals_lengths : N)
    (member : bucket_member_t) (st : list byte * N * N) : list byte * N * N :=
  let '(new_mem, new_keys_output, new_vals_output) := st in
  let i := idx member in
  if negb is_missing && (i =? old_idx) then st
  else
    let old_key := key_view member in
    let old_val := default {| v_begin := 0; v_size := 0 |} (value_view member) in
    let m1 := store_length new_mem (new_keys_lengths + counter_size_k * i) (wrap32 (v_size old_key)) in
    let m2 := store_length m1 (new_vals_lengths + counter_size_k * i) (wrap32 (v_size old_val)) in
    let m3 := memcpy m2 new_keys_output (view_bytes old_mem old_key) in
    let m4 := memcpy m3 new_vals_output (view_bytes old_mem old_val) in
    (m4, new_keys_output + v_size old_key, new_vals_output + v_size old_val).

(** Lines 159-214.  [allocate n] is the block of [n] bytes the arena hands
    out, with whatever content that memory has, or [None] when the arena
    reports an error; the function then returns with the bucket unchanged
    and the error set, which is the result [None] here. *)
Definition upsert_in_bucket (allocate : N -> option (list byte))
    (bucket : option (list byte)) (key val : list byte) : option (option (list byte)) :=
  let old_mem := bucket_bytes bucket in
  let old_size := get_bucket_size bucket in
  let old_bytes_for_keys := if bool_decide (is_Some bucket) then accumulate old_mem 1 old_size else 0 in
  let old_bytes_for_vals :=
    if bool_decide (is_Some bucket) then accumulate old_mem (1 + old_size) old_size else 0 in
  let found := find_in_bucket bucket key in
  let old_idx := idx found in
  let old_key := key_view found in
  let old_val_size := from_option v_size 0 (value_view found) in
  let is_missing := negb (bool_decide (is_Some (value_view found))) in
  let new_size := wrap32 (old_size + (if is_missing then 1 else 0)) in
  let new_bytes_for_counters := wrap32 (new_size * 2) * counter_size_k in
  let new_bytes_for_keys :=
    (sub_size_t old_bytes_for_keys (v_size old_key) + N.of_nat (length key)) mod 2 ^ 64 in
  let new_bytes_for_vals :=
    (sub_size_t old_bytes_for_vals old_val_size + N.of_nat (length val)) mod 2 ^ 64 in
  let new_bytes :=
    bytes_in_header_k + new_bytes_for_counters + new_bytes_for_keys + new_bytes_for_vals in
  match allocate new_bytes with
  | None => None
  | Some new_begin =>
      let m0 := store_length new_begin 0 new_size in
      let new_keys_lengths := counter_size_k * 1 in
      let new_vals_lengths := counter_size_k * (1 + new_size) in
      let new_keys_output := bytes_in_header_k + new_bytes_for_counters in
      let new_vals_output := bytes_in_header_k + new_bytes_for_counters + new_bytes_for_keys in
      let '(m1, new_keys_output', new_vals_output') :=
        for_each_in_bucket_loop old_mem
          (upsert_copy old_mem is_missing old_idx new_keys_lengths new_vals_lengths)
          (N.to_nat old_size) 0 (get_bucket_keys old_size) (get_bucket_vals old_mem old_size)
          (m0, new_keys_output, new_vals_output) in
      let last := wrap32 (new_size + (2 ^ 32 - 1)) in
      let m2 := store_length m1 (new_keys_lengths + counter_size_k * last)
                  (wrap32 (N.of_nat (length key))) in
      let m3 := store_length m2 (new_vals_lengths + counter_size_k * last)
                  (wrap32 (N.of_nat (length val))) in
      let m4 := memcpy m3 new_keys_output' key in
      let m5 := memcpy m4 new_vals_output' val in
      Some (Some m5)
  end.

(** The layout of a bucket holding the members [ms], in their order (the
    header comment of the file): the counter N, the N key lengths, the N
    value lengths, the N keys, the N values.  These are the byte sequences
    the file calls buckets. *)
Definition key_lengths (ms : list (list byte * list byte)) : list byte :=
  concat (map (fun m => le_bytes (N.of_nat (length m.1))) ms).

Definition value_lengths (ms : list (list byte * list byte)) : list byte :=
  concat (map (fun m => le_bytes (N.of_nat (length m.2))) ms).

Definition keys_of (ms : list (list byte * list byte)) : list byte := concat (map fst ms).

Definition values_of (ms : list (list byte * list byte)) : list byte := concat (map snd ms).

Definition encode_bucket (ms : list (list byte * list byte)) : list byte :=
  le_bytes (N.of_nat (length ms))
  ++ key_lengths ms ++ value_lengths ms ++ keys_of ms ++ values_of ms.

(** A well-formed bucket is absent, or is the layout of members with
    distinct names whose size fits the 32-bit length of a value. *)
Definition well_formed_members (ms : list (list byte * list byte)) : Prop :=
  NoDup ms.*1 /\ N.of_nat (length (encode_bucket ms)) < 2 ^ 32.

Inductive well_formed_bucket : option (list byte) -> list (list byte * list byte) -> Prop :=
| absent_bucket : well_formed_bucket None []
| encoded_bucket ms : well_formed_members ms -> well_formed_bucket (Some (encode_bucket ms)) ms.

(** The members a walk through the layout of [ms] meets, when it starts at
    index [i] with the keys at offset [koff] and the values at [voff]. *)
Fixpoint members_from (i koff voff : N) (ms : list (list byte * list byte))
    : list bucket_member_t :=
  match ms with
  | [] => []
  | m :: ms' =>
      {| idx := i;
         key_view := {| v_begin := koff; v_size := N.of_nat (length m.1) |};
         value_view := Some {| v_begin := voff; v_size := N.of_nat (length m.2) |} |}
      :: members_from (i + 1) (koff + N.of_nat (length m.1)) (voff + N.of_nat (length m.2)) ms'
  end.

(** Offsets of the keys and of the values in the layout of [ms]. *)
Definition keys_offset (ms : list (list byte * list byte)) : N :=
  4 + 8 * N.of_nat (length ms).

Definition values_offset (ms : list (list byte * list byte)) : N :=
  4 + 8 * N.of_nat (length ms) + N.of_nat (length (keys_of ms)).

(** The callback of [find_in_bucket], with its result as the accumulator of
    a left fold. *)
Definition keep_match (mem : list byte) (key_str : list byte)
    (result member : bucket_member_t) : bucket_member_t :=
  if decide (view_bytes mem (key_view member) = key_str) then member else result.

(** What reading a name from a bucket yields: the bytes of the value of the
    member [find_in_bucket] returns, if it returns one. *)
Definition bucket_read (bucket : option (list byte)) (key_str : list byte) : option (list byte) :=
  view_bytes (bucket_bytes bucket) <$> value_view (find_in_bucket bucket key_str).

(** ** Reading and matching paths (modality_paths.cpp, lines 351-726)

    The binary interface these functions call ([ukv_read], [ukv_scan] with
    strided arguments) is declared in [ukv.h], which is not among the
    sources.  A database is here the finite map from (collection handle,
    key) to the stored bytes that this interface exposes. *)

Section Paths.

(** [hash_t]: [std::hash<std::string_view>], whose values the language leaves
    to the implementation; [ukv_key_unknown_k], [ukv_length_missing_k] and
    [ukv_collection_main_k] are constants of [ukv.h]. *)
Variable hash : list byte -> Z.
Variable ukv_key_unknown_k : Z.
Variable ukv_length_missing_k : N.
Variable ukv_collection_main_k : Z.

(** Modelled from the spec: [ukv_read] fetches the value under every
    requested key; the values come back to back in one tape, with the offset
    of each in an array of [count + 1] offsets.  An absent value takes no
    bytes of the tape. *)
Definition ukv_read_tape (db : gmap (Z * Z) (list byte)) (places : list (Z * Z))
    : list N * list byte :=
  foldl (fun acc place =>
           let '(offsets, tape) := acc in
           let tape' := tape ++ default [] (db !! place) in
           (offsets ++ [N.of_nat (length tape')], tape'))
        ([0], []) places.

(** [joined_bins_t::operator[]]: the [i]-th value of a tape. *)
Definition joined_bin (offsets : list N) (tape : list byte) (i : nat) : option (list byte) :=
  let first := default 0 (offsets !! i) in
  let last := default 0 (offsets !! Datatypes.S i) in
  Some (take (N.to_nat (last - first)) (drop (N.to_nat first) tape)).

(** The keys under which a collection holds a value. *)
Definition collection_keys (db : gmap (Z * Z) (list byte)) (collection : Z) : list Z :=
  omap (fun place : Z * Z => if decide (place.1 = collection) then Some place.2 else None)
       (elements (dom db)).

(** Modelled from the spec: [ukv_scan] returns, in ascending order, at most
    [max_count] keys of the collection that are not below [min_key]; from the
    smallest key on when [min_key] is [ukv_key_unknown_k]. *)
Definition ukv_scan (db : gmap (Z * Z) (list byte)) (collection : Z) (min_key : Z)
    (max_count : N) : list Z :=
  let keys := merge_sort Z.le (collection_keys db collection) in
  let from_min :=
    if decide (min_key = ukv_key_unknown_k) then keys
    else filter (fun k => (min_key <= k)%Z) keys in
  take (N.to_nat max_count) from_min.

(** Modelled from the spec: [alloc_or_dummy<T>(size, error, output)] of
    [helpers/pmr.hpp], which is not among the sources.  When the caller
    asked for the output it is an array of [size] cells; otherwise it is one
    dummy cell that every index designates (a range of stride zero). *)
Record strided_buffer_t := {
  cells : list N;
  stride : N
}.

Definition alloc_or_dummy (size : N) (output : bool) : strided_buffer_t :=
  if output then {| cells := replicate (N.to_nat size) 0; stride := 1 |}
  else {| cells := [0]; stride := 0 |}.

Inductive buffer_name := presences_buffer | lengths_buffer | offsets_buffer.

(** [buffer[i] = v].  A store outside the cells of the buffer changes memory
    the buffer does not own; the embedding records it and goes on. *)
Definition store_cell (which : buffer_name) (i : N) (v : N)
    (buffer : strided_buffer_t) (out_of_bounds : list (buffer_name * N))
    : strided_buffer_t * list (buffer_name * N) :=
  let j := N.to_nat (i * stride buffer) in
  if (j <? length (cells buffer))%nat
  then ({| cells := <[j := v]> (cells buffer); stride := stride buffer |}, out_of_bounds)
  else (buffer, out_of_bounds ++ [(which, i)]).

Record paths_read_state := {
  exported_volume : N;
  buckets_values : list byte;
  presences : strided_buffer_t;
  lengths : strided_buffer_t;
  offsets : strided_buffer_t;
  out_of_bounds : list (buffer_name * N)
}.

Definition divide_round_up (n d : N) : N := (n + d - 1) / d.
Definition bits_in_byte_k : N := 8.

(** Body of the loop of lines 434-453. *)
Definition paths_read_body (paths : list (list byte)) (buckets_offsets : list N)
    (c_values : bool) (i : nat) (st : paths_read_state) : paths_read_state :=
  let key_str := default [] (paths !! i) in
  let bucket := joined_bin buckets_offsets (buckets_values st) i in
  match value_view (find_in_bucket bucket key_str) with
  | Some val =>
      let '(presences1, oob1) :=
        store_cell presences_buffer (N.of_nat i) 1 (presences st) (out_of_bounds st) in
      let '(offsets1, oob2) :=
        store_cell offsets_buffer (N.of_nat i) (exported_volume st) (offsets st) oob1 in
      let '(lengths1, oob3) :=
        store_cell lengths_buffer (N.of_nat i) (wrap32 (v_size val)) (lengths st) oob2 in
      {| exported_volume := wrap32 (exported_volume st + wrap32 (v_size val));
         buckets_values :=
           if c_values
           then memcpy (buckets_values st) (exported_volume st)
                  (view_bytes (bucket_bytes bucket) val)
           else buckets_values st;
         presences := presences1; lengths := lengths1; offsets := offsets1;
         out_of_bounds := oob3 |}
  | None =>
      let '(presences1, oob1) :=
        store_cell presences_buffer (N.of_nat i) 0 (presences st) (out_of_bounds st) in
      let '(offsets1, oob2) :=
        store_cell offsets_buffer (N.of_nat i) (exported_volume st) (offsets st) oob1 in
      let '(lengths1, oob3) :=
        store_cell lengths_buffer (N.of_nat i) ukv_length_missing_k (lengths st) oob2 in
      {| exported_volume := exported_volume st;
         buckets_values := buckets_values st;
         presences := presences1; lengths := lengths1; offsets := offsets1;
         out_of_bounds := oob3 |}
  end.

(** Lines 351-458, for [c_tasks_count] paths.  [c_collections = None] is a
    null array of collections: every task then addresses the main
    collection.  The booleans tell which of the output pointers
    [c_presences], [c_offsets], [c_lengths], [c_values] are not null. *)
Definition ukv_paths_read (db : gmap (Z * Z) (list byte)) (c_tasks_count : nat)
    (c_collections : option (list Z)) (paths : list (list byte))
    (c_presences c_offsets c_lengths c_values : bool) : paths_read_state :=
  let buckets_keys := map (fun i => hash (default [] (paths !! i))) (seq 0 c_tasks_count) in
  let collections :=
    map (fun i => match c_collections with
                  | Some cs => default ukv_collection_main_k (cs !! i)
                  | None => ukv_collection_main_k
                  end) (seq 0 c_tasks_count) in
  let '(buckets_offsets, tape) := ukv_read_tape db (zip collections buckets_keys) in
  let st0 :=
    {| exported_volume := 0;
       buckets_values := tape;
       presences := alloc_or_dummy (divide_round_up (N.of_nat c_tasks_count) bits_in_byte_k)
                      c_presences;
       lengths := alloc_or_dummy (N.of_nat c_tasks_count) c_lengths;
       offsets := alloc_or_dummy (N.of_nat c_tasks_count) c_offsets;
       out_of_bounds := [] |} in
  let st := for_range c_tasks_count (paths_read_body paths buckets_offsets c_values) st0 in
  let '(offsets1, oob) :=
    store_cell offsets_buffer (N.of_nat c_tasks_count) (exported_volume st)
      (offsets st) (out_of_bounds st) in
  {| exported_volume := exported_volume st;
     buckets_values := buckets_values st;
     presences := presences st; lengths := lengths st; offsets := offsets1;
     out_of_bounds := oob |}.

(** Local variables of [scan_one_collection_one_range] that the callback of
    line 532 updates.  [paths] is the tape of exported names, in the order
    of export; each is followed there by a terminator byte. *)
Record scan_state := {
  found_paths : N;
  has_reached_previous : bool;
  previous : list byte;
  paths : list (list byte)
}.

(** The callback of lines 532-557. *)
Definition scan_member (mem : list byte) (prefix : list byte) (max_count : N)
    (member : bucket_member_t) (st : scan_state) : scan_state :=
  let member_key := view_bytes mem (key_view member) in
  if negb (starts_with member_key prefix) then st
  else if bool_decide (member_key = previous st) then
    {| found_paths := found_paths st; has_reached_previous := true;
       previous := previous st; paths := paths st |}
  else if negb (has_reached_previous st) then st
  else if max_count <=? found_paths st then st
  else
    {| found_paths := wrap32 (found_paths st + 1);
       has_reached_previous := has_reached_previous st;
       previous := member_key;
       paths := paths st ++ [member_key] |}.

(** The [while] loop of lines 483-559; [fuel] bounds the number of rounds,
    and [None] means that it did not suffice. *)
Fixpoint scan_rounds (fuel : nat) (db : gmap (Z * Z) (list byte)) (collection : Z)
    (prefix : list byte) (max_count : N) (st : scan_state) : option scan_state :=
  if max_count <=? found_paths st then Some st
  else
    match fuel with
    | O => None
    | Datatypes.S fuel' =>
        let previous_key :=
          if bool_decide (previous st = []) then hash (previous st) else ukv_key_unknown_k in
        let found_buckets_keys := ukv_scan db collection previous_key max_count in
        let found_buckets_count := length found_buckets_keys in
        if (found_buckets_count <=? 1)%nat then Some st
        else
          let '(found_buckets_offsets, found_buckets_data) :=
            ukv_read_tape db (map (fun k => (collection, k)) found_buckets_keys) in
          let st' :=
            for_range found_buckets_count
              (fun i acc =>
                 let bucket := joined_bin found_buckets_offsets found_buckets_data i in
                 for_each_in_bucket bucket (scan_member (bucket_bytes bucket) prefix max_count) acc)
              st in
          scan_rounds fuel' db collection prefix max_count st'
    end.

(** Lines 465-562: the result is [count] and the exported names. *)
Definition scan_one_collection_one_range (fuel : nat) (db : gmap (Z * Z) (list byte))
    (collection : Z) (prefix previous : list byte) (max_count : N)
    : option (N * list (list byte)) :=
  let st0 := {| found_paths := 0; has_reached_previous := bool_decide (previous = []);
                previous := previous; paths := [] |} in
  match scan_rounds fuel db collection prefix max_count st0 with
  | Some st => Some (found_paths st, paths st)
  | None => None
  end.

Record prefix_match_task_t := {
  task_collection : Z;
  task_prefix : list byte;
  task_previous : list byte;
  task_max_count : N
}.

(** Lines 608-726.  Only a call with one task scans; the functions for
    several tasks have empty bodies, so the counts stay as allocated
    ([found_counts]) and no name is exported. *)
Definition ukv_paths_match (fuel : nat) (db : gmap (Z * Z) (list byte))
    (tasks : list prefix_match_task_t) (found_counts : list N)
    : option (list N * list (list byte)) :=
  match tasks with
  | [task] =>
      match scan_one_collection_one_range fuel db (task_collection task) (task_prefix task)
              (task_previous task) (task_max_count task) with
      | Some (count, names) => Some (<[0%nat := count]> found_counts, names)
      | None => None
      end
  | _ => Some (found_counts, [])
  end.

End Paths.

(** The bytes of a string literal. *)
Definition bytes (s : string) : list byte := String.list_byte_of_string s.

(** ** The other entry points of the store (ukv_stl_embedded.cpp)

    The option setters of lines 143-161, the measuring reads of lines
    210-227 and 321-358, the dispatchers of lines 442-494 and the
    management of collections of lines 500-573. *)

Local Open Scope Z_scope.

Definition ukv_option_read_consistent (c_options : N) (c_enabled : bool) : N :=
  set_flag c_options c_enabled consistent_k.

Definition ukv_option_read_transparent (c_options : N) (c_enabled : bool) : N :=
  set_flag c_options c_enabled transaparent_read_k.

Definition ukv_option_read_colocated (c_options : N) (c_enabled : bool) : N :=
  set_flag c_options c_enabled colocated_k.

Definition ukv_option_write_flush (c_options : N) (c_enabled : bool) : N :=
  set_flag c_options c_enabled flush_write_k.

Definition ukv_option_write_colocated (c_options : N) (c_enabled : bool) : N :=
  set_flag c_options c_enabled colocated_k.

(** Body of the loop of [_ukv_measure_head]: [c_lengths[i]] receives the
    size of the value, converted to a [ukv_val_len_t], or 0. *)
Definition measure_head_body (db : db_t) (c_keys : list Z)
    (c_collections : option (list (option string))) (c_options : N)
    (i : nat) (c_lengths : list N) : list N :=
  match find_pair db (collection_at c_collections i c_options) (default 0 (c_keys !! i)) with
  | Some sv => c_lengths ++ [wrap32 (N.of_nat (length (data sv)))]
  | None => c_lengths ++ [0%N]
  end.

Definition _ukv_measure_head (db : db_t) (c_keys : list Z) (c_keys_count : nat)
    (c_collections : option (list (option string))) (c_options : N) : list N :=
  for_range c_keys_count (measure_head_body db c_keys c_collections c_options) [].

(** Body of the loop of [_ukv_measure_txn], which returns from the function
    at the first overwritten entry; the result is then the error alone,
    without the lengths written before it. *)
Definition measure_txn_body (txn : txn_t) (db : db_t) (youngest_sequence_number : Z)
    (c_keys : list Z) (c_collections : option (list (option string))) (c_options : N)
    (i : nat) (c_lengths : list N) : string + list N :=
  let collection := collection_at c_collections i c_options in
  let key := default 0 (c_keys !! i) in
  match new_values txn !! {| collection_ptr := collection; key := key |} with
  | Some value => inr (c_lengths ++ [wrap32 (N.of_nat (length value))])
  | None =>
      match find_pair db collection key with
      | Some sv =>
          if entry_was_overwritten (sequence_number sv) (txn_sequence_number txn)
               youngest_sequence_number
          then inl "Requested key was already overwritten since the start of the transaction!"%string
          else inr (c_lengths ++ [wrap32 (N.of_nat (length (data sv)))])
      | None => inr (c_lengths ++ [0%N])
      end
  end.

Definition _ukv_measure_txn (txn : txn_t) (db : db_t) (c_keys : list Z) (c_keys_count : nat)
    (c_collections : option (list (option string))) (c_options : N) : string + list N :=
  for_each_or_return
    (measure_txn_body txn db (youngest_sequence db) c_keys c_collections c_options)
    (seq 0 c_keys_count) [].

(** [ukv_read]: [c_txn = None] is a null transaction and [c_values = false]
    a null array of values, for which only the lengths are measured; the
    arena is then left as it is and no value pointer is written. *)
Definition ukv_read (allocate : N -> option (list byte)) (db : db_t) (c_txn : option txn_t)
    (c_keys : list Z) (c_keys_count : nat)
    (c_collections : option (list (option string))) (c_options : N)
    (c_arena : arena_t) (c_values : bool) : string + read_output :=
  if negb c_values then
    match c_txn with
    | Some txn =>
        match _ukv_measure_txn txn db c_keys c_keys_count c_collections c_options with
        | inl e => inl e
        | inr lens => inr {| out_arena := c_arena; c_values_out := []; c_lengths_out := lens |}
        end
    | None =>
        inr {| out_arena := c_arena; c_values_out := [];
               c_lengths_out := _ukv_measure_head db c_keys c_keys_count c_collections c_options |}
    end
  else
    match c_txn with
    | Some txn =>
        (_ukv_read_txn allocate txn db c_keys c_keys_count c_collections c_options c_arena).2
    | None => _ukv_read_head allocate db c_keys c_keys_count c_collections c_options c_arena
    end.

(** [ukv_write]: inside a transaction the write is buffered, otherwise it
    goes to HEAD. *)
Definition ukv_write (db : db_t) (c_txn : option txn_t) (c_keys : list Z) (c_keys_count : nat)
    (c_collections : option (list (option string))) (c_options : N)
    (c_values : list (option (list byte))) (c_lengths : list N) : db_t * option txn_t :=
  match c_txn with
  | Some txn =>
      (db, Some (_ukv_write_txn txn c_keys c_keys_count c_collections c_options
                   c_values c_lengths))
  | None =>
      (_ukv_write_head db c_keys c_keys_count c_collections c_options c_values c_lengths, None)
  end.

(** [ukv_collection_upsert]: the result is the database and the handle
    written to [*c_collection].  The allocation of a new collection
    succeeds. *)
Definition ukv_collection_upsert (db : db_t) (c_collection_name : string)
    : db_t * option string :=
  match named db !! c_collection_name with
  | None =>
      ({| unnamed := unnamed db;
          named := <[c_collection_name := {| name := c_collection_name; pairs := ∅ |}]>
                     (named db);
          youngest_sequence := youngest_sequence db |},
       Some c_collection_name)
  | Some _ => (db, Some c_collection_name)
  end.

Definition ukv_collection_remove (db : db_t) (c_collection_name : string) : db_t :=
  match named db !! c_collection_name with
  | Some _ =>
      {| unnamed := unnamed db; named := delete c_collection_name (named db);
         youngest_sequence := youngest_sequence db |}
  | None => db
  end.

(** [ukv_control]: the response and the error. *)
Definition ukv_control (c_request : string) : option string * option string :=
  (None, Some "Controls aren't supported in this implementation!"%string).

(** The place the [i]-th task of a batch addresses. *)
Definition located (c_keys : list Z) (c_collections : option (list (option string)))
    (c_options : N) (i : nat) : located_key_t :=
  {| collection_ptr := collection_at c_collections i c_options;
     key := default 0 (c_keys !! i) |}.

(** Every entry carries a sequence number that the database has handed out:
    none is above the youngest. *)
Definition sequences_bounded (db : db_t) : Prop :=
  forall c k sv, find_pair db c k = Some sv -> sequence_number sv <= youngest_sequence db.

Local Open Scope Z_scope.

(** What the fetch loop has produced for the [i]-th task. *)
Definition row_fetched (db : db_t) (c_keys : list Z)
    (c_collections : option (list (option string))) (c_options : N)
    (arena : list byte) (vals : list ukv_val_ptr_t) (lens : list N) (i : nat) : Prop :=
  match find_pair db (collection_at c_collections i c_options) (default 0 (c_keys !! i)) with
  | Some sv =>
      exists offset,
        vals !! i = Some (arena_plus offset)
        /\ lens !! i = Some (wrap32 (N.of_nat (length (data sv))))
        /\ take (length (data sv)) (drop (N.to_nat offset) arena) = data sv
  | None => vals !! i = Some NULL /\ lens !! i = Some 0%N
  end.

(** The output of [_ukv_read_head] once the arena [a] is settled. *)
Definition read_head_output (db : db_t) (c_keys : list Z) (c_keys_count : nat)
    (c_collections : option (list (option string))) (c_options : N) (a : arena_t)
    : read_output :=
  let '(bytes, _, vals, lens) :=
    for_range c_keys_count (read_head_fetch db c_keys c_collections c_options)
      (arena_bytes a, 0%N, [], []) in
  {| out_arena := {| arena_length := arena_length a; arena_bytes := bytes |};
     c_values_out := vals; c_lengths_out := lens |}.

(** The bytes the [i]-th task of a transactional read exports into the
    arena: those of an entry of HEAD that the transaction does not buffer. *)
Definition txn_row_bytes (txn : txn_t) (db : db_t) (c_keys : list Z)
    (c_collections : option (list (option string))) (c_options : N) (i : nat) : N :=
  match new_values txn !! located c_keys c_collections c_options i with
  | Some _ => 0%N
  | None =>
      match find_pair db (collection_at c_collections i c_options) (default 0 (c_keys !! i)) with
      | Some sv => N.of_nat (length (data sv))
      | None => 0%N
      end
  end.

(** The [i]-th task reads an entry of HEAD that was written since the
    transaction began and that the transaction does not buffer. *)
Definition row_conflicts (txn : txn_t) (db : db_t) (c_keys : list Z)
    (c_collections : option (list (option string))) (c_options : N) (i : nat) : bool :=
  match new_values txn !! located c_keys c_collections c_options i with
  | Some _ => false
  | None =>
      match find_pair db (collection_at c_collections i c_options) (default 0 (c_keys !! i)) with
      | Some sv =>
          entry_was_overwritten (sequence_number sv) (txn_sequence_number txn)
            (youngest_sequence db)
      | None => false
      end
  end.

(** What a transactional read has produced for the [i]-th task. *)
Definition txn_row_fetched (txn : txn_t) (db : db_t) (c_keys : list Z)
    (c_collections : option (list (option string))) (c_options : N)
    (arena : list byte) (vals : list ukv_val_ptr_t) (lens : list N) (i : nat) : Prop :=
  match new_values txn !! located c_keys c_collections c_options i with
  | Some value =>
      vals !! i = Some (txn_value (located c_keys c_collections c_options i))
      /\ lens !! i = Some (wrap32 (N.of_nat (length value)))
  | None => row_fetched db c_keys c_collections c_options arena vals lens i
  end.

Definition conflict_message : string :=
  "Requested key was already overwritten since the start of the transaction!".

(** The output of [_ukv_read_txn] once the arena [a] is settled. *)
Definition read_txn_output (txn : txn_t) (db : db_t) (c_keys : list Z) (c_keys_count : nat)
    (c_collections : option (list (option string))) (c_options : N) (a : arena_t)
    : read_output :=
  let '(bytes, _, vals, lens) :=
    for_range c_keys_count (read_txn_fetch txn db c_keys c_collections c_options)
      (arena_bytes a, 0%N, [], []) in
  {| out_arena := {| arena_length := arena_length a; arena_bytes := bytes |};
     c_values_out := vals; c_lengths_out := lens |}.

(** The length a transactional read or measure reports for the [i]-th
    task. *)
Definition txn_row_length (txn : txn_t) (db : db_t) (c_keys : list Z)
    (c_collections : option (list (option string))) (c_options : N) (i : nat) : N :=
  match new_values txn !! located c_keys c_collections c_options i with
  | Some value => wrap32 (N.of_nat (length value))
  | None =>
      match find_pair db (collection_at c_collections i c_options) (default 0 (c_keys !! i)) with
      | Some sv => wrap32 (N.of_nat (length (data sv)))
      | None => 0%N
      end
  end.

Local Open Scope N_scope.

(** What the scan keeps true of its local variables. *)
Definition scan_invariant (prefix : list byte) (max_count : N) (st : scan_state) : Prop :=
  found_paths st = N.of_nat (length (paths st))
  /\ found_paths st <= max_count
  /\ Forall (fun exported => starts_with exported prefix = true) (paths st).

(** The new bucket while [upsert_in_bucket] fills it: the members [ms] are
    in place, and the rest of each of the four areas still holds what the
    allocated memory held there. *)
Definition partial_bucket (size : N) (ms : list (list byte * list byte))
    (jkl jvl jk jv : list byte) : list byte :=
  le_bytes size ++ (key_lengths ms ++ jkl) ++ (value_lengths ms ++ jvl)
    ++ (keys_of ms ++ jk) ++ (values_of ms ++ jv).

Local Open Scope N_scope.

(** The place of the store the [i]-th task of [ukv_paths_read] addresses,
    the value its path has there, and the values of the tasks before the
    [i]-th, back to back. *)
Definition path_place (hash : list byte -> Z) (main : Z) (c_collections : option (list Z))
    (paths : list (list byte)) (i : nat) : Z * Z :=
  (match c_collections with
   | Some cs => default main (cs !! i)
   | None => main
   end,
   hash (default [] (paths !! i))).

Definition path_value (hash : list byte -> Z) (main : Z) (db : gmap (Z * Z) (list byte))
    (c_collections : option (list Z)) (paths : list (list byte)) (i : nat)
    : option (list byte) :=
  bucket_read (db !! path_place hash main c_collections paths i) (default [] (paths !! i)).

Definition exported_values (hash : list byte -> Z) (main : Z) (db : gmap (Z * Z) (list byte))
    (c_collections : option (list Z)) (paths : list (list byte)) (i : nat) : list byte :=
  concat (map (fun j => default [] (path_value hash main db c_collections paths j)) (seq 0 i)).

(** The names of the collection: those a bucket stored under some key of
    the collection reads. *)
Definition stored_name (db : gmap (Z * Z) (list byte)) (collection : Z) (exported : list byte)
    : Prop :=
  exists k, is_Some (bucket_read (db !! (collection, k)) exported).

Local Open Scope Z_scope.

(** ** Example runs of the store *)

Local Open Scope Z_scope.

(** An arena allocator that succeeds, with zero-filled blocks. *)
Definition zero_block (n : N) : option (list byte) := Some (replicate (N.to_nat n) x00).

Definition empty_arena : arena_t := {| arena_length := 0%N; arena_bytes := [] |}.

(** A transaction begun on an empty database, with one buffered write. *)
Definition run1_db : db_t := (ukv_txn_begin db_new 0 None).1.
Definition run1_txn : txn_t :=
  _ukv_write_txn (ukv_txn_begin db_new 0 None).2 [34] 1 None 0 [Some (bytes "v")] [1%N].

(** The same transaction, after HEAD wrote the key it buffers. *)
Definition run2_db : db_t := _ukv_write_head run1_db [34] 1 None 0 [Some (bytes "w")] [1%N].

(** Key 1 is written, a transaction begins and reads it with every option
    bit set, then HEAD overwrites key 1. *)
Definition run3_db0 : db_t := _ukv_write_head db_new [1] 1 None 0 [Some (bytes "old")] [3%N].
Definition run3_db1 : db_t := (ukv_txn_begin run3_db0 0 None).1.
Definition run3_txn : txn_t := (ukv_txn_begin run3_db0 0 None).2.
Definition run3_read : txn_t * (string + read_output) :=
  _ukv_read_txn zero_block run3_txn run3_db1 [1] 1 None 15%N empty_arena.
Definition run3_db2 : db_t := _ukv_write_head run3_db1 [1] 1 None 0 [Some (bytes "new")] [3%N].

(** Key 34 holds eight bytes on HEAD. *)
Definition run4_db : db_t :=
  _ukv_write_head db_new [34] 1 None 0 [Some (bytes "34______")] [8%N].

(** ** Example buckets and collections of paths *)

(** A hash for the examples: the length of the name.  The names "home/a" and
    "home/bb" fall into different buckets. *)
Definition length_hash (s : list byte) : Z := Z.of_nat (length s).

Definition key_unknown : Z := 2 ^ 63 - 1.
Definition length_missing : N := (2 ^ 32 - 1)%N.

(** The main collection (handle 0) holding the one name "home/a". *)
Definition one_bucket_db : gmap (Z * Z) (list byte) :=
  {[ (0, length_hash (bytes "home/a")) := encode_bucket [(bytes "home/a", bytes "A")] ]}.

(** The main collection holding "home/a" and "home/bb", in two buckets. *)
Definition two_buckets_db : gmap (Z * Z) (list byte) :=
  <[ (0, length_hash (bytes "home/bb")) := encode_bucket [(bytes "home/bb", bytes "B")] ]>
    one_bucket_db.

(** A bucket of three members. *)
Definition three_members : list byte :=
  encode_bucket [(bytes "a", bytes "1"); (bytes "bb", bytes "2"); (bytes "ccc", bytes "3")].

(** What [upsert_in_bucket] makes of [three_members] when "a" is given the
    value "9": [c0] and [c1] are the bytes the allocated memory held where
    the first key length and the first value length are. *)
Definition three_members_upserted_in (c0 c1 : list byte) : list byte :=
  (le_bytes 3
   ++ c0 ++ le_bytes 2 ++ le_bytes 1
   ++ c1 ++ le_bytes 1 ++ le_bytes 1
   ++ bytes "bbccca" ++ bytes "239")%N.

(** The same when the arena hands out zero-filled memory. *)
Definition three_members_upserted : list byte :=
  three_members_upserted_in (le_bytes 0) (le_bytes 0).

(** * Properties of the store *)

Local Open Scope Z_scope.

Lemma wrap64_id z : in_sequence_range z -> wrap64 z = z.
Proof. unfold in_sequence_range, wrap64. intros H. rewrite Z.mod_small; lia. Qed.

Lemma wrap64_range z : in_sequence_range (wrap64 z).
Proof.
  unfold in_sequence_range, wrap64.
  pose proof (Z.mod_pos_bound (z + 2 ^ 63) (2 ^ 64) ltac:(lia)). lia.
Qed.

Lemma wrap64_mod z : wrap64 z mod 2 ^ 64 = z mod 2 ^ 64.
Proof.
  unfold wrap64.
  rewrite Zminus_mod, Z.mod_mod by lia.
  rewrite <- Zminus_mod. f_equal. lia.
Qed.

(** ** The overwrite interval *)

(** C2, as stated, fails: an entry whose sequence equals the start sequence
    of the transaction is reported as overwritten, while the half-open
    interval (start, youngest] of the specification leaves it out. *)
Lemma entry_was_overwritten_includes_start :
  entry_was_overwritten 5 5 7 = true /\ spec_overwrite_interval 5 5 7 = false.
Proof. split; reflexivity. Qed.

(** C2, amended: on signed 64-bit sequence numbers the predicate is true
    exactly on the closed interval [start, youngest] taken modulo 2^64: the
    direct closed interval when start <= youngest, and otherwise the
    sequences at or above start together with those at or below youngest.
    The start sequence itself is always reported as overwritten. *)
Theorem entry_was_overwritten_closed_interval (e s y : Z) :
  in_sequence_range e -> in_sequence_range s -> in_sequence_range y ->
  (entry_was_overwritten e s y = true <-> (e - s) mod 2 ^ 64 <= (y - s) mod 2 ^ 64)
  /\ (entry_was_overwritten e s y = true <->
      if decide (s <= y) then s <= e <= y else s <= e \/ e <= y)
  /\ entry_was_overwritten s s y = true.
Proof.
  unfold in_sequence_range, entry_was_overwritten. intros He Hs Hy.
  assert (Hmod : forall a, - 2 ^ 64 < a < 2 ^ 64 ->
            a mod 2 ^ 64 = if decide (0 <= a) then a else a + 2 ^ 64).
  { intros a Ha. case_decide.
    - apply Z.mod_small; lia.
    - symmetry. apply (Z.mod_unique_pos _ _ (-1)); lia. }
  rewrite (Hmod (e - s)), (Hmod (y - s)) by lia.
  split; [|split].
  - repeat case_decide;
      destruct (Z.leb_spec s y), (Z.geb_spec e s), (Z.leb_spec e y);
      simpl; split; intros Hx; try lia; try done.
  - case_decide;
      destruct (Z.leb_spec s y), (Z.geb_spec e s), (Z.leb_spec e y);
      simpl; split; intros Hx; try lia; try done; try (destruct Hx; lia).
  - destruct (Z.leb_spec s y), (Z.geb_spec s s), (Z.leb_spec s y); simpl; try lia; done.
Qed.

Lemma entry_was_overwritten_closed_interval_witness :
  (entry_was_overwritten 6 5 7 = true <-> (6 - 5) mod 2 ^ 64 <= (7 - 5) mod 2 ^ 64)
  /\ (entry_was_overwritten 6 5 7 = true <->
      if decide (5 <= 7) then 5 <= 6 <= 7 else 5 <= 6 \/ 6 <= 7)
  /\ entry_was_overwritten 5 5 7 = true.
Proof.
  apply (entry_was_overwritten_closed_interval 6 5 7);
    unfold in_sequence_range; lia.
Defined.

(** ** Beginning a transaction *)

(** C10: with a zero hint the youngest sequence goes up by one (as a 64-bit
    counter) and the new value is the start sequence of the transaction;
    a non-zero hint becomes the start sequence with its 64 bits unchanged
    and the database is left as it was; either way both sets of the
    transaction are empty afterwards and no entry is touched. *)
Theorem txn_begin_consumes_sequence (db : db_t) (hint : Z) (c_txn : option txn_t) :
  0 <= hint < 2 ^ 64 ->
  let db' := (ukv_txn_begin db hint c_txn).1 in
  let txn := (ukv_txn_begin db hint c_txn).2 in
  (hint = 0 ->
     youngest_sequence db' = wrap64 (youngest_sequence db + 1)
     /\ (- 2 ^ 63 <= youngest_sequence db < 2 ^ 63 - 1 ->
         youngest_sequence db' = youngest_sequence db + 1)
     /\ txn_sequence_number txn = youngest_sequence db')
  /\ (hint <> 0 ->
     db' = db
     /\ txn_sequence_number txn mod 2 ^ 64 = hint
     /\ (hint < 2 ^ 63 -> txn_sequence_number txn = hint))
  /\ requested_keys txn = ∅ /\ new_values txn = ∅
  /\ unnamed db' = unnamed db /\ named db' = named db.
Proof.
  intros Hhint. unfold ukv_txn_begin.
  destruct (Z.eqb_spec hint 0) as [->|Hne]; simpl.
  - repeat split; try done.
    intros Hy. apply wrap64_id. unfold in_sequence_range. lia.
  - repeat split; try done.
    + rewrite wrap64_mod. apply Z.mod_small. lia.
    + intros Hlt. apply wrap64_id. unfold in_sequence_range. lia.
Qed.

Lemma txn_begin_consumes_sequence_witness :
  let db' := (ukv_txn_begin db_new 0 None).1 in
  let txn := (ukv_txn_begin db_new 0 None).2 in
  youngest_sequence db' = 1 /\ txn_sequence_number txn = 1
  /\ requested_keys txn = ∅ /\ new_values txn = ∅.
Proof.
  destruct (txn_begin_consumes_sequence db_new 0 None ltac:(lia))
    as (Hzero & _ & Hr & Hn & _).
  destruct (Hzero eq_refl) as (_ & Hy & Ht).
  split; [|split; [|split]]; [ | | exact Hr | exact Hn].
  - rewrite Hy; [reflexivity | simpl; lia].
  - rewrite Ht, Hy; [reflexivity | simpl; lia].
Defined.

(** ** Entries under [set_pair] *)

Lemma find_pair_set_pair_eq db c k sv : find_pair (set_pair db c k sv) c k = Some sv.
Proof.
  unfold find_pair, set_pair. destruct c as [n|]; simpl.
  - rewrite lookup_insert_eq. simpl. apply lookup_insert_eq.
  - apply lookup_insert_eq.
Qed.

Lemma find_pair_set_pair_ne db c k sv c' k' :
  {| collection_ptr := c; key := k |} <> {| collection_ptr := c'; key := k' |} ->
  find_pair (set_pair db c k sv) c' k' = find_pair db c' k'.
Proof.
  intros Hne. unfold find_pair, set_pair.
  destruct c as [n|], c' as [n'|]; simpl; try done.
  - destruct (decide (n = n')) as [->|Hn].
    + rewrite lookup_insert_eq. simpl.
      rewrite lookup_insert_ne; [done | congruence].
    + by rewrite lookup_insert_ne.
  - rewrite lookup_insert_ne; [done | congruence].
Qed.

Lemma youngest_sequence_set_pair db c k sv :
  youngest_sequence (set_pair db c k sv) = youngest_sequence db.
Proof. by destruct c. Qed.

(** ** Commit *)

Lemma commit_import_db seq db buffers lk v :
  (commit_import seq (db, buffers) (lk, v)).1
  = set_pair db (collection_ptr lk) (key lk) {| data := v; sequence_number := seq |}.
Proof. unfold commit_import. by destruct (find_pair _ _ _). Qed.

Lemma commit_import_foldl_other seq l st c k :
  {| collection_ptr := c; key := k |} ∉ l.*1 ->
  find_pair (foldl (commit_import seq) st l).1 c k = find_pair st.1 c k.
Proof.
  revert st. induction l as [|[lk v] l IH]; intros [db buffers] Hnot; [done|].
  simpl in Hnot. apply not_elem_of_cons in Hnot as [Hne Hnot].
  cbn [foldl]. rewrite IH by done.
  rewrite commit_import_db. simpl.
  apply find_pair_set_pair_ne. destruct lk. simpl. congruence.
Qed.

Lemma commit_import_foldl_applied seq l st lk v :
  NoDup l.*1 -> (lk, v) ∈ l ->
  find_pair (foldl (commit_import seq) st l).1 (collection_ptr lk) (key lk)
  = Some {| data := v; sequence_number := seq |}.
Proof.
  revert st. induction l as [|[lk' v'] l IH]; intros [db buffers] Hnd Hin.
  - by apply elem_of_nil in Hin.
  - simpl in Hnd. apply NoDup_cons in Hnd as [Hnot Hnd].
    cbn [foldl]. apply elem_of_cons in Hin as [Heq|Hin].
    + injection Heq as <- <-.
      rewrite commit_import_foldl_other by (by destruct lk).
      rewrite commit_import_db. simpl. apply find_pair_set_pair_eq.
    + by apply IH.
Qed.

Lemma commit_import_foldl_youngest seq l st :
  youngest_sequence (foldl (commit_import seq) st l).1 = youngest_sequence st.1.
Proof.
  revert st. induction l as [|[lk v] l IH]; intros [db buffers]; [done|].
  cbn [foldl]. rewrite IH, commit_import_db. simpl. apply youngest_sequence_set_pair.
Qed.

(** A commit that sets no error went through every check and imported the
    whole write set. *)
Lemma commit_success db txn reserve_ok db' txn' :
  ukv_txn_commit db txn reserve_ok = (db', txn', None) ->
  db' = (foldl (commit_import (txn_sequence_number txn)) (db, new_values txn)
           (map_to_list (new_values txn))).1.
Proof.
  unfold ukv_txn_commit.
  destruct (for_each_or_return (commit_check_requested db) _ _); [done|].
  destruct (for_each_or_return (commit_check_incoming db txn _) _ _); [done|].
  destruct reserve_ok; simpl; [|done].
  destruct (foldl _ _ _) as [d b]. by intros [= <- _].
Qed.

(** A commit that sets an error returned before the import. *)
Lemma commit_failure db txn reserve_ok db' txn' e :
  ukv_txn_commit db txn reserve_ok = (db', txn', Some e) -> db' = db /\ txn' = txn.
Proof.
  unfold ukv_txn_commit.
  destruct (for_each_or_return (commit_check_requested db) _ _); [by intros [= <- <- _]|].
  destruct (for_each_or_return (commit_check_incoming db txn _) _ _); [by intros [= <- <- _]|].
  destruct reserve_ok; simpl; [|by intros [= <- <- _]].
  by destruct (foldl _ _ _).
Qed.

Lemma commit_applied db txn reserve_ok db' txn' lk v :
  ukv_txn_commit db txn reserve_ok = (db', txn', None) ->
  new_values txn !! lk = Some v ->
  find_pair db' (collection_ptr lk) (key lk)
  = Some {| data := v; sequence_number := txn_sequence_number txn |}.
Proof.
  intros Hc Hv. rewrite (commit_success _ _ _ _ _ Hc).
  apply commit_import_foldl_applied.
  - apply NoDup_fst_map_to_list.
  - by apply elem_of_map_to_list.
Qed.

Lemma commit_untouched db txn reserve_ok db' txn' c k :
  ukv_txn_commit db txn reserve_ok = (db', txn', None) ->
  new_values txn !! {| collection_ptr := c; key := k |} = None ->
  find_pair db' c k = find_pair db c k.
Proof.
  intros Hc Hv. rewrite (commit_success _ _ _ _ _ Hc).
  rewrite commit_import_foldl_other; [done|].
  intros Hin. apply list_elem_of_fmap in Hin as ([lk v] & Heq & Hin).
  apply elem_of_map_to_list in Hin. simpl in Heq. subst lk. congruence.
Qed.

Lemma commit_youngest db txn reserve_ok db' txn' :
  ukv_txn_commit db txn reserve_ok = (db', txn', None) ->
  youngest_sequence db' = youngest_sequence db.
Proof.
  intros Hc. rewrite (commit_success _ _ _ _ _ Hc).
  by rewrite commit_import_foldl_youngest.
Qed.

(** C1, as stated, fails: a commit that succeeds leaves the youngest
    sequence where it was (1 before and after), and the entry it writes
    carries the start sequence of the transaction, not a fresh one. *)
Lemma commit_does_not_advance_youngest :
  (ukv_txn_commit run1_db run1_txn true).2 = None
  /\ youngest_sequence run1_db = 1
  /\ youngest_sequence (ukv_txn_commit run1_db run1_txn true).1.1 = 1
  /\ find_pair (ukv_txn_commit run1_db run1_txn true).1.1 None 34
     = Some {| data := bytes "v"; sequence_number := 1 |}.
Proof. repeat split; vm_compute; reflexivity. Qed.

(** C1, amended: a commit that succeeds stamps every entry it writes with
    the sequence number of the transaction (the one [ukv_txn_begin] gave
    it) and leaves the youngest sequence of the database unchanged,
    whatever the number of writes. *)
Theorem txn_commit_stamps_txn_sequence db txn reserve_ok db' txn' :
  ukv_txn_commit db txn reserve_ok = (db', txn', None) ->
  youngest_sequence db' = youngest_sequence db
  /\ forall lk v, new_values txn !! lk = Some v ->
       find_pair db' (collection_ptr lk) (key lk)
       = Some {| data := v; sequence_number := txn_sequence_number txn |}.
Proof.
  intros Hc. split.
  - by eapply commit_youngest.
  - intros lk v Hv. by eapply commit_applied.
Qed.

Lemma txn_commit_stamps_txn_sequence_witness :
  youngest_sequence (ukv_txn_commit run1_db run1_txn true).1.1 = youngest_sequence run1_db
  /\ find_pair (ukv_txn_commit run1_db run1_txn true).1.1 None 34
     = Some {| data := bytes "v"; sequence_number := txn_sequence_number run1_txn |}.
Proof.
  destruct (txn_commit_stamps_txn_sequence run1_db run1_txn true
              (ukv_txn_commit run1_db run1_txn true).1.1
              (ukv_txn_commit run1_db run1_txn true).1.2
              ltac:(vm_compute; reflexivity)) as [Hy Hw].
  split; [exact Hy|].
  exact (Hw {| collection_ptr := None; key := 34 |} (bytes "v") ltac:(vm_compute; reflexivity)).
Defined.

(** C3: a commit that reports an error, whichever it is, returns the
    database and the transaction as it got them; a commit that reports none
    has stored every buffered value and has touched no other entry. *)
Theorem txn_commit_all_or_nothing db txn reserve_ok db' txn' c_error :
  ukv_txn_commit db txn reserve_ok = (db', txn', c_error) ->
  (c_error <> None -> db' = db /\ txn' = txn)
  /\ (c_error = None ->
      (forall lk v, new_values txn !! lk = Some v ->
         find_pair db' (collection_ptr lk) (key lk)
         = Some {| data := v; sequence_number := txn_sequence_number txn |})
      /\ (forall c k, new_values txn !! {| collection_ptr := c; key := k |} = None ->
         find_pair db' c k = find_pair db c k)
      /\ youngest_sequence db' = youngest_sequence db).
Proof.
  intros Hc. split.
  - destruct c_error as [e|]; [|done]. intros _. by eapply commit_failure.
  - intros ->. split; [|split].
    + intros lk v Hv. by eapply commit_applied.
    + intros c k Hv. by eapply commit_untouched.
    + by eapply commit_youngest.
Qed.

Lemma txn_commit_all_or_nothing_witness :
  (ukv_txn_commit run2_db run1_txn true
   = (run2_db, run1_txn, Some "Incoming key collides with newer entry!"%string))
  /\ find_pair (ukv_txn_commit run1_db run1_txn true).1.1 None 34
     = Some {| data := bytes "v"; sequence_number := txn_sequence_number run1_txn |}.
Proof.
  split.
  - destruct (txn_commit_all_or_nothing run2_db run1_txn true
                (ukv_txn_commit run2_db run1_txn true).1.1
                (ukv_txn_commit run2_db run1_txn true).1.2
                (Some "Incoming key collides with newer entry!"%string)
                ltac:(vm_compute; reflexivity)) as [Hfail _].
    destruct (Hfail ltac:(discriminate)) as [Hdb Htxn].
    rewrite <- Hdb at 2. rewrite <- Htxn at 2. vm_compute. reflexivity.
  - destruct (txn_commit_all_or_nothing run1_db run1_txn true
                (ukv_txn_commit run1_db run1_txn true).1.1
                (ukv_txn_commit run1_db run1_txn true).1.2
                None ltac:(vm_compute; reflexivity)) as [_ Hok].
    destruct (Hok eq_refl) as (Hw & _ & _).
    exact (Hw {| collection_ptr := None; key := 34 |} (bytes "v") ltac:(vm_compute; reflexivity)).
Defined.

(** ** Writing and reading on HEAD *)

(** C4, on the code: a HEAD write has no way to delete.  The row that
    carries no value (a null value pointer, length 0) stores an empty
    value exactly as the row that carries an empty value does: the two
    writes give the same database, the key stays in its collection, and
    every later read returns the same for both.  On key 34 of [run4_db] the
    read after the valueless row finds the entry and reports length 0. *)
Theorem write_head_without_value_keeps_key allocate db (k : Z) c_collections c_options p arena :
  let deleted := _ukv_write_head db [k] 1 c_collections c_options [None] [0%N] in
  let emptied := _ukv_write_head db [k] 1 c_collections c_options [Some p] [0%N] in
  deleted = emptied
  /\ (exists seq, find_pair deleted (collection_at c_collections 0 c_options) k
                  = Some {| data := []; sequence_number := seq |})
  /\ _ukv_read_head allocate deleted [k] 1 c_collections c_options arena
     = _ukv_read_head allocate emptied [k] 1 c_collections c_options arena
  /\ find_pair run4_db None 34 = Some {| data := bytes "34______"; sequence_number := 1 |}
  /\ _ukv_read_head zero_block (_ukv_write_head run4_db [34] 1 None 0%N [None] [0%N])
       [34] 1 None 0%N empty_arena
     = inr {| out_arena := empty_arena; c_values_out := [arena_plus 0]; c_lengths_out := [0%N] |}.
Proof.
  intros deleted emptied.
  assert (Heq : deleted = emptied) by reflexivity.
  split; [exact Heq|]. split; [|split; [by rewrite Heq|split; vm_compute; reflexivity]].
  subst deleted. unfold _ukv_write_head, for_range. simpl.
  unfold write_head_body. simpl.
  destruct (find_pair db _ k); simpl; eexists; apply find_pair_set_pair_eq.
Qed.

(** ** Reading inside a transaction *)

(** C7, on the code: a read inside a transaction leaves the transaction as
    it was, whatever the options, so nothing enters the read set.  In the
    run [run3_read] the read of key 1 succeeds and the read set stays
    empty; after HEAD has overwritten key 1 the commit finds nothing to
    re-check and reports no error. *)
Theorem read_txn_records_nothing :
  (forall allocate txn db c_keys c_keys_count c_collections c_options c_arena,
     (_ukv_read_txn allocate txn db c_keys c_keys_count c_collections c_options c_arena).1 = txn)
  /\ requested_keys run3_read.1 = ∅
  /\ run3_read.2
     = inr {| out_arena := {| arena_length := 3; arena_bytes := bytes "old" |};
              c_values_out := [arena_plus 0]; c_lengths_out := [3%N] |}
  /\ find_pair run3_db1 None 1 = Some {| data := bytes "old"; sequence_number := 1 |}
  /\ find_pair run3_db2 None 1 = Some {| data := bytes "new"; sequence_number := 3 |}
  /\ ukv_txn_commit run3_db2 run3_read.1 true = (run3_db2, run3_read.1, None).
Proof.
  split.
  - intros. unfold _ukv_read_txn.
    destruct (for_each_or_return _ _ _); [done|].
    destruct (if (_ <=? _)%N then _ else _); [done|].
    by destruct (for_range _ _ _) as [[[? ?] ?] ?].
  - repeat split; vm_compute; reflexivity.
Qed.

(** * Properties of the paths modality *)

Lemma for_range_invariant {S : Type} (P : S -> Prop) count (body : nat -> S -> S) s :
  P s -> (forall i s', P s' -> P (body i s')) -> P (for_range count body s).
Proof.
  intros Hs Hbody. unfold for_range.
  generalize (seq 0 count). intros l. revert s Hs.
  induction l as [|i l IH]; intros s Hs; simpl; [done|].
  apply IH. by apply Hbody.
Qed.

(** ** The offsets of [ukv_paths_read] *)

Lemma store_cell_shape which i v buffer oob :
  length (cells (store_cell which i v buffer oob).1) = length (cells buffer)
  /\ stride (store_cell which i v buffer oob).1 = stride buffer.
Proof.
  unfold store_cell. case_match; simpl; [|done].
  by rewrite length_insert.
Qed.

Lemma paths_read_body_offsets missing ps offs cv i st :
  length (cells (offsets (paths_read_body missing ps offs cv i st)))
  = length (cells (offsets st))
  /\ stride (offsets (paths_read_body missing ps offs cv i st)) = stride (offsets st).
Proof.
  unfold paths_read_body.
  destruct (value_view _) as [val|].
  - destruct (store_cell presences_buffer _ _ _ _) as [p1 o1].
    pose proof (store_cell_shape offsets_buffer (N.of_nat i) (exported_volume st)
                  (offsets st) o1) as Hs.
    destruct (store_cell offsets_buffer _ _ _ _) as [f1 o2].
    destruct (store_cell lengths_buffer _ _ _ _) as [l1 o3]. exact Hs.
  - destruct (store_cell presences_buffer _ _ _ _) as [p1 o1].
    pose proof (store_cell_shape offsets_buffer (N.of_nat i) (exported_volume st)
                  (offsets st) o1) as Hs.
    destruct (store_cell offsets_buffer _ _ _ _) as [f1 o2].
    destruct (store_cell lengths_buffer _ _ _ _) as [l1 o3]. exact Hs.
Qed.

(** C9, on the code: when the caller asks for the offsets, the buffer
    allocated for them has N cells, and the store of the final offset goes
    to index N, outside of it, on every call.  With two tasks the stores
    into the buffer write the offsets 0 and 1, and the tape length 2 is the
    value stored out of bounds. *)
Theorem paths_read_final_offset_out_of_bounds hash missing main db (n : nat) collections names
    c_presences c_lengths c_values :
  let r := ukv_paths_read hash missing main db n collections names
             c_presences true c_lengths c_values in
  cells (alloc_or_dummy (N.of_nat n) true) = replicate n 0%N
  /\ length (cells (offsets r)) = n
  /\ (offsets_buffer, N.of_nat n) ∈ out_of_bounds r
  /\ cells (offsets (ukv_paths_read length_hash length_missing 0%Z two_buckets_db 2 None
                       [bytes "home/a"; bytes "home/bb"] false true false true))
     = [0%N; 1%N]
  /\ exported_volume (ukv_paths_read length_hash length_missing 0%Z two_buckets_db 2 None
                        [bytes "home/a"; bytes "home/bb"] false true false true) = 2%N.
Proof.
  intros r. split; [|split; [|split; [|split; vm_compute; reflexivity]]].
  - simpl. by rewrite Nat2N.id.
  - subst r. unfold ukv_paths_read.
    destruct (ukv_read_tape _ _) as [boffs tape].
    set (st := for_range _ _ _).
    assert (Hinv : length (cells (offsets st)) = n /\ stride (offsets st) = 1%N).
    { subst st. apply (for_range_invariant
        (fun st => length (cells (offsets st)) = n /\ stride (offsets st) = 1%N)).
      - simpl. by rewrite length_replicate, Nat2N.id.
      - intros i s' [Hl Hs].
        destruct (paths_read_body_offsets missing names boffs c_values i s') as [-> ->].
        done. }
    destruct Hinv as [Hl Hs].
    pose proof (store_cell_shape offsets_buffer (N.of_nat n) (exported_volume st)
                  (offsets st) (out_of_bounds st)) as [Hl' _].
    destruct (store_cell offsets_buffer _ _ _ _) as [f1 o1]. simpl in *. congruence.
  - subst r. unfold ukv_paths_read.
    destruct (ukv_read_tape _ _) as [boffs tape].
    set (st := for_range _ _ _).
    assert (Hinv : length (cells (offsets st)) = n /\ stride (offsets st) = 1%N).
    { subst st. apply (for_range_invariant
        (fun st => length (cells (offsets st)) = n /\ stride (offsets st) = 1%N)).
      - simpl. by rewrite length_replicate, Nat2N.id.
      - intros i s' [Hl Hs].
        destruct (paths_read_body_offsets missing names boffs c_values i s') as [-> ->].
        done. }
    destruct Hinv as [Hl Hs].
    unfold store_cell. rewrite Hs, Hl, N.mul_1_r, Nat2N.id.
    rewrite Nat.ltb_irrefl. simpl. apply elem_of_app. right. apply list_elem_of_singleton.
    done.
Qed.

(** ** Matching paths by prefix *)

Lemma ukv_scan_length unknown db collection min_key max_count :
  (length (ukv_scan unknown db collection min_key max_count)
   <= length (collection_keys db collection))%nat.
Proof.
  unfold ukv_scan. rewrite length_take.
  etransitivity; [apply Nat.le_min_r|].
  case_decide.
  - by rewrite merge_sort_Permutation.
  - etransitivity; [apply length_filter|]. by rewrite merge_sort_Permutation.
Qed.

Lemma scan_rounds_unchanged hash unknown db collection prefix max_count st :
  (max_count <=? found_paths st)%N = false ->
  (let previous_key := if bool_decide (previous st = []) then hash (previous st) else unknown in
   let found_buckets_keys := ukv_scan unknown db collection previous_key max_count in
   let '(found_buckets_offsets, found_buckets_data) :=
     ukv_read_tape db (map (fun k => (collection, k)) found_buckets_keys) in
   (1 <? length found_buckets_keys)%nat = true
   /\ for_range (length found_buckets_keys)
        (fun i acc =>
           let bucket := joined_bin found_buckets_offsets found_buckets_data i in
           for_each_in_bucket bucket (scan_member (bucket_bytes bucket) prefix max_count) acc)
        st = st) ->
  forall fuel, scan_rounds hash unknown fuel db collection prefix max_count st = None.
Proof.
  intros Hmax Hround fuel. induction fuel as [|fuel IH]; simpl; rewrite Hmax; [done|].
  simpl in Hround.
  destruct (ukv_read_tape _ _) as [boffs bdata]. destruct Hround as [Hcount Hsame].
  apply Nat.ltb_lt in Hcount.
  destruct (Nat.leb_spec (length (ukv_scan unknown db collection
              (if bool_decide (previous st = []) then hash (previous st) else unknown)
              max_count)) 1); [lia|].
  by rewrite Hsame.
Qed.

(** C8, on the code: a collection that holds a single bucket is never
    scanned, for the loop stops as soon as the scan returns at most one
    bucket key; whatever the hash, the prefix, the previous name and the
    limit, no name is exported.  The collection [one_bucket_db] holds
    "home/a" and the task (prefix "home/", no previous name, limit 10)
    gets count 0.  On [two_buckets_db] the rounds after the first start
    again from the smallest key, so the two names are exported again and
    again until the limit is reached; and with a prefix no name has, the
    loop has no end. *)
Theorem scan_ignores_single_bucket :
  (forall hash unknown fuel db collection prefix previous_name max_count,
     (length (collection_keys db collection) <= 1)%nat ->
     scan_one_collection_one_range hash unknown (S fuel) db collection prefix previous_name
       max_count
     = Some (0%N, []))
  /\ collection_keys one_bucket_db 0 = [6]
  /\ bucket_read (one_bucket_db !! (0, 6)) (bytes "home/a") = Some (bytes "A")
  /\ starts_with (bytes "home/a") (bytes "home/") = true
  /\ ukv_paths_match length_hash key_unknown 1 one_bucket_db
       [{| task_collection := 0; task_prefix := bytes "home/"; task_previous := [];
           task_max_count := 10 |}] [7%N]
     = Some ([0%N], [])
  /\ scan_one_collection_one_range length_hash key_unknown 4 two_buckets_db 0
       (bytes "home/") [] 5
     = Some (5%N, [bytes "home/a"; bytes "home/bb"; bytes "home/a"; bytes "home/bb";
                   bytes "home/a"])
  /\ (forall rounds, scan_one_collection_one_range length_hash key_unknown rounds
                       two_buckets_db 0 (bytes "lab/") [] 5 = None).
Proof.
  split; [|split; [|split; [|split; [|split; [|split]]]]]; try (vm_compute; reflexivity).
  - intros hash unknown fuel db collection prefix previous_name max_count Hone.
    unfold scan_one_collection_one_range. cbn [scan_rounds found_paths].
    destruct (max_count <=? 0)%N; [done|].
    pose proof (ukv_scan_length unknown db collection
      (if bool_decide (previous_name = []) then hash previous_name else unknown)
      max_count) as Hlen.
    cbn [previous].
    destruct (Nat.leb_spec (length (ukv_scan unknown db collection
      (if bool_decide (previous_name = []) then hash previous_name else unknown)
      max_count)) 1);
      [done|lia].
  - intros rounds. unfold scan_one_collection_one_range.
    rewrite scan_rounds_unchanged; [done|done|].
    vm_compute. done.
Qed.

Lemma scan_ignores_single_bucket_witness :
  (length (collection_keys one_bucket_db 0) <= 1)%nat
  /\ scan_one_collection_one_range length_hash key_unknown 1 one_bucket_db 0
       (bytes "home/") [] 10 = Some (0%N, []).
Proof.
  assert (Hone : (length (collection_keys one_bucket_db 0) <= 1)%nat)
    by (vm_compute; lia).
  split; [exact Hone|].
  exact (proj1 scan_ignores_single_bucket length_hash key_unknown 0%nat one_bucket_db 0
           (bytes "home/") [] 10%N Hone).
Defined.

(** ** Upserting into a bucket *)

Local Open Scope N_scope.

(** The walk of [for_each_in_bucket] through a bucket whose counter is 3,
    whatever its other bytes, in terms of the six lengths it holds. *)
Lemma for_each_in_bucket_three {S : Type} mem (cb : bucket_member_t -> S -> S) s :
  get_bucket_size (Some mem) = 3 ->
  let k0 := load_length mem 4 in
  let k1 := load_length mem 8 in
  let k2 := load_length mem 12 in
  let v0 := load_length mem 16 in
  let v1 := load_length mem 20 in
  let v2 := load_length mem 24 in
  for_each_in_bucket (Some mem) cb s
  = cb {| idx := 2; key_view := {| v_begin := 28 + k0 + k1; v_size := k2 |};
          value_view := Some {| v_begin := 28 + (0 + k0 + k1 + k2) + v0 + v1; v_size := v2 |} |}
      (cb {| idx := 1; key_view := {| v_begin := 28 + k0; v_size := k1 |};
             value_view := Some {| v_begin := 28 + (0 + k0 + k1 + k2) + v0; v_size := v1 |} |}
         (cb {| idx := 0; key_view := {| v_begin := 28; v_size := k0 |};
                value_view := Some {| v_begin := 28 + (0 + k0 + k1 + k2); v_size := v0 |} |}
            s)).
Proof.
  intros Hsize. unfold for_each_in_bucket. rewrite Hsize. reflexivity.
Qed.

(** Whatever the allocated block holds, the lengths of the overwritten
    member keep the bytes of the block. *)
Lemma upsert_three_members_any_block block :
  length block = 37%nat ->
  upsert_in_bucket (fun _ => Some block) (Some three_members) (bytes "a") (bytes "9")
  = Some (Some (three_members_upserted_in (take 4 (drop 4 block)) (take 4 (drop 16 block)))).
Proof.
  intros Hlen.
  do 37 (destruct block as [|? block]; [discriminate Hlen|]).
  destruct block; [|discriminate Hlen].
  vm_compute. reflexivity.
Qed.

(** Whatever those bytes are, "a" and "bb" do not both read as they should:
    the names lie in memory as "bbccca" under the key lengths g, 2, 1, and
    no g makes both "a" and "bb" one of the three keys. *)
Lemma upserted_reads_fail c0 c1 :
  length c0 = 4%nat -> length c1 = 4%nat ->
  ~ (bucket_read (Some (three_members_upserted_in c0 c1)) (bytes "a") = Some (bytes "9")
     /\ bucket_read (Some (three_members_upserted_in c0 c1)) (bytes "bb") = Some (bytes "2")).
Proof.
  intros H0 H1.
  do 4 (destruct c0 as [|? c0]; [discriminate H0|]). destruct c0; [|discriminate H0].
  do 4 (destruct c1 as [|? c1]; [discriminate H1|]). destruct c1; [|discriminate H1].
  unfold bucket_read, find_in_bucket.
  rewrite !for_each_in_bucket_three by reflexivity.
  cbv zeta.
  match goal with |- context [load_length ?m 4] => generalize (load_length m 4) end.
  intros g.
  match goal with |- context [load_length ?m 16] => generalize (load_length m 16) end.
  intros g'.
  unfold view_bytes. cbn [key_view v_begin v_size].
  rewrite !N2Nat.inj_add.
  remember (N.to_nat g) as n eqn:Hn. clear Hn.
  intros [Ha Hbb].
  do 10 (destruct n as [|n];
         [vm_compute in Ha; vm_compute in Hbb; (discriminate Ha || discriminate Hbb)|]).
  vm_compute in Ha. discriminate Ha.
Qed.

(** C5, on the code: overwriting a member that is not the last one of its
    bucket.  The copy loop writes the lengths of the members it keeps at
    their old index and the lengths of the new member at the last index, so
    the counters at the index of the overwritten member are never written
    (they keep what the allocated memory held) and those of the last kept
    member are overwritten.  On the bucket of "a", "bb", "ccc", giving "a"
    the value "9" yields, whatever the allocated memory held, a bucket from
    which "a" and "bb" do not both read as "9" and "2"; in zero-filled
    memory "a" is absent from it and "bb" reads as "c". *)
Theorem upsert_of_earlier_member_breaks_bucket :
  (forall block : list byte, length block = 37%nat ->
     exists m,
       upsert_in_bucket (fun _ => Some block) (Some three_members) (bytes "a") (bytes "9")
       = Some (Some m)
       /\ load_length m 4 = load_length block 4
       /\ load_length m 16 = load_length block 16
       /\ ~ (bucket_read (Some m) (bytes "a") = Some (bytes "9")
             /\ bucket_read (Some m) (bytes "bb") = Some (bytes "2")))
  /\ well_formed_bucket (Some three_members)
       [(bytes "a", bytes "1"); (bytes "bb", bytes "2"); (bytes "ccc", bytes "3")]
  /\ bucket_read (Some three_members) (bytes "a") = Some (bytes "1")
  /\ bucket_read (Some three_members) (bytes "bb") = Some (bytes "2")
  /\ bucket_read (Some three_members) (bytes "ccc") = Some (bytes "3")
  /\ upsert_in_bucket zero_block (Some three_members) (bytes "a") (bytes "9")
     = Some (Some three_members_upserted)
  /\ get_bucket_size (Some three_members_upserted) = 3
  /\ bucket_read (Some three_members_upserted) (bytes "a") = None
  /\ bucket_read (Some three_members_upserted) (bytes "bb") = Some (bytes "c")
  /\ bucket_read (Some three_members_upserted) (bytes "ccc") = None.
Proof.
  split; [|split; [|repeat split; vm_compute; reflexivity]].
  - intros block Hlen. eexists. split; [by apply upsert_three_members_any_block|].
    split; [|split].
    + do 37 (destruct block as [|? block]; [discriminate Hlen|]).
      destruct block; [|discriminate Hlen]. vm_compute. reflexivity.
    + do 37 (destruct block as [|? block]; [discriminate Hlen|]).
      destruct block; [|discriminate Hlen]. vm_compute. reflexivity.
    + apply upserted_reads_fail.
      * rewrite length_take, length_drop. lia.
      * rewrite length_take, length_drop. lia.
  - apply encoded_bucket. split.
    + apply (bool_decide_unpack _). vm_compute. exact I.
    + vm_compute. reflexivity.
Qed.

Lemma upsert_of_earlier_member_breaks_bucket_witness :
  exists m,
    upsert_in_bucket zero_block (Some three_members) (bytes "a") (bytes "9") = Some (Some m)
    /\ load_length m 4 = 0 /\ load_length m 16 = 0
    /\ ~ (bucket_read (Some m) (bytes "a") = Some (bytes "9")
          /\ bucket_read (Some m) (bytes "bb") = Some (bytes "2")).
Proof.
  destruct upsert_of_earlier_member_breaks_bucket as [Hany _].
  destruct (Hany (replicate 37 x00) eq_refl) as (m & Hm & H4 & H16 & Hreads).
  exists m. split; [exact Hm|]. split; [rewrite H4; reflexivity|].
  split; [rewrite H16; reflexivity|exact Hreads].
Defined.

(** ** Removing from a bucket *)

Local Open Scope N_scope.

(** *** Counters in memory *)

Lemma byte_to_N_of_N n : Byte.to_N (byte_of_N n) = n mod 256.
Proof.
  unfold byte_of_N.
  destruct (Byte.of_N (n mod 256)) as [b|] eqn:Hb; simpl.
  - by apply Byte.to_of_N.
  - apply Byte.of_N_None_iff in Hb.
    pose proof (N.mod_upper_bound n 256 ltac:(lia)). lia.
Qed.

Lemma le_value_le_bytes n : n < 2 ^ 32 -> le_value (le_bytes n) = n.
Proof.
  intros Hn. unfold le_bytes. cbn [le_value]. rewrite !byte_to_N_of_N.
  change (2 ^ 32) with 4294967296 in Hn.
  replace (n / 65536) with (n / 256 / 256) by (rewrite N.Div0.div_div; reflexivity).
  replace (n / 16777216) with (n / 256 / 256 / 256)
    by (rewrite !N.Div0.div_div; reflexivity).
  pose proof (N.Div0.div_mod n 256) as Hd0.
  pose proof (N.Div0.div_mod (n / 256) 256) as Hd1.
  pose proof (N.Div0.div_mod (n / 256 / 256) 256) as Hd2.
  pose proof (N.mod_upper_bound n 256 ltac:(lia)).
  pose proof (N.mod_upper_bound (n / 256) 256 ltac:(lia)).
  pose proof (N.mod_upper_bound (n / 256 / 256) 256 ltac:(lia)).
  assert (n / 256 / 256 / 256 < 256) as Hd3.
  { apply N.Div0.div_lt_upper_bound. apply N.Div0.div_lt_upper_bound.
    apply N.Div0.div_lt_upper_bound. lia. }
  rewrite (N.mod_small _ _ Hd3).
  lia.
Qed.

Lemma length_le_bytes n : length (le_bytes n) = 4%nat.
Proof. done. Qed.

Lemma load_length_at pre n post o :
  n < 2 ^ 32 -> o = N.of_nat (length pre) ->
  load_length (pre ++ le_bytes n ++ post) o = n.
Proof.
  intros Hn ->. unfold load_length.
  rewrite Nat2N.id, drop_app_length.
  change (take 4 (le_bytes n ++ post)) with (le_bytes n).
  by apply le_value_le_bytes.
Qed.

Lemma view_bytes_at pre x post v :
  v_begin v = N.of_nat (length pre) -> v_size v = N.of_nat (length x) ->
  view_bytes (pre ++ x ++ post) v = x.
Proof.
  intros Hb Hs. unfold view_bytes. rewrite Hb, Hs, !Nat2N.id.
  by rewrite drop_app_length, take_app_length.
Qed.

(** [remove_part] cuts the part out of the view. *)
Lemma remove_part_at pre x post part :
  v_begin part = N.of_nat (length pre) -> v_size part = N.of_nat (length x) ->
  remove_part (pre ++ x ++ post) part = pre ++ post.
Proof.
  intros Hb Hs. unfold remove_part, memmove. rewrite Hb, Hs.
  rewrite !length_app.
  replace (N.to_nat (N.of_nat (length pre) + N.of_nat (length x)))
    with (length pre + length x)%nat by lia.
  rewrite Nat2N.id.
  replace (N.to_nat (N.of_nat (length pre + (length x + length post)) - N.of_nat (length x)))
    with (length pre + length post)%nat by lia.
  rewrite take_app_length.
  rewrite drop_app_ge by lia.
  replace (length pre + length x - length pre)%nat with (length x) by lia.
  rewrite drop_app_length.
  rewrite (take_ge post) by lia.
  rewrite app_assoc.
  rewrite take_app_le by (rewrite length_app; lia).
  rewrite take_ge by (rewrite length_app; lia). done.
Qed.

Lemma store_length_head n n' rest :
  store_length (le_bytes n ++ rest) 0 n' = le_bytes n' ++ rest.
Proof. done. Qed.

(** *** The layout of a bucket, piece by piece *)

Lemma key_lengths_app a b : key_lengths (a ++ b) = key_lengths a ++ key_lengths b.
Proof. unfold key_lengths. by rewrite map_app, concat_app. Qed.
Lemma value_lengths_app a b : value_lengths (a ++ b) = value_lengths a ++ value_lengths b.
Proof. unfold value_lengths. by rewrite map_app, concat_app. Qed.
Lemma keys_of_app a b : keys_of (a ++ b) = keys_of a ++ keys_of b.
Proof. unfold keys_of. by rewrite map_app, concat_app. Qed.
Lemma values_of_app a b : values_of (a ++ b) = values_of a ++ values_of b.
Proof. unfold values_of. by rewrite map_app, concat_app. Qed.

Lemma length_key_lengths ms : length (key_lengths ms) = (4 * length ms)%nat.
Proof. induction ms as [|m ms IH]; [done|]. cbn. unfold key_lengths in IH. lia. Qed.
Lemma length_value_lengths ms : length (value_lengths ms) = (4 * length ms)%nat.
Proof. induction ms as [|m ms IH]; [done|]. cbn. unfold value_lengths in IH. lia. Qed.

Lemma length_encode_bucket ms :
  length (encode_bucket ms)
  = (4 + 8 * length ms + length (keys_of ms) + length (values_of ms))%nat.
Proof.
  unfold encode_bucket.
  rewrite !length_app, length_key_lengths, length_value_lengths, length_le_bytes. lia.
Qed.

Lemma length_keys_of_split ms1 k v ms2 :
  length (keys_of (ms1 ++ (k, v) :: ms2))
  = (length (keys_of ms1) + length k + length (keys_of ms2))%nat.
Proof. rewrite keys_of_app, length_app. cbn. rewrite length_app. unfold keys_of. lia. Qed.

Lemma length_values_of_split ms1 k v ms2 :
  length (values_of (ms1 ++ (k, v) :: ms2))
  = (length (values_of ms1) + length v + length (values_of ms2))%nat.
Proof. rewrite values_of_app, length_app. cbn. rewrite length_app. unfold values_of. lia. Qed.

Section Layout.
Context (ms ms1 ms2 : list (list byte * list byte)) (k v : list byte).
Hypothesis Hms : ms = ms1 ++ (k, v) :: ms2.
Hypothesis Hfit : N.of_nat (length (encode_bucket ms)) < 2 ^ 32.

Lemma encode_key_length_at :
  encode_bucket ms
  = (le_bytes (N.of_nat (length ms)) ++ key_lengths ms1)
    ++ le_bytes (N.of_nat (length k))
    ++ (key_lengths ms2 ++ value_lengths ms ++ keys_of ms ++ values_of ms).
Proof.
  unfold encode_bucket. rewrite Hms at 2. rewrite key_lengths_app.
  change (key_lengths ((k, v) :: ms2)) with (le_bytes (N.of_nat (length k)) ++ key_lengths ms2).
  by rewrite <- !app_assoc.
Qed.

Lemma encode_value_length_at :
  encode_bucket ms
  = (le_bytes (N.of_nat (length ms)) ++ key_lengths ms ++ value_lengths ms1)
    ++ le_bytes (N.of_nat (length v))
    ++ (value_lengths ms2 ++ keys_of ms ++ values_of ms).
Proof.
  unfold encode_bucket. rewrite Hms at 3. rewrite value_lengths_app.
  change (value_lengths ((k, v) :: ms2))
    with (le_bytes (N.of_nat (length v)) ++ value_lengths ms2).
  by rewrite <- !app_assoc.
Qed.

Lemma encode_key_at :
  encode_bucket ms
  = (le_bytes (N.of_nat (length ms)) ++ key_lengths ms ++ value_lengths ms ++ keys_of ms1)
    ++ k ++ (keys_of ms2 ++ values_of ms).
Proof.
  unfold encode_bucket. rewrite Hms at 4. rewrite keys_of_app.
  change (keys_of ((k, v) :: ms2)) with (k ++ keys_of ms2).
  by rewrite <- !app_assoc.
Qed.

Lemma encode_value_at :
  encode_bucket ms
  = (le_bytes (N.of_nat (length ms)) ++ key_lengths ms ++ value_lengths ms ++ keys_of ms
       ++ values_of ms1)
    ++ v ++ values_of ms2.
Proof.
  unfold encode_bucket. rewrite Hms at 5. rewrite values_of_app.
  change (values_of ((k, v) :: ms2)) with (v ++ values_of ms2).
  by rewrite <- !app_assoc.
Qed.

Lemma member_fits :
  N.of_nat (length k) < 2 ^ 32 /\ N.of_nat (length v) < 2 ^ 32
  /\ N.of_nat (length ms) * 8 + 4 < 2 ^ 32.
Proof.
  rewrite length_encode_bucket in Hfit.
  pose proof (length_keys_of_split ms1 k v ms2) as Hk.
  pose proof (length_values_of_split ms1 k v ms2) as Hv.
  rewrite <- Hms in Hk, Hv. lia.
Qed.

Lemma load_key_length o :
  o = 4 * (1 + N.of_nat (length ms1)) ->
  load_length (encode_bucket ms) o = N.of_nat (length k).
Proof.
  intros ->. rewrite encode_key_length_at. apply load_length_at.
  - apply member_fits.
  - rewrite length_app, length_key_lengths, length_le_bytes. lia.
Qed.

Lemma load_value_length o :
  o = 4 * (1 + N.of_nat (length ms) + N.of_nat (length ms1)) ->
  load_length (encode_bucket ms) o = N.of_nat (length v).
Proof.
  intros ->. rewrite encode_value_length_at. apply load_length_at.
  - apply member_fits.
  - rewrite !length_app, length_key_lengths, length_value_lengths, length_le_bytes. lia.
Qed.

End Layout.

(** *** Walking a well-formed bucket *)

(** The loop of [for_each_in_bucket] meets the members of the layout, each
    with the views the two iterators have reached. *)
Lemma for_each_in_bucket_loop_encode {S : Type} ms (cb : bucket_member_t -> S -> S) :
  N.of_nat (length (encode_bucket ms)) < 2 ^ 32 ->
  forall rest ms1 s kit vit,
    ms = ms1 ++ rest ->
    it_lengths kit = 4 * (1 + N.of_nat (length ms1)) ->
    it_lengths vit = 4 * (1 + N.of_nat (length ms) + N.of_nat (length ms1)) ->
    for_each_in_bucket_loop (encode_bucket ms) cb (length rest) (N.of_nat (length ms1)) kit vit s
    = foldl (fun acc m => cb m acc) s
        (members_from (N.of_nat (length ms1)) (it_contents kit) (it_contents vit) rest).
Proof.
  intros Hfit rest. induction rest as [|[k v] rest IH]; intros ms1 s kit vit Hms Hk Hv; [done|].
  cbn [length for_each_in_bucket_loop members_from foldl fst snd].
  unfold it_deref, it_next.
  rewrite (load_key_length ms ms1 rest k v Hms Hfit _ Hk).
  rewrite (load_value_length ms ms1 rest k v Hms Hfit _ Hv).
  specialize (IH (ms1 ++ [(k, v)]) (cb
       {| idx := N.of_nat (length ms1);
          key_view := {| v_begin := it_contents kit; v_size := N.of_nat (length k) |};
          value_view := Some {| v_begin := it_contents vit; v_size := N.of_nat (length v) |} |} s)
     {| it_lengths := it_lengths kit + counter_size_k;
        it_contents := it_contents kit + N.of_nat (length k) |}
     {| it_lengths := it_lengths vit + counter_size_k;
        it_contents := it_contents vit + N.of_nat (length v) |}).
  rewrite length_app in IH. cbn [length] in IH.
  replace (N.of_nat (length ms1 + 1)) with (N.of_nat (length ms1) + 1) in IH by lia.
  apply IH.
  - by rewrite <- app_assoc.
  - cbn. unfold counter_size_k. lia.
  - cbn. unfold counter_size_k. lia.
Qed.

Lemma accumulate_keys ms :
  N.of_nat (length (encode_bucket ms)) < 2 ^ 32 ->
  accumulate (encode_bucket ms) 1 (N.of_nat (length ms)) = N.of_nat (length (keys_of ms)).
Proof.
  intros Hfit. unfold accumulate, for_range. rewrite Nat2N.id. cbv beta.
  assert (Hgen : forall rest ms1 acc, ms = ms1 ++ rest ->
    foldl (fun acc j => acc + load_length (encode_bucket ms)
                                (counter_size_k * (1 + N.of_nat j))) acc
      (seq (length ms1) (length rest))
    = acc + N.of_nat (length (keys_of rest))).
  { induction rest as [|[k v] rest IH]; intros ms1 acc Hms.
    - cbn. lia.
    - cbn [length seq foldl].
      rewrite (load_key_length ms ms1 rest k v Hms Hfit) by done.
      specialize (IH (ms1 ++ [(k, v)]) (acc + N.of_nat (length k))).
      rewrite length_app in IH. cbn [length] in IH.
      replace (length ms1 + 1)%nat with (Datatypes.S (length ms1)) in IH by lia.
      rewrite IH by (by rewrite <- app_assoc).
      change (keys_of ((k, v) :: rest)) with (k ++ keys_of rest).
      rewrite length_app. lia. }
  change (seq 0 (length ms)) with (seq (length (@nil (list byte * list byte))) (length ms)).
  rewrite (Hgen ms [] 0 eq_refl). lia.
Qed.

Lemma get_bucket_size_encode ms :
  N.of_nat (length (encode_bucket ms)) < 2 ^ 32 ->
  get_bucket_size (Some (encode_bucket ms)) = N.of_nat (length ms).
Proof.
  intros Hfit. unfold get_bucket_size.
  change (bucket_bytes (Some (encode_bucket ms))) with (encode_bucket ms).
  pose proof (length_encode_bucket ms) as Hlen.
  destruct ms as [|m ms]; [done|].
  destruct (N.ltb_spec bytes_in_header_k (N.of_nat (length (encode_bucket (m :: ms)))));
    [|unfold bytes_in_header_k, counter_size_k in *; cbn [length] in *; lia].
  unfold encode_bucket.
  apply (load_length_at []); [|done].
  cbn [length] in *. lia.
Qed.

Lemma for_each_in_bucket_encode {S : Type} ms (cb : bucket_member_t -> S -> S) s :
  N.of_nat (length (encode_bucket ms)) < 2 ^ 32 ->
  for_each_in_bucket (Some (encode_bucket ms)) cb s
  = foldl (fun acc m => cb m acc) s (members_from 0 (keys_offset ms) (values_offset ms) ms).
Proof.
  intros Hfit. unfold for_each_in_bucket.
  rewrite get_bucket_size_encode by done.
  destruct (N.eqb_spec (N.of_nat (length ms)) 0) as [Hz|Hnz].
  - destruct ms; [done|]. cbn [length] in Hz. lia.
  - rewrite Nat2N.id.
    change (bucket_bytes (Some (encode_bucket ms))) with (encode_bucket ms).
    rewrite (for_each_in_bucket_loop_encode ms cb Hfit ms [] s); try done.
    + cbn [get_bucket_keys get_bucket_vals it_contents].
      rewrite accumulate_keys by done.
      unfold wrap32. rewrite N.mod_small.
      * unfold keys_offset, values_offset, bytes_in_header_k, counter_size_k.
        cbn [length]. change (N.of_nat 0) with 0.
        by replace (4 + N.of_nat (length ms) * 2 * 4) with (4 + 8 * N.of_nat (length ms)) by lia.
      * rewrite length_encode_bucket in Hfit. lia.
    + cbn. unfold counter_size_k. lia.
Qed.

(** *** Finding a name in a well-formed bucket *)

Lemma key_view_bytes ms ms1 ms2 k v view :
  ms = ms1 ++ (k, v) :: ms2 ->
  v_begin view = keys_offset ms + N.of_nat (length (keys_of ms1)) ->
  v_size view = N.of_nat (length k) ->
  view_bytes (encode_bucket ms) view = k.
Proof.
  intros Hms Hb Hs. rewrite (encode_key_at ms ms1 ms2 k v Hms).
  apply view_bytes_at; [|done].
  rewrite Hb, !length_app, length_key_lengths, length_value_lengths, length_le_bytes.
  unfold keys_offset. lia.
Qed.

Lemma value_view_bytes ms ms1 ms2 k v view :
  ms = ms1 ++ (k, v) :: ms2 ->
  v_begin view = values_offset ms + N.of_nat (length (values_of ms1)) ->
  v_size view = N.of_nat (length v) ->
  view_bytes (encode_bucket ms) view = v.
Proof.
  intros Hms Hb Hs. rewrite (encode_value_at ms ms1 ms2 k v Hms).
  apply view_bytes_at; [|done].
  rewrite Hb, !length_app, length_key_lengths, length_value_lengths, length_le_bytes.
  unfold values_offset. lia.
Qed.

Lemma find_in_members_missing ms n :
  forall rest ms1 result koff voff,
    ms = ms1 ++ rest ->
    n ∉ rest.*1 ->
    koff = keys_offset ms + N.of_nat (length (keys_of ms1)) ->
    foldl (keep_match (encode_bucket ms) n) result
      (members_from (N.of_nat (length ms1)) koff voff rest) = result.
Proof.
  induction rest as [|[k v] rest IH]; intros ms1 result koff voff Hms Hnot Hk; [done|].
  cbn [members_from foldl fst snd].
  cbn in Hnot. apply not_elem_of_cons in Hnot as [Hne Hnot].
  unfold keep_match at 2. cbn [key_view].
  rewrite (key_view_bytes ms ms1 rest k v) by done.
  rewrite decide_False by done.
  replace (N.of_nat (length ms1) + 1) with (N.of_nat (length (ms1 ++ [(k, v)])))
    by (rewrite length_app; cbn; lia).
  apply IH; [by rewrite <- app_assoc|done|].
  rewrite keys_of_app, length_app. cbn. rewrite length_app. cbn. lia.
Qed.

Lemma find_in_members_found ms n v :
  forall r1 r2 ms1 result koff voff,
    ms = ms1 ++ r1 ++ (n, v) :: r2 ->
    NoDup (r1 ++ (n, v) :: r2).*1 ->
    koff = keys_offset ms + N.of_nat (length (keys_of ms1)) ->
    foldl (keep_match (encode_bucket ms) n) result
      (members_from (N.of_nat (length ms1)) koff voff (r1 ++ (n, v) :: r2))
    = {| idx := N.of_nat (length (ms1 ++ r1));
         key_view := {| v_begin := koff + N.of_nat (length (keys_of r1));
                        v_size := N.of_nat (length n) |};
         value_view := Some {| v_begin := voff + N.of_nat (length (values_of r1));
                               v_size := N.of_nat (length v) |} |}.
Proof.
  induction r1 as [|[k' v'] r1 IH]; intros r2 ms1 result koff voff Hms Hnd Hk.
  - cbn [app members_from foldl fst snd].
    cbn in Hnd. apply NoDup_cons in Hnd as [Hnot Hnd].
    unfold keep_match at 2. cbn [key_view].
    rewrite (key_view_bytes ms ms1 r2 n v) by done.
    rewrite decide_True by done.
    replace (N.of_nat (length ms1) + 1) with (N.of_nat (length (ms1 ++ [(n, v)])))
      by (rewrite length_app; cbn; lia).
    rewrite (find_in_members_missing ms n r2 (ms1 ++ [(n, v)])).
    + rewrite app_nil_r. cbn. f_equal; [f_equal; lia|do 2 f_equal; lia].
    + by rewrite <- app_assoc.
    + done.
    + rewrite keys_of_app, length_app. cbn. rewrite length_app. cbn. lia.
  - cbn [app members_from foldl fst snd].
    cbn in Hnd. apply NoDup_cons in Hnd as [Hnot Hnd].
    assert (k' ≠ n) as Hne.
    { intros ->. apply Hnot. rewrite fmap_app. apply elem_of_app. right. cbn. left. }
    unfold keep_match at 2. cbn [key_view].
    rewrite (key_view_bytes ms ms1 (r1 ++ (n, v) :: r2) k' v') by done.
    rewrite decide_False by done.
    replace (N.of_nat (length ms1) + 1) with (N.of_nat (length (ms1 ++ [(k', v')])))
      by (rewrite length_app; cbn; lia).
    rewrite (IH r2 (ms1 ++ [(k', v')])).
    + rewrite <- app_assoc. cbn [app].
      change (keys_of ((k', v') :: r1)) with (k' ++ keys_of r1).
      change (values_of ((k', v') :: r1)) with (v' ++ values_of r1).
      rewrite !length_app. f_equal; [f_equal; lia|do 2 f_equal; lia].
    + by rewrite <- app_assoc.
    + done.
    + rewrite keys_of_app, length_app. cbn. rewrite length_app. cbn. lia.
Qed.

Lemma find_in_bucket_fold ms n :
  N.of_nat (length (encode_bucket ms)) < 2 ^ 32 ->
  find_in_bucket (Some (encode_bucket ms)) n
  = foldl (keep_match (encode_bucket ms) n) no_member
      (members_from 0 (keys_offset ms) (values_offset ms) ms).
Proof.
  intros Hfit. unfold find_in_bucket. by rewrite for_each_in_bucket_encode.
Qed.

Lemma find_in_bucket_missing ms n :
  N.of_nat (length (encode_bucket ms)) < 2 ^ 32 -> n ∉ ms.*1 ->
  find_in_bucket (Some (encode_bucket ms)) n = no_member.
Proof.
  intros Hfit Hnot. rewrite find_in_bucket_fold by done.
  apply (find_in_members_missing ms n ms []); [done|done|].
  cbn. lia.
Qed.

Lemma find_in_bucket_found ms ms1 ms2 n v :
  well_formed_members ms -> ms = ms1 ++ (n, v) :: ms2 ->
  find_in_bucket (Some (encode_bucket ms)) n
  = {| idx := N.of_nat (length ms1);
       key_view := {| v_begin := keys_offset ms + N.of_nat (length (keys_of ms1));
                      v_size := N.of_nat (length n) |};
       value_view := Some {| v_begin := values_offset ms + N.of_nat (length (values_of ms1));
                             v_size := N.of_nat (length v) |} |}.
Proof.
  intros [Hnd Hfit] Hms. rewrite find_in_bucket_fold by done.
  pose proof (find_in_members_found ms n v ms1 ms2 [] no_member
                (keys_offset ms) (values_offset ms)) as Hfound.
  cbn [app length keys_of map concat] in Hfound. change (N.of_nat 0) with 0 in Hfound.
  rewrite <- Hms in Hfound. rewrite Hfound; [done|done|done|lia].
Qed.

(** *** The four removals *)

Lemma load_length_head n rest : n < 2 ^ 32 -> load_length (le_bytes n ++ rest) 0 = n.
Proof. intros Hn. by apply (load_length_at [] n rest 0). Qed.

Lemma remove_four_parts (H KL1 kl KL2 VL1 vl VL2 K1 n K2 V1 v V2 : list byte) pv pk pvl pkl :
  v_begin pv = N.of_nat (length (H ++ (KL1 ++ kl ++ KL2) ++ (VL1 ++ vl ++ VL2)
                                   ++ (K1 ++ n ++ K2) ++ V1)) ->
  v_size pv = N.of_nat (length v) ->
  v_begin pk = N.of_nat (length (H ++ (KL1 ++ kl ++ KL2) ++ (VL1 ++ vl ++ VL2) ++ K1)) ->
  v_size pk = N.of_nat (length n) ->
  v_begin pvl = N.of_nat (length (H ++ (KL1 ++ kl ++ KL2) ++ VL1)) ->
  v_size pvl = N.of_nat (length vl) ->
  v_begin pkl = N.of_nat (length (H ++ KL1)) ->
  v_size pkl = N.of_nat (length kl) ->
  remove_part (remove_part (remove_part (remove_part
    (H ++ (KL1 ++ kl ++ KL2) ++ (VL1 ++ vl ++ VL2) ++ (K1 ++ n ++ K2) ++ (V1 ++ v ++ V2))
    pv) pk) pvl) pkl
  = H ++ (KL1 ++ KL2) ++ (VL1 ++ VL2) ++ (K1 ++ K2) ++ (V1 ++ V2).
Proof.
  intros Hv Hvs Hk Hks Hvl Hvls Hkl Hkls.
  replace (H ++ (KL1 ++ kl ++ KL2) ++ (VL1 ++ vl ++ VL2) ++ (K1 ++ n ++ K2) ++ (V1 ++ v ++ V2))
    with ((H ++ (KL1 ++ kl ++ KL2) ++ (VL1 ++ vl ++ VL2) ++ (K1 ++ n ++ K2) ++ V1) ++ v ++ V2)
    by (by rewrite <- !app_assoc).
  rewrite (remove_part_at _ v V2 pv Hv Hvs).
  replace ((H ++ (KL1 ++ kl ++ KL2) ++ (VL1 ++ vl ++ VL2) ++ (K1 ++ n ++ K2) ++ V1) ++ V2)
    with ((H ++ (KL1 ++ kl ++ KL2) ++ (VL1 ++ vl ++ VL2) ++ K1) ++ n ++ (K2 ++ V1 ++ V2))
    by (by rewrite <- !app_assoc).
  rewrite (remove_part_at _ n _ pk Hk Hks).
  replace ((H ++ (KL1 ++ kl ++ KL2) ++ (VL1 ++ vl ++ VL2) ++ K1) ++ K2 ++ V1 ++ V2)
    with ((H ++ (KL1 ++ kl ++ KL2) ++ VL1) ++ vl ++ (VL2 ++ K1 ++ K2 ++ V1 ++ V2))
    by (by rewrite <- !app_assoc).
  rewrite (remove_part_at _ vl _ pvl Hvl Hvls).
  replace ((H ++ (KL1 ++ kl ++ KL2) ++ VL1) ++ VL2 ++ K1 ++ K2 ++ V1 ++ V2)
    with ((H ++ KL1) ++ kl ++ (KL2 ++ VL1 ++ VL2 ++ K1 ++ K2 ++ V1 ++ V2))
    by (by rewrite <- !app_assoc).
  rewrite (remove_part_at _ kl _ pkl Hkl Hkls).
  by rewrite <- !app_assoc.
Qed.

Lemma encode_bucket_split ms1 n v ms2 :
  encode_bucket (ms1 ++ (n, v) :: ms2)
  = le_bytes (N.of_nat (length (ms1 ++ (n, v) :: ms2)))
    ++ (key_lengths ms1 ++ le_bytes (N.of_nat (length n)) ++ key_lengths ms2)
    ++ (value_lengths ms1 ++ le_bytes (N.of_nat (length v)) ++ value_lengths ms2)
    ++ (keys_of ms1 ++ n ++ keys_of ms2)
    ++ (values_of ms1 ++ v ++ values_of ms2).
Proof.
  unfold encode_bucket.
  by rewrite key_lengths_app, value_lengths_app, keys_of_app, values_of_app.
Qed.

Lemma encode_bucket_without ms1 ms2 :
  encode_bucket (ms1 ++ ms2)
  = le_bytes (N.of_nat (length (ms1 ++ ms2)))
    ++ (key_lengths ms1 ++ key_lengths ms2)
    ++ (value_lengths ms1 ++ value_lengths ms2)
    ++ (keys_of ms1 ++ keys_of ms2)
    ++ (values_of ms1 ++ values_of ms2).
Proof.
  unfold encode_bucket.
  by rewrite key_lengths_app, value_lengths_app, keys_of_app, values_of_app.
Qed.

(** Removing a member gives the layout of the other members, in their
    order, or the absent bucket when there is none left. *)
Lemma remove_from_bucket_found ms ms1 ms2 n v :
  well_formed_members ms -> ms = ms1 ++ (n, v) :: ms2 ->
  remove_from_bucket (Some (encode_bucket ms)) n
  = if decide (ms1 ++ ms2 = []) then None else Some (encode_bucket (ms1 ++ ms2)).
Proof.
  intros Hwf Hms. pose proof Hwf as [Hnd Hfit].
  unfold remove_from_bucket.
  rewrite (find_in_bucket_found ms ms1 ms2 n v Hwf Hms).
  cbn [value_view idx key_view].
  rewrite get_bucket_size_encode by done.
  assert (length ms = Datatypes.S (length (ms1 ++ ms2))) as Hlen.
  { rewrite Hms, !length_app. cbn. lia. }
  destruct (N.eqb_spec (N.of_nat (length ms)) 1) as [Hone|Hmore].
  - rewrite decide_True; [done|]. apply nil_length_inv. lia.
  - rewrite decide_False by (intros Hnil; rewrite Hnil in Hlen; cbn in Hlen; lia).
    change (bucket_bytes (Some (encode_bucket ms))) with (encode_bucket ms).
    pose proof (length_encode_bucket ms) as Htotal.
    pose proof (length_keys_of_split ms1 n v ms2) as Hks.
    pose proof (length_values_of_split ms1 n v ms2) as Hvs.
    rewrite <- Hms in Hks, Hvs.
    assert (length ms = (length ms1 + 1 + length ms2)%nat) as Hcount.
    { rewrite Hms, length_app. cbn. lia. }
    assert (remove_part (remove_part (remove_part (remove_part (encode_bucket ms)
              {| v_begin := values_offset ms + N.of_nat (length (values_of ms1));
                 v_size := N.of_nat (length v) |})
              {| v_begin := keys_offset ms + N.of_nat (length (keys_of ms1));
                 v_size := N.of_nat (length n) |})
              {| v_begin := counter_size_k * (N.of_nat (length ms) + N.of_nat (length ms1) + 1);
                 v_size := counter_size_k |})
              {| v_begin := counter_size_k * (N.of_nat (length ms1) + 1);
                 v_size := counter_size_k |}
            = le_bytes (N.of_nat (length ms))
              ++ (key_lengths ms1 ++ key_lengths ms2)
              ++ (value_lengths ms1 ++ value_lengths ms2)
              ++ (keys_of ms1 ++ keys_of ms2)
              ++ (values_of ms1 ++ values_of ms2)) as Hfour.
    { rewrite Hms at 1. rewrite encode_bucket_split. rewrite <- Hms.
      apply remove_four_parts; cbn [v_begin v_size]; try done;
        rewrite !length_app, ?length_key_lengths, ?length_value_lengths, ?length_le_bytes;
        unfold values_offset, keys_offset, counter_size_k; lia. }
    rewrite Hfour.
    rewrite load_length_head by lia.
    unfold wrap32.
    replace ((N.of_nat (length ms) + (2 ^ 32 - 1)) mod 2 ^ 32)
      with (N.of_nat (length (ms1 ++ ms2))).
    + rewrite store_length_head. by rewrite encode_bucket_without.
    + apply (N.mod_unique _ _ 1); lia.
Qed.

(** *** Reading from a well-formed bucket *)

Lemma bucket_read_found ms n v :
  well_formed_members ms -> (n, v) ∈ ms ->
  bucket_read (Some (encode_bucket ms)) n = Some v.
Proof.
  intros Hwf Hin. apply list_elem_of_split in Hin as (ms1 & ms2 & Hms).
  unfold bucket_read. rewrite (find_in_bucket_found ms ms1 ms2 n v Hwf Hms).
  cbn [value_view fmap option_fmap option_map].
  change (bucket_bytes (Some (encode_bucket ms))) with (encode_bucket ms).
  f_equal. by apply (value_view_bytes ms ms1 ms2 n v).
Qed.

Lemma bucket_read_missing ms n :
  well_formed_members ms -> n ∉ ms.*1 ->
  bucket_read (Some (encode_bucket ms)) n = None.
Proof.
  intros [_ Hfit] Hnot. unfold bucket_read.
  by rewrite find_in_bucket_missing.
Qed.

Lemma well_formed_members_without ms1 n v ms2 :
  well_formed_members (ms1 ++ (n, v) :: ms2) ->
  well_formed_members (ms1 ++ ms2) /\ n ∉ (ms1 ++ ms2).*1.
Proof.
  intros [Hnd Hfit].
  rewrite fmap_app in Hnd. cbn in Hnd.
  apply NoDup_app in Hnd as (Hnd1 & Hdisj & Hnd2).
  apply NoDup_cons in Hnd2 as [Hnot2 Hnd2].
  split; [split|].
  - rewrite fmap_app. apply NoDup_app. split; [done|]. split; [|done].
    intros x Hx Hx2. apply (Hdisj x Hx). by right.
  - rewrite length_encode_bucket in *.
    rewrite length_keys_of_split, length_values_of_split in Hfit.
    rewrite keys_of_app, values_of_app, !length_app in *. cbn [length] in Hfit. lia.
  - rewrite fmap_app. intros Hin. apply elem_of_app in Hin as [Hin|Hin]; [|done].
    apply (Hdisj n Hin). by left.
Qed.

(** The names of the members are the names that read from the bucket. *)
Lemma bucket_member_iff B ms n :
  well_formed_bucket B ms -> n ∈ ms.*1 <-> is_Some (bucket_read B n).
Proof.
  intros [|ms' Hwf]; split.
  - intros Hin. by apply elem_of_nil in Hin.
  - intros [v Hv]. discriminate Hv.
  - intros Hin. apply list_elem_of_fmap in Hin as ([n0 v] & Hn & Hin). cbn in Hn. subst n0.
    exists v. by apply bucket_read_found.
  - intros [v Hv]. destruct (decide (n ∈ ms'.*1)) as [Hin|Hnot]; [done|].
    rewrite bucket_read_missing in Hv by done. discriminate Hv.
Qed.

(** C6: for every well-formed bucket (absent, or the layout of members with
    distinct names) and every name, the bucket [remove_from_bucket] produces
    no longer has the name, its member count is the old one minus one if
    the name was a member (if it read from the bucket) and the old one
    otherwise, and every other member reads with its value, before and
    after. *)
Theorem remove_from_bucket_removes_member B ms n :
  well_formed_bucket B ms ->
  bucket_read (remove_from_bucket B n) n = None
  /\ get_bucket_size (remove_from_bucket B n)
     = get_bucket_size B - (if decide (n ∈ ms.*1) then 1 else 0)
  /\ (forall n' v', (n', v') ∈ ms -> n' <> n ->
        bucket_read B n' = Some v' /\ bucket_read (remove_from_bucket B n) n' = Some v')
  /\ (n ∈ ms.*1 <-> is_Some (bucket_read B n))
  /\ get_bucket_size B = N.of_nat (length ms).
Proof.
  intros HB.
  cut (bucket_read (remove_from_bucket B n) n = None
       /\ get_bucket_size (remove_from_bucket B n)
          = get_bucket_size B - (if decide (n ∈ ms.*1) then 1 else 0)
       /\ (forall n' v', (n', v') ∈ ms -> n' <> n ->
             bucket_read B n' = Some v'
             /\ bucket_read (remove_from_bucket B n) n' = Some v')).
  { intros (H1 & H2 & H3). repeat (split; [done|]).
    split; [by apply bucket_member_iff|].
    destruct HB as [|ms' [_ Hfit]]; [done|]. by apply get_bucket_size_encode. }
  destruct HB as [|ms' Hwf].
  - split; [done|]. split; [done|]. intros n' v' Hin. by apply elem_of_nil in Hin.
  - destruct (decide (n ∈ ms'.*1)) as [Hin|Hnot].
    + apply list_elem_of_fmap in Hin as ([n0 v] & Hn & Hin). cbn in Hn. subst n0.
      apply list_elem_of_split in Hin as (ms1 & ms2 & Hms).
      rewrite (remove_from_bucket_found ms' ms1 ms2 n v Hwf Hms).
      pose proof Hwf as Hwf0. rewrite Hms in Hwf0.
      apply well_formed_members_without in Hwf0 as [Hwf' Hgone].
      pose proof Hwf as [_ Hfit]. pose proof Hwf' as [_ Hfit'].
      rewrite get_bucket_size_encode by done.
      assert (length ms' = Datatypes.S (length (ms1 ++ ms2))) as Hlen.
      { rewrite Hms, !length_app. cbn. lia. }
      case_decide as Hnil.
      * split; [done|].
        split; [change (get_bucket_size None) with 0; rewrite Hnil in Hlen;
                cbn [length] in Hlen; lia|].
        intros n' v' Hin' Hne. exfalso.
        apply app_eq_nil in Hnil as [-> ->]. rewrite Hms in Hin'.
        apply list_elem_of_singleton in Hin'. congruence.
      * split; [by apply bucket_read_missing|].
        split; [rewrite get_bucket_size_encode by done; lia|].
        intros n' v' Hin' Hne. split; [by apply bucket_read_found|].
        apply bucket_read_found; [done|].
        rewrite Hms in Hin'. apply elem_of_app in Hin' as [Hin'|Hin'].
        -- apply elem_of_app. by left.
        -- apply elem_of_cons in Hin' as [Heq|Hin']; [congruence|].
           apply elem_of_app. by right.
    + assert (remove_from_bucket (Some (encode_bucket ms')) n = Some (encode_bucket ms')) as ->.
      { unfold remove_from_bucket. destruct Hwf as [_ Hfit].
        by rewrite find_in_bucket_missing. }
      split; [by apply bucket_read_missing|]. split; [lia|].
      intros n' v' Hin' Hne. split; by apply bucket_read_found.
Qed.

(** The example bucket is well-formed. *)
Lemma three_members_well_formed :
  well_formed_bucket (Some three_members)
    [(bytes "a", bytes "1"); (bytes "bb", bytes "2"); (bytes "ccc", bytes "3")].
Proof.
  apply encoded_bucket. split.
  - apply (bool_decide_unpack _). vm_compute. exact I.
  - vm_compute. reflexivity.
Defined.

Lemma remove_from_bucket_removes_member_witness :
  bucket_read (remove_from_bucket (Some three_members) (bytes "bb")) (bytes "bb") = None
  /\ get_bucket_size (remove_from_bucket (Some three_members) (bytes "bb")) = 2
  /\ bucket_read (remove_from_bucket (Some three_members) (bytes "bb")) (bytes "ccc")
     = Some (bytes "3").
Proof.
  destruct (remove_from_bucket_removes_member _ _ (bytes "bb") three_members_well_formed)
    as (Hgone & Hsize & Hothers & _ & _).
  split; [exact Hgone|]. split.
  - rewrite Hsize. vm_compute. reflexivity.
  - apply (Hothers (bytes "ccc") (bytes "3")).
    + apply (bool_decide_unpack _). vm_compute. exact I.
    + discriminate.
Defined.

Local Open Scope Z_scope.

(** * Further properties of the store *)

(** ** Loops *)

Lemma for_range_S {S : Type} count (body : nat -> S -> S) s :
  for_range (Datatypes.S count) body s = body count (for_range count body s).
Proof. unfold for_range. by rewrite seq_S, foldl_app. Qed.

Lemma for_each_or_return_inl {A S : Type} (body : A -> S -> string + S) l s e :
  for_each_or_return body l s = inl e ->
  exists x s', x ∈ l /\ body x s' = inl e.
Proof.
  revert s. induction l as [|x l IH]; intros s; simpl; [done|].
  destruct (body x s) as [e'|s'] eqn:Hb.
  - intros [= <-]. exists x, s. split; [left|done].
  - intros H. destruct (IH _ H) as (y & s'' & Hy & Hb'). exists y, s''. split; [by right|done].
Qed.

Lemma for_each_or_return_fails {A S : Type} (body : A -> S -> string + S) l s x :
  x ∈ l -> (forall s', exists e, body x s' = inl e) ->
  exists e, for_each_or_return body l s = inl e.
Proof.
  revert s. induction l as [|y l IH]; intros s Hin Hfail; [by apply elem_of_nil in Hin|].
  simpl. destruct (body y s) as [e'|s'] eqn:Hb; [by eexists|].
  apply elem_of_cons in Hin as [->|Hin]; [|by apply IH].
  destruct (Hfail s) as [e He]. congruence.
Qed.

Lemma for_each_or_return_unit_inr {A : Type} (body : A -> unit -> string + unit) l :
  for_each_or_return body l tt = inr tt <-> forall x, x ∈ l -> body x tt = inr tt.
Proof.
  induction l as [|y l IH]; simpl.
  - split; [|done]. intros _ x Hx. by apply elem_of_nil in Hx.
  - destruct (body y tt) as [e|[]] eqn:Hb.
    + split; [done|]. intros H. specialize (H y ltac:(left)). congruence.
    + rewrite IH. split.
      * intros H x Hx. apply elem_of_cons in Hx as [->|Hx]; [done|by apply H].
      * intros H x Hx. apply H. by right.
Qed.

(** ** Batches written to HEAD *)

Lemma write_head_body_eq c_keys cs opts vals lens i db :
  write_head_body c_keys cs opts vals lens i db
  = set_pair (increment_youngest db).2 (collection_at cs i opts) (default 0 (c_keys !! i))
      {| data := value_of (default None (vals !! i)) (default 0%N (lens !! i));
         sequence_number := wrap64 (youngest_sequence db + 1) |}.
Proof. unfold write_head_body. by destruct (find_pair _ _ _). Qed.

Lemma find_pair_increment_youngest db c k :
  find_pair (increment_youngest db).2 c k = find_pair db c k.
Proof. by destruct c. Qed.

Lemma write_head_body_youngest c_keys cs opts vals lens i db :
  youngest_sequence (write_head_body c_keys cs opts vals lens i db)
  = wrap64 (youngest_sequence db + 1).
Proof. rewrite write_head_body_eq. by rewrite youngest_sequence_set_pair. Qed.

Lemma write_head_youngest db c_keys count cs opts vals lens :
  in_sequence_range (youngest_sequence db) ->
  youngest_sequence db + Z.of_nat count < 2 ^ 63 ->
  youngest_sequence (_ukv_write_head db c_keys count cs opts vals lens)
  = youngest_sequence db + Z.of_nat count.
Proof.
  intros Hr. unfold _ukv_write_head. induction count as [|count IH]; intros Hfit.
  - unfold for_range. simpl. lia.
  - rewrite for_range_S, write_head_body_youngest, IH by lia.
    rewrite wrap64_id; [lia|]. unfold in_sequence_range in *. lia.
Qed.

Lemma write_head_find_other db c_keys count cs opts vals lens c k :
  (forall j, (j < count)%nat ->
     located c_keys cs opts j <> {| collection_ptr := c; key := k |}) ->
  find_pair (_ukv_write_head db c_keys count cs opts vals lens) c k = find_pair db c k.
Proof.
  unfold _ukv_write_head. induction count as [|count IH]; intros Hother; [done|].
  rewrite for_range_S, write_head_body_eq.
  rewrite find_pair_set_pair_ne by (apply (Hother count); lia).
  rewrite find_pair_increment_youngest. apply IH. intros j Hj. apply Hother. lia.
Qed.

Lemma write_head_find_last db c_keys count cs opts vals lens i :
  in_sequence_range (youngest_sequence db) ->
  youngest_sequence db + Z.of_nat count < 2 ^ 63 ->
  (i < count)%nat ->
  (forall j, (i < j < count)%nat -> located c_keys cs opts j <> located c_keys cs opts i) ->
  find_pair (_ukv_write_head db c_keys count cs opts vals lens)
    (collection_at cs i opts) (default 0 (c_keys !! i))
  = Some {| data := value_of (default None (vals !! i)) (default 0%N (lens !! i));
            sequence_number := youngest_sequence db + Z.of_nat i + 1 |}.
Proof.
  intros Hr. unfold _ukv_write_head. induction count as [|count IH]; intros Hfit Hi Hlast; [lia|].
  rewrite for_range_S, write_head_body_eq.
  destruct (decide (i = count)) as [->|Hne].
  - rewrite find_pair_set_pair_eq. do 2 f_equal.
    pose proof (write_head_youngest db c_keys count cs opts vals lens Hr ltac:(lia)) as Hy.
    unfold _ukv_write_head in Hy. rewrite Hy.
    rewrite wrap64_id; [lia|]. unfold in_sequence_range in *. lia.
  - rewrite find_pair_set_pair_ne by (apply (Hlast count); lia).
    rewrite find_pair_increment_youngest. apply IH; [lia|lia|].
    intros j Hj. apply Hlast. lia.
Qed.

Lemma write_head_body_bounded c_keys cs opts vals lens i db :
  in_sequence_range (youngest_sequence db) -> youngest_sequence db + 1 < 2 ^ 63 ->
  sequences_bounded db ->
  sequences_bounded (write_head_body c_keys cs opts vals lens i db).
Proof.
  intros Hr Hfit Hb c k sv. rewrite write_head_body_eq, youngest_sequence_set_pair.
  change (youngest_sequence (increment_youngest db).2)
    with (wrap64 (youngest_sequence db + 1)).
  rewrite wrap64_id by (unfold in_sequence_range in *; lia).
  destruct (decide ({| collection_ptr := collection_at cs i opts;
                       key := default 0 (c_keys !! i) |}
                    = {| collection_ptr := c; key := k |})) as [Heq|Hne].
  - injection Heq as <- <-. rewrite find_pair_set_pair_eq. intros [= <-]. simpl. lia.
  - rewrite find_pair_set_pair_ne by done. rewrite find_pair_increment_youngest.
    intros Hsv. specialize (Hb c k sv Hsv). lia.
Qed.

(** X1: every row of a HEAD write takes a sequence number of its own: a batch
    of n rows moves the youngest sequence up by n, whether the rows insert,
    overwrite or repeat a key; and if no entry carried a sequence above the
    youngest before the batch, none does after it. *)
Theorem write_head_consumes_one_sequence_per_row db c_keys count cs opts vals lens :
  in_sequence_range (youngest_sequence db) ->
  youngest_sequence db + Z.of_nat count < 2 ^ 63 ->
  youngest_sequence (_ukv_write_head db c_keys count cs opts vals lens)
  = youngest_sequence db + Z.of_nat count
  /\ (sequences_bounded db ->
      sequences_bounded (_ukv_write_head db c_keys count cs opts vals lens)).
Proof.
  intros Hr Hfit. split; [by apply write_head_youngest|].
  intros Hb. induction count as [|count IH]; [done|].
  unfold _ukv_write_head. rewrite for_range_S.
  pose proof (write_head_youngest db c_keys count cs opts vals lens Hr ltac:(lia)) as Hy.
  apply write_head_body_bounded.
  - fold (_ukv_write_head db c_keys count cs opts vals lens). rewrite Hy.
    unfold in_sequence_range in *. lia.
  - fold (_ukv_write_head db c_keys count cs opts vals lens). rewrite Hy. lia.
  - apply IH. lia.
Qed.

Lemma write_head_consumes_one_sequence_per_row_witness :
  youngest_sequence (_ukv_write_head db_new [7; 7; 8] 3 None 0%N
                       [Some []; Some []; None] [0%N; 0%N; 0%N]) = 3.
Proof.
  apply (write_head_consumes_one_sequence_per_row db_new [7; 7; 8] 3 None 0%N
           [Some []; Some []; None] [0%N; 0%N; 0%N]).
  - unfold in_sequence_range. simpl. lia.
  - simpl. lia.
Defined.

(** X2: in a batch written to HEAD the last row for a place wins: the entry
    holds the bytes of that row under the sequence number the row took (the
    youngest before the batch plus the position of the row), and a place no
    row addresses keeps what it had. *)
Theorem write_head_last_row_wins db c_keys count cs opts vals lens :
  in_sequence_range (youngest_sequence db) ->
  youngest_sequence db + Z.of_nat count < 2 ^ 63 ->
  (forall i, (i < count)%nat ->
     (forall j, (i < j < count)%nat -> located c_keys cs opts j <> located c_keys cs opts i) ->
     find_pair (_ukv_write_head db c_keys count cs opts vals lens)
       (collection_at cs i opts) (default 0 (c_keys !! i))
     = Some {| data := value_of (default None (vals !! i)) (default 0%N (lens !! i));
               sequence_number := youngest_sequence db + Z.of_nat i + 1 |})
  /\ (forall c k,
       (forall j, (j < count)%nat ->
          located c_keys cs opts j <> {| collection_ptr := c; key := k |}) ->
       find_pair (_ukv_write_head db c_keys count cs opts vals lens) c k = find_pair db c k).
Proof.
  intros Hr Hfit. split.
  - intros i Hi Hlast. by apply write_head_find_last.
  - intros c k Hother. by apply write_head_find_other.
Qed.

Lemma write_head_last_row_wins_witness :
  find_pair (_ukv_write_head db_new [7; 7; 8] 3 None 0%N
               [Some [x01]; Some [x02]; None] [1%N; 1%N; 0%N]) None 7
  = Some {| data := [x02]; sequence_number := 2 |}.
Proof.
  destruct (write_head_last_row_wins db_new [7; 7; 8] 3 None 0%N
              [Some [x01]; Some [x02]; None] [1%N; 1%N; 0%N]) as [Hlast _].
  - unfold in_sequence_range. simpl. lia.
  - simpl. lia.
  - apply (Hlast 1%nat); [lia|].
    intros j Hj. assert (j = 2%nat) as -> by lia. discriminate.
Defined.

(** ** Reads on HEAD *)

Lemma memcpy_prefix dst off src :
  (N.to_nat off <= length dst)%nat ->
  take (N.to_nat off) (memcpy dst off src) = take (N.to_nat off) dst.
Proof.
  intros Hle. unfold memcpy.
  rewrite take_app_le by (rewrite length_take; lia).
  rewrite take_take. f_equal. lia.
Qed.

Lemma memcpy_length dst off src :
  (N.to_nat off + length src <= length dst)%nat ->
  length (memcpy dst off src) = length dst.
Proof.
  intros Hle. unfold memcpy. rewrite !length_app, length_take, length_drop. lia.
Qed.

Lemma memcpy_read dst off src :
  (N.to_nat off <= length dst)%nat ->
  take (length src) (drop (N.to_nat off) (memcpy dst off src)) = src.
Proof.
  intros Hle. unfold memcpy.
  rewrite drop_app_length' by (rewrite length_take; lia).
  by rewrite take_app_length.
Qed.

Lemma take_drop_prefix {A : Type} (l l' : list A) m n e :
  take e l = take e l' -> (m + n <= e)%nat ->
  take n (drop m l) = take n (drop m l').
Proof.
  intros Heq Hle.
  rewrite !take_drop_commute.
  replace (take (m + n) l) with (take (m + n) (take e l)) by (rewrite take_take; f_equal; lia).
  replace (take (m + n) l') with (take (m + n) (take e l')) by (rewrite take_take; f_equal; lia).
  by rewrite Heq.
Qed.

Lemma read_head_total_bytes_mono db c_keys cs opts j j' :
  (j <= j')%nat ->
  (for_range j (read_head_total_bytes db c_keys cs opts) 0
   <= for_range j' (read_head_total_bytes db c_keys cs opts) 0)%N.
Proof.
  induction 1 as [|j' Hle IH]; [lia|].
  rewrite for_range_S. etransitivity; [exact IH|].
  unfold read_head_total_bytes at 2. destruct (find_pair _ _ _); lia.
Qed.

Lemma read_head_fetch_rows db c_keys cs opts arena0 count j :
  (j <= count)%nat ->
  (N.to_nat (for_range count (read_head_total_bytes db c_keys cs opts) 0%N)
   <= length arena0)%nat ->
  match for_range j (read_head_fetch db c_keys cs opts) (arena0, 0%N, [], []) with
  | (arena, exported, vals, lens) =>
      exported = for_range j (read_head_total_bytes db c_keys cs opts) 0%N
      /\ length arena = length arena0
      /\ length vals = j /\ length lens = j
      /\ forall i, (i < j)%nat ->
           match find_pair db (collection_at cs i opts) (default 0 (c_keys !! i)) with
           | Some sv =>
               exists offset,
                 vals !! i = Some (arena_plus offset)
                 /\ lens !! i = Some (wrap32 (N.of_nat (length (data sv))))
                 /\ (N.to_nat offset + length (data sv) <= N.to_nat exported)%nat
                 /\ take (length (data sv)) (drop (N.to_nat offset) arena) = data sv
           | None => vals !! i = Some NULL /\ lens !! i = Some 0%N
           end
  end.
Proof.
  intros Hj Hfit. induction j as [|j IH].
  - unfold for_range. simpl. repeat split; try done. intros i Hi. lia.
  - rewrite !for_range_S.
    pose proof (read_head_total_bytes_mono db c_keys cs opts (Datatypes.S j) count Hj) as Hmono.
    rewrite for_range_S in Hmono.
    specialize (IH ltac:(lia)).
    destruct (for_range j (read_head_fetch db c_keys cs opts) (arena0, 0%N, [], []))
      as [[[arena exported] vals] lens].
    destruct IH as (Hexp & Hlen & Hvals & Hlens & Hrows).
    unfold read_head_total_bytes at 1 in Hmono.
    unfold read_head_fetch at 1. unfold read_head_total_bytes at 1.
    rewrite <- Hexp in *.
    destruct (find_pair db (collection_at cs j opts) (default 0 (c_keys !! j))) as [sv|] eqn:Hfind.
    + repeat split.
      * rewrite memcpy_length; [done|lia].
      * rewrite length_app. simpl. lia.
      * rewrite length_app. simpl. lia.
      * intros i Hi. destruct (decide (i = j)) as [->|Hne].
        -- rewrite Hfind. exists exported.
           rewrite !lookup_app_r, Hvals, Hlens, Nat.sub_diag by lia.
           repeat split; [lia|]. apply memcpy_read. lia.
        -- specialize (Hrows i ltac:(lia)).
           destruct (find_pair db (collection_at cs i opts) (default 0 (c_keys !! i))) as [sv'|].
           ++ destruct Hrows as (off & Hv & Hl & Hoff & Hbytes).
              exists off. rewrite !lookup_app_l by lia.
              repeat split; [done|done|lia|].
              etransitivity; [|exact Hbytes].
              apply (take_drop_prefix _ _ _ _ (N.to_nat exported)); [|lia].
              apply memcpy_prefix. lia.
           ++ by rewrite !lookup_app_l by lia.
    + repeat split; [done|rewrite length_app; simpl; lia|rewrite length_app; simpl; lia|].
      intros i Hi. destruct (decide (i = j)) as [->|Hne].
      * rewrite Hfind. by rewrite !lookup_app_r, Hvals, Hlens, Nat.sub_diag by lia.
      * specialize (Hrows i ltac:(lia)).
        destruct (find_pair db (collection_at cs i opts) (default 0 (c_keys !! i))) as [sv'|].
        -- destruct Hrows as (off & Hv & Hl & Hoff & Hbytes).
           exists off. by rewrite !lookup_app_l by lia.
        -- by rewrite !lookup_app_l by lia.
Qed.

Lemma read_head_cases allocate db c_keys count cs opts c_arena :
  _ukv_read_head allocate db c_keys count cs opts c_arena
  = let total := for_range count (read_head_total_bytes db c_keys cs opts) 0%N in
    if (arena_length c_arena <? total)%N
    then match allocate total with
         | Some block =>
             inr (read_head_output db c_keys count cs opts
                    {| arena_length := total; arena_bytes := block |})
         | None => inl "Failed to allocate memory for exports!"%string
         end
    else inr (read_head_output db c_keys count cs opts c_arena).
Proof.
  unfold _ukv_read_head, read_head_output. cbv zeta.
  destruct (_ <? _)%N; [destruct (allocate _)|]; try done;
    by destruct (for_range count (read_head_fetch db c_keys cs opts) _) as [[[? ?] ?] ?].
Qed.

Lemma read_head_output_rows db c_keys count cs opts a :
  (N.to_nat (for_range count (read_head_total_bytes db c_keys cs opts) 0%N)
   <= length (arena_bytes a))%nat ->
  length (c_values_out (read_head_output db c_keys count cs opts a)) = count
  /\ length (c_lengths_out (read_head_output db c_keys count cs opts a)) = count
  /\ forall i, (i < count)%nat ->
       row_fetched db c_keys cs opts
         (arena_bytes (out_arena (read_head_output db c_keys count cs opts a)))
         (c_values_out (read_head_output db c_keys count cs opts a))
         (c_lengths_out (read_head_output db c_keys count cs opts a)) i.
Proof.
  intros Hfit. unfold read_head_output.
  pose proof (read_head_fetch_rows db c_keys cs opts (arena_bytes a) count count
                ltac:(lia) Hfit) as Hinv.
  destruct (for_range count (read_head_fetch db c_keys cs opts) (arena_bytes a, 0%N, [], []))
    as [[[bytes exported] vals] lens].
  destruct Hinv as (_ & _ & Hvals & Hlens & Hall).
  simpl. repeat split; [done|done|].
  intros i Hi. unfold row_fetched. specialize (Hall i Hi).
  destruct (find_pair _ _ _); [|done].
  destruct Hall as (off & Hv & Hl & _ & Hb). by exists off.
Qed.

Lemma read_head_success allocate db c_keys count cs opts c_arena out :
  (forall n block, allocate n = Some block -> length block = N.to_nat n) ->
  length (arena_bytes c_arena) = N.to_nat (arena_length c_arena) ->
  _ukv_read_head allocate db c_keys count cs opts c_arena = inr out ->
  exists a, out = read_head_output db c_keys count cs opts a
    /\ (N.to_nat (for_range count (read_head_total_bytes db c_keys cs opts) 0%N)
        <= length (arena_bytes a))%nat.
Proof.
  intros Halloc Harena. rewrite read_head_cases. cbv zeta.
  destruct (N.ltb_spec (arena_length c_arena)
              (for_range count (read_head_total_bytes db c_keys cs opts) 0%N)) as [Hs|Hb].
  - destruct (allocate _) as [block|] eqn:Hblock; [|done].
    intros [= <-]. eexists. split; [done|]. simpl. rewrite (Halloc _ _ Hblock). lia.
  - intros [= <-]. eexists. split; [done|]. lia.
Qed.

(** X3: a read on HEAD that succeeds fills one value pointer and one length
    per task; for a key that is present the pointer designates an offset of
    the arena at which the arena holds the bytes of the entry, and the
    length is their number; for a key that is absent the pointer is null
    and the length 0.  The read fails only when the arena is too small and
    the allocation of a larger one fails. *)
Theorem read_head_returns_stored_bytes allocate db c_keys count cs opts c_arena :
  (forall n block, allocate n = Some block -> length block = N.to_nat n) ->
  length (arena_bytes c_arena) = N.to_nat (arena_length c_arena) ->
  (forall out,
     _ukv_read_head allocate db c_keys count cs opts c_arena = inr out ->
     length (c_values_out out) = count /\ length (c_lengths_out out) = count
     /\ forall i, (i < count)%nat ->
          row_fetched db c_keys cs opts (arena_bytes (out_arena out))
            (c_values_out out) (c_lengths_out out) i)
  /\ (forall e,
     _ukv_read_head allocate db c_keys count cs opts c_arena = inl e ->
     (arena_length c_arena
      < for_range count (read_head_total_bytes db c_keys cs opts) 0)%N
     /\ allocate (for_range count (read_head_total_bytes db c_keys cs opts) 0%N) = None).
Proof.
  intros Halloc Harena. split.
  - intros out Hout.
    destruct (read_head_success _ _ _ _ _ _ _ _ Halloc Harena Hout) as (a & -> & Hfit).
    by apply read_head_output_rows.
  - intros e. rewrite read_head_cases. cbv zeta.
    destruct (N.ltb_spec (arena_length c_arena)
                (for_range count (read_head_total_bytes db c_keys cs opts) 0%N)) as [Hs|Hb];
      [|done].
    by destruct (allocate _).
Qed.

Lemma read_head_returns_stored_bytes_witness :
  exists out,
    _ukv_read_head zero_block run4_db [34; 5] 2 None 0%N empty_arena = inr out
    /\ row_fetched run4_db [34; 5] None 0%N (arena_bytes (out_arena out))
         (c_values_out out) (c_lengths_out out) 0
    /\ row_fetched run4_db [34; 5] None 0%N (arena_bytes (out_arena out))
         (c_values_out out) (c_lengths_out out) 1.
Proof.
  destruct (read_head_returns_stored_bytes zero_block run4_db [34; 5] 2 None 0%N empty_arena)
    as [Hok _].
  - intros n block [= <-]. by rewrite length_replicate.
  - reflexivity.
  - eexists. split; [vm_compute; reflexivity|].
    destruct (Hok _ ltac:(vm_compute; reflexivity)) as (_ & _ & Hrows).
    split; apply Hrows; lia.
Defined.

Lemma measure_head_rows db c_keys cs opts count :
  length (_ukv_measure_head db c_keys count cs opts) = count
  /\ forall i, (i < count)%nat ->
       _ukv_measure_head db c_keys count cs opts !! i
       = Some (match find_pair db (collection_at cs i opts) (default 0 (c_keys !! i)) with
               | Some sv => wrap32 (N.of_nat (length (data sv)))
               | None => 0%N
               end).
Proof.
  unfold _ukv_measure_head. induction count as [|count [IHl IHr]].
  - split; [done|]. intros i Hi. lia.
  - rewrite for_range_S. unfold measure_head_body at 1 3.
    split.
    + destruct (find_pair _ _ _); rewrite length_app; simpl; lia.
    + intros i Hi. destruct (decide (i = count)) as [->|Hne].
      * destruct (find_pair db (collection_at cs count opts) (default 0 (c_keys !! count)));
          by rewrite lookup_app_r, IHl, Nat.sub_diag by lia.
      * rewrite <- (IHr i) by lia.
        destruct (find_pair db (collection_at cs count opts) (default 0 (c_keys !! count)));
          by rewrite lookup_app_l by lia.
Qed.

(** X4: on HEAD, [ukv_read] without an array of values never fails and
    leaves the arena alone, and the lengths it measures are the lengths a
    read of the values reports; a missing key measures 0, like an empty
    value. *)
Theorem measure_head_agrees_with_read allocate db c_keys count cs opts c_arena :
  (forall n block, allocate n = Some block -> length block = N.to_nat n) ->
  length (arena_bytes c_arena) = N.to_nat (arena_length c_arena) ->
  exists measured,
    ukv_read allocate db None c_keys count cs opts c_arena false = inr measured
    /\ out_arena measured = c_arena
    /\ length (c_lengths_out measured) = count
    /\ (forall i, (i < count)%nat ->
          find_pair db (collection_at cs i opts) (default 0 (c_keys !! i)) = None ->
          c_lengths_out measured !! i = Some 0%N)
    /\ forall out,
         ukv_read allocate db None c_keys count cs opts c_arena true = inr out ->
         c_lengths_out out = c_lengths_out measured.
Proof.
  intros Halloc Harena. eexists. split; [reflexivity|]. cbn [out_arena c_lengths_out].
  destruct (measure_head_rows db c_keys cs opts count) as [Hlen Hrows].
  split; [done|]. split; [done|]. split.
  - intros i Hi Hnone. rewrite (Hrows i Hi). by rewrite Hnone.
  - intros out Hout. cbn [ukv_read negb] in Hout.
    destruct (read_head_success _ _ _ _ _ _ _ _ Halloc Harena Hout) as (a & -> & Hfit).
    destruct (read_head_output_rows db c_keys count cs opts a Hfit) as (_ & Hl & Hfetched).
    apply list_eq_same_length with count; [done|done|].
    intros i x y Hi Hx Hy. specialize (Hfetched i Hi). unfold row_fetched in Hfetched.
    rewrite (Hrows i Hi) in Hy.
    destruct (find_pair _ _ _).
    + destruct Hfetched as (off & _ & Hlx & _). congruence.
    + destruct Hfetched as [_ Hlx]. congruence.
Qed.

Lemma measure_head_agrees_with_read_witness :
  exists measured,
    ukv_read zero_block run4_db None [34; 5] 2 None 0%N empty_arena false = inr measured
    /\ c_lengths_out measured = [8%N; 0%N].
Proof.
  destruct (measure_head_agrees_with_read zero_block run4_db [34; 5] 2 None 0%N empty_arena)
    as (measured & Hm & _ & _ & _ & Hsame).
  - intros n block [= <-]. by rewrite length_replicate.
  - reflexivity.
  - exists measured. split; [exact Hm|].
    symmetry. apply (Hsame {| out_arena := {| arena_length := 8; arena_bytes := bytes "34______" |};
                              c_values_out := [arena_plus 0; NULL];
                              c_lengths_out := [8%N; 0%N] |}).
    vm_compute. reflexivity.
Defined.

(** ** Reads inside a transaction *)

Lemma read_txn_total_bytes_cases txn db c_keys cs opts i total :
  read_txn_total_bytes txn db (youngest_sequence db) c_keys cs opts i total
  = if row_conflicts txn db c_keys cs opts i then inl conflict_message
    else inr (total + txn_row_bytes txn db c_keys cs opts i)%N.
Proof.
  unfold read_txn_total_bytes, row_conflicts, txn_row_bytes, located.
  destruct (new_values txn !! _); [by rewrite N.add_0_r|].
  destruct (find_pair _ _ _); [|by rewrite N.add_0_r].
  by destruct (entry_was_overwritten _ _ _).
Qed.

Lemma for_each_or_return_sum {A : Type} (body : A -> N -> string + N)
    (fails : A -> bool) (size : A -> N) (message : string) l total :
  (forall x t, body x t = if fails x then inl message else inr (t + size x)%N) ->
  for_each_or_return body l total
  = if existsb fails l then inl message
    else inr (foldl (fun t x => (t + size x)%N) total l).
Proof.
  intros Hbody. revert total. induction l as [|x l IH]; intros total; [done|].
  simpl. rewrite Hbody. destruct (fails x); [done|]. apply IH.
Qed.

Lemma read_txn_sizes txn db c_keys cs opts count :
  for_each_or_return
    (read_txn_total_bytes txn db (youngest_sequence db) c_keys cs opts) (seq 0 count) 0%N
  = if existsb (row_conflicts txn db c_keys cs opts) (seq 0 count) then inl conflict_message
    else inr (for_range count
                (fun i t => (t + txn_row_bytes txn db c_keys cs opts i)%N) 0%N).
Proof.
  apply for_each_or_return_sum. intros i t. apply read_txn_total_bytes_cases.
Qed.

Lemma txn_bytes_mono txn db c_keys cs opts j j' :
  (j <= j')%nat ->
  (for_range j (fun i t => (t + txn_row_bytes txn db c_keys cs opts i)%N) 0
   <= for_range j' (fun i t => (t + txn_row_bytes txn db c_keys cs opts i)%N) 0)%N.
Proof.
  induction 1 as [|j' Hle IH]; [lia|]. rewrite for_range_S. lia.
Qed.

Lemma read_txn_fetch_rows txn db c_keys cs opts arena0 count j :
  (j <= count)%nat ->
  (N.to_nat (for_range count (fun i t => (t + txn_row_bytes txn db c_keys cs opts i)%N) 0%N)
   <= length arena0)%nat ->
  match for_range j (read_txn_fetch txn db c_keys cs opts) (arena0, 0%N, [], []) with
  | (arena, exported, vals, lens) =>
      exported = for_range j (fun i t => (t + txn_row_bytes txn db c_keys cs opts i)%N) 0%N
      /\ length arena = length arena0
      /\ length vals = j /\ length lens = j
      /\ forall i, (i < j)%nat ->
           match new_values txn !! located c_keys cs opts i with
           | Some value =>
               vals !! i = Some (txn_value (located c_keys cs opts i))
               /\ lens !! i = Some (wrap32 (N.of_nat (length value)))
           | None =>
               match find_pair db (collection_at cs i opts) (default 0 (c_keys !! i)) with
               | Some sv =>
                   exists offset,
                     vals !! i = Some (arena_plus offset)
                     /\ lens !! i = Some (wrap32 (N.of_nat (length (data sv))))
                     /\ (N.to_nat offset + length (data sv) <= N.to_nat exported)%nat
                     /\ take (length (data sv)) (drop (N.to_nat offset) arena) = data sv
               | None => vals !! i = Some NULL /\ lens !! i = Some 0%N
               end
           end
  end.
Proof.
  intros Hj Hfit. induction j as [|j IH].
  - unfold for_range. simpl. repeat split; try done. intros i Hi. lia.
  - rewrite !for_range_S.
    pose proof (txn_bytes_mono txn db c_keys cs opts (Datatypes.S j) count Hj) as Hmono.
    rewrite for_range_S in Hmono.
    specialize (IH ltac:(lia)).
    destruct (for_range j (read_txn_fetch txn db c_keys cs opts) (arena0, 0%N, [], []))
      as [[[arena exported] vals] lens].
    destruct IH as (Hexp & Hlen & Hvals & Hlens & Hrows).
    rewrite <- Hexp in *.
    assert (Hold : forall arena' exported' v l,
              (N.to_nat exported <= N.to_nat exported')%nat ->
              take (N.to_nat exported) arena' = take (N.to_nat exported) arena ->
              forall i, (i < j)%nat ->
                match new_values txn !! located c_keys cs opts i with
                | Some value =>
                    (vals ++ [v]) !! i = Some (txn_value (located c_keys cs opts i))
                    /\ (lens ++ [l]) !! i = Some (wrap32 (N.of_nat (length value)))
                | None =>
                    match find_pair db (collection_at cs i opts) (default 0 (c_keys !! i)) with
                    | Some sv =>
                        exists offset,
                          (vals ++ [v]) !! i = Some (arena_plus offset)
                          /\ (lens ++ [l]) !! i = Some (wrap32 (N.of_nat (length (data sv))))
                          /\ (N.to_nat offset + length (data sv) <= N.to_nat exported')%nat
                          /\ take (length (data sv)) (drop (N.to_nat offset) arena') = data sv
                    | None => (vals ++ [v]) !! i = Some NULL /\ (lens ++ [l]) !! i = Some 0%N
                    end
                end).
    { intros arena' exported' v l Hexp' Hpre i Hi. specialize (Hrows i Hi).
      rewrite !lookup_app_l by lia.
      destruct (new_values txn !! located c_keys cs opts i); [done|].
      destruct (find_pair db (collection_at cs i opts) (default 0 (c_keys !! i))); [|done].
      destruct Hrows as (off & Hv & Hl & Hoff & Hbytes).
      exists off. repeat split; [done|done|lia|].
      etransitivity; [|exact Hbytes].
      by apply (take_drop_prefix _ _ _ _ (N.to_nat exported)). }
    unfold txn_row_bytes at 1 in Hmono. unfold txn_row_bytes at 1.
    unfold read_txn_fetch at 1.
    fold (located c_keys cs opts j).
    destruct (new_values txn !! located c_keys cs opts j) as [value|] eqn:Hbuf.
    + repeat split; [lia|done|rewrite length_app; simpl; lia|rewrite length_app; simpl; lia|].
      intros i Hi. destruct (decide (i = j)) as [->|Hne].
      * rewrite Hbuf. by rewrite !lookup_app_r, Hvals, Hlens, Nat.sub_diag by lia.
      * apply Hold; [lia|done|lia].
    + destruct (find_pair db (collection_at cs j opts) (default 0 (c_keys !! j)))
        as [sv|] eqn:Hfind.
      * repeat split;
          [rewrite memcpy_length; [done|lia]
          |rewrite length_app; simpl; lia|rewrite length_app; simpl; lia|].
        intros i Hi. destruct (decide (i = j)) as [->|Hne].
        -- rewrite Hbuf, Hfind. exists exported.
           rewrite !lookup_app_r, Hvals, Hlens, Nat.sub_diag by lia.
           repeat split; [lia|]. apply memcpy_read. lia.
        -- apply Hold; [lia|apply memcpy_prefix; lia|lia].
      * repeat split; [lia|done|rewrite length_app; simpl; lia|rewrite length_app; simpl; lia|].
        intros i Hi. destruct (decide (i = j)) as [->|Hne].
        -- rewrite Hbuf, Hfind. by rewrite !lookup_app_r, Hvals, Hlens, Nat.sub_diag by lia.
        -- apply Hold; [lia|done|lia].
Qed.

Lemma read_txn_cases allocate txn db c_keys count cs opts c_arena :
  _ukv_read_txn allocate txn db c_keys count cs opts c_arena
  = (txn,
     if existsb (row_conflicts txn db c_keys cs opts) (seq 0 count) then inl conflict_message
     else
       let total := for_range count
                      (fun i t => (t + txn_row_bytes txn db c_keys cs opts i)%N) 0%N in
       if (arena_length c_arena <=? total)%N
       then match allocate total with
            | Some block =>
                inr (read_txn_output txn db c_keys count cs opts
                       {| arena_length := total; arena_bytes := block |})
            | None => inl "Failed to allocate memory for exports!"%string
            end
       else inr (read_txn_output txn db c_keys count cs opts c_arena)).
Proof.
  unfold _ukv_read_txn, read_txn_output. rewrite read_txn_sizes. cbv zeta.
  destruct (existsb _ _); [done|].
  destruct (_ <=? _)%N; [destruct (allocate _)|]; try done;
    by destruct (for_range count (read_txn_fetch txn db c_keys cs opts) _) as [[[? ?] ?] ?].
Qed.

Lemma read_txn_output_rows txn db c_keys count cs opts a :
  (N.to_nat (for_range count (fun i t => (t + txn_row_bytes txn db c_keys cs opts i)%N) 0%N)
   <= length (arena_bytes a))%nat ->
  length (c_values_out (read_txn_output txn db c_keys count cs opts a)) = count
  /\ length (c_lengths_out (read_txn_output txn db c_keys count cs opts a)) = count
  /\ forall i, (i < count)%nat ->
       txn_row_fetched txn db c_keys cs opts
         (arena_bytes (out_arena (read_txn_output txn db c_keys count cs opts a)))
         (c_values_out (read_txn_output txn db c_keys count cs opts a))
         (c_lengths_out (read_txn_output txn db c_keys count cs opts a)) i.
Proof.
  intros Hfit. unfold read_txn_output.
  pose proof (read_txn_fetch_rows txn db c_keys cs opts (arena_bytes a) count count
                ltac:(lia) Hfit) as Hinv.
  destruct (for_range count (read_txn_fetch txn db c_keys cs opts) (arena_bytes a, 0%N, [], []))
    as [[[bytes exported] vals] lens].
  destruct Hinv as (_ & _ & Hvals & Hlens & Hall).
  simpl. repeat split; [done|done|].
  intros i Hi. unfold txn_row_fetched, row_fetched. specialize (Hall i Hi).
  destruct (new_values txn !! _); [done|].
  destruct (find_pair _ _ _); [|done].
  destruct Hall as (off & Hv & Hl & _ & Hb). by exists off.
Qed.

Lemma existsb_seq_false (f : nat -> bool) count :
  existsb f (seq 0 count) = false <-> forall i, (i < count)%nat -> f i = false.
Proof.
  split.
  - intros Hex i Hi. destruct (f i) eqn:Hf; [|done].
    assert (existsb f (seq 0 count) = true) as Ht; [|congruence].
    apply existsb_exists. exists i. split; [|done]. apply in_seq. lia.
  - intros Hall. destruct (existsb f (seq 0 count)) eqn:Hex; [|done].
    apply existsb_exists in Hex as (i & Hin & Hf). apply in_seq in Hin.
    rewrite Hall in Hf by lia. done.
Qed.

(** X5: a read inside a transaction that succeeds leaves the transaction as
    it was and answers every task: a place the transaction buffers is read
    from the buffer, whatever HEAD holds there; any other place is read from
    HEAD into the arena, as a read on HEAD does; and no task read an entry
    written since the transaction began. *)
Theorem read_txn_reads_buffer_then_head allocate txn db c_keys count cs opts c_arena txn' out :
  (forall n block, allocate n = Some block -> length block = N.to_nat n) ->
  length (arena_bytes c_arena) = N.to_nat (arena_length c_arena) ->
  _ukv_read_txn allocate txn db c_keys count cs opts c_arena = (txn', inr out) ->
  txn' = txn
  /\ length (c_values_out out) = count /\ length (c_lengths_out out) = count
  /\ (forall i, (i < count)%nat ->
        txn_row_fetched txn db c_keys cs opts (arena_bytes (out_arena out))
          (c_values_out out) (c_lengths_out out) i)
  /\ (forall i, (i < count)%nat -> row_conflicts txn db c_keys cs opts i = false).
Proof.
  intros Halloc Harena. rewrite read_txn_cases. cbv zeta.
  destruct (existsb _ _) eqn:Hex; [done|].
  set (total := for_range count _ 0%N).
  intros Hres.
  assert (exists a, txn' = txn /\ out = read_txn_output txn db c_keys count cs opts a
                    /\ (N.to_nat total <= length (arena_bytes a))%nat) as (a & -> & -> & Hfit).
  { destruct (N.leb_spec (arena_length c_arena) total) as [Hs|Hb].
    - destruct (allocate total) as [block|] eqn:Hblock; [|done].
      injection Hres as <- <-. eexists. repeat split. simpl. rewrite (Halloc _ _ Hblock). lia.
    - injection Hres as <- <-. eexists. repeat split. lia. }
  split; [done|].
  destruct (read_txn_output_rows txn db c_keys count cs opts a Hfit) as (Hv & Hl & Hrows).
  repeat split; try done. by apply existsb_seq_false.
Qed.

Lemma read_txn_reads_buffer_then_head_witness :
  txn_row_fetched run1_txn run2_db [34] None 0%N [] [txn_value (located [34] None 0%N 0)] [1%N] 0.
Proof.
  destruct (read_txn_reads_buffer_then_head zero_block run1_txn run2_db [34] 1 None 0%N
              empty_arena run1_txn
              {| out_arena := empty_arena;
                 c_values_out := [txn_value (located [34] None 0%N 0)];
                 c_lengths_out := [1%N] |}) as (_ & _ & _ & Hrows & _).
  - intros n block [= <-]. by rewrite length_replicate.
  - reflexivity.
  - vm_compute. reflexivity.
  - apply (Hrows 0%nat). lia.
Defined.

(** X6: a read inside a transaction reports the conflict error exactly when
    one of its tasks addresses a place that the transaction does not buffer
    and whose entry on HEAD carries a sequence number of the closed interval
    from the start of the transaction to the youngest sequence; the
    transaction is returned as it was. *)
Theorem read_txn_conflict_iff allocate txn db c_keys count cs opts c_arena :
  (_ukv_read_txn allocate txn db c_keys count cs opts c_arena).1 = txn
  /\ ((_ukv_read_txn allocate txn db c_keys count cs opts c_arena).2 = inl conflict_message
      <-> exists i, (i < count)%nat /\ row_conflicts txn db c_keys cs opts i = true).
Proof.
  rewrite read_txn_cases. cbv zeta. split; [done|]. cbn [snd].
  destruct (existsb _ _) eqn:Hex.
  - split; [|done]. intros _.
    apply existsb_exists in Hex as (i & Hin & Hf). apply in_seq in Hin.
    exists i. split; [lia|done].
  - split.
    + intros Hres. exfalso.
      destruct (_ <=? _)%N; [destruct (allocate _)|]; discriminate Hres.
    + intros (i & Hi & Hf).
      rewrite (proj1 (existsb_seq_false _ _) Hex i Hi) in Hf. done.
Qed.

Lemma entry_was_overwritten_youngest s y : entry_was_overwritten y s y = true.
Proof.
  unfold entry_was_overwritten.
  destruct (Z.leb_spec s y), (Z.geb_spec y s), (Z.leb_spec y y); simpl; try done; lia.
Qed.

(** X7: a key written on HEAD cannot be read by a transaction that is open
    and does not buffer it: the entry carries the youngest sequence, which
    lies in the overwrite interval of every transaction, so the read reports
    the conflict, whatever the start sequence of the transaction. *)
Theorem head_write_conflicts_open_transactions allocate txn db (k : Z) cs opts v len c_arena :
  new_values txn !! located [k] cs opts 0 = None ->
  _ukv_read_txn allocate txn (_ukv_write_head db [k] 1 cs opts [v] [len])
    [k] 1 cs opts c_arena
  = (txn, inl conflict_message).
Proof.
  intros Hbuf. rewrite read_txn_cases.
  assert (row_conflicts txn (_ukv_write_head db [k] 1 cs opts [v] [len]) [k] cs opts 0 = true)
    as Hc.
  { unfold row_conflicts. rewrite Hbuf.
    unfold _ukv_write_head. rewrite for_range_S, write_head_body_eq.
    cbn [lookup list_lookup default].
    rewrite find_pair_set_pair_eq, youngest_sequence_set_pair.
    cbn [sequence_number]. apply entry_was_overwritten_youngest. }
  cbn [seq existsb]. by rewrite Hc.
Qed.

Lemma head_write_conflicts_open_transactions_witness :
  _ukv_read_txn zero_block run3_txn (_ukv_write_head run3_db1 [1] 1 None 0%N
                                       [Some (bytes "new")] [3%N])
    [1] 1 None 0%N empty_arena
  = (run3_txn, inl conflict_message).
Proof.
  apply (head_write_conflicts_open_transactions zero_block run3_txn run3_db1 1 None 0%N).
  reflexivity.
Defined.

(** X8: a transaction that begins with a zero hint on a database whose
    entries all carry sequences up to the youngest starts after every
    entry: none of its reads reports a conflict until HEAD is written
    again. *)
Theorem fresh_transaction_reads_without_conflict allocate db c_txn c_keys count cs opts c_arena :
  in_sequence_range (youngest_sequence db) ->
  youngest_sequence db + 1 < 2 ^ 63 ->
  sequences_bounded db ->
  let db' := (ukv_txn_begin db 0 c_txn).1 in
  let txn := (ukv_txn_begin db 0 c_txn).2 in
  (forall i, (i < count)%nat -> row_conflicts txn db' c_keys cs opts i = false)
  /\ (_ukv_read_txn allocate txn db' c_keys count cs opts c_arena).2 <> inl conflict_message.
Proof.
  intros Hr Hfit Hb db' txn.
  assert (Hno : forall i, (i < count)%nat -> row_conflicts txn db' c_keys cs opts i = false).
  { intros i Hi. unfold row_conflicts. subst txn db'.
    change (ukv_txn_begin db 0 c_txn).1 with (increment_youngest db).2.
    change (new_values (ukv_txn_begin db 0 c_txn).2) with (∅ : gmap located_key_t (list byte)).
    change (txn_sequence_number (ukv_txn_begin db 0 c_txn).2)
      with (wrap64 (youngest_sequence db + 1)).
    change (youngest_sequence (increment_youngest db).2)
      with (wrap64 (youngest_sequence db + 1)).
    rewrite lookup_empty, find_pair_increment_youngest.
    destruct (find_pair db _ _) as [sv|] eqn:Hfind; [|done].
    specialize (Hb _ _ _ Hfind).
    rewrite wrap64_id by (unfold in_sequence_range in *; lia).
    unfold entry_was_overwritten.
    destruct (Z.leb_spec (youngest_sequence db + 1) (youngest_sequence db + 1)); [|lia].
    destruct (Z.geb_spec (sequence_number sv) (youngest_sequence db + 1)); [lia|done]. }
  split; [exact Hno|].
  rewrite read_txn_cases. cbn [snd].
  rewrite (proj2 (existsb_seq_false _ _) Hno). cbv zeta.
  destruct (_ <=? _)%N; [destruct (allocate _)|]; discriminate.
Qed.

Lemma run4_db_bounded : sequences_bounded run4_db.
Proof.
  intros c k sv. unfold run4_db, _ukv_write_head. rewrite for_range_S, write_head_body_eq.
  destruct (decide ({| collection_ptr := collection_at None 0 0%N;
                       key := default 0 ([34] !! 0%nat) |}
                    = {| collection_ptr := c; key := k |})) as [Heq|Hne].
  - injection Heq as <- <-. rewrite find_pair_set_pair_eq. intros [= <-].
    vm_compute. discriminate.
  - rewrite find_pair_set_pair_ne by done. destruct c; vm_compute; discriminate.
Qed.

Lemma fresh_transaction_reads_without_conflict_witness :
  row_conflicts (ukv_txn_begin run4_db 0 None).2 (ukv_txn_begin run4_db 0 None).1
    [34] None 0%N 0 = false.
Proof.
  destruct (fresh_transaction_reads_without_conflict zero_block run4_db None [34] 1 None 0%N
              empty_arena) as [Hno _].
  - unfold in_sequence_range. vm_compute. split; [discriminate|reflexivity].
  - vm_compute. reflexivity.
  - exact run4_db_bounded.
  - apply Hno. lia.
Defined.

(** ** Committing *)

Lemma entry_was_overwritten_start s y : entry_was_overwritten s s y = true.
Proof.
  unfold entry_was_overwritten.
  destruct (Z.leb_spec s y), (Z.geb_spec s s), (Z.leb_spec s y); simpl; try done; lia.
Qed.

Lemma commit_check_requested_ok db lk seq :
  commit_check_requested db (lk, seq) tt = inr tt
  <-> forall sv, find_pair db (collection_ptr lk) (key lk) = Some sv -> sequence_number sv = seq.
Proof.
  unfold commit_check_requested. destruct (find_pair _ _ _) as [sv|]; [|done].
  destruct (Z.eqb_spec (sequence_number sv) seq) as [Heq|Hne].
  - split; [|done]. by intros _ ? [= <-].
  - split; [done|]. intros H. by specialize (H sv eq_refl).
Qed.

Lemma commit_check_incoming_ok db txn lk v :
  commit_check_incoming db txn (youngest_sequence db) (lk, v) tt = inr tt
  <-> forall sv, find_pair db (collection_ptr lk) (key lk) = Some sv ->
        entry_was_overwritten (sequence_number sv) (txn_sequence_number txn)
          (youngest_sequence db) = false.
Proof.
  unfold commit_check_incoming. destruct (find_pair _ _ _) as [sv|]; [|done].
  destruct (Z.eqb_spec (sequence_number sv) (txn_sequence_number txn)) as [Heq|Hne].
  - split; [done|]. intros H. specialize (H sv eq_refl).
    rewrite Heq, entry_was_overwritten_start in H. done.
  - destruct (entry_was_overwritten _ _ _) eqn:Hover.
    + split; [done|]. intros H. specialize (H sv eq_refl). congruence.
    + split; [|done]. by intros _ ? [= <-].
Qed.

Lemma commit_success_incoming db txn reserve_ok :
  (ukv_txn_commit db txn reserve_ok).2 = None ->
  forall lk v sv,
    new_values txn !! lk = Some v ->
    find_pair db (collection_ptr lk) (key lk) = Some sv ->
    entry_was_overwritten (sequence_number sv) (txn_sequence_number txn)
      (youngest_sequence db) = false.
Proof.
  unfold ukv_txn_commit.
  destruct (for_each_or_return (commit_check_requested db) _ tt) as [e|[]]; [done|].
  destruct (for_each_or_return (commit_check_incoming db txn _) _ tt) as [e|[]] eqn:Hinc;
    [done|].
  intros _ lk v sv Hl.
  apply (commit_check_incoming_ok db txn lk v).
  apply (proj1 (for_each_or_return_unit_inr _ _) Hinc (lk, v)).
  by apply elem_of_map_to_list.
Qed.

(** X9: a commit goes through exactly when every entry of the read set that
    still exists carries the sequence that was recorded, no entry under a
    key of the write set carries a sequence of the closed interval from the
    start of the transaction to the youngest sequence, and the reservation
    of memory succeeds. *)
Theorem txn_commit_succeeds_iff db txn reserve_ok :
  (ukv_txn_commit db txn reserve_ok).2 = None
  <-> (forall lk seq sv,
         requested_keys txn !! lk = Some seq ->
         find_pair db (collection_ptr lk) (key lk) = Some sv -> sequence_number sv = seq)
      /\ (forall lk v sv,
         new_values txn !! lk = Some v ->
         find_pair db (collection_ptr lk) (key lk) = Some sv ->
         entry_was_overwritten (sequence_number sv) (txn_sequence_number txn)
           (youngest_sequence db) = false)
      /\ reserve_ok = true.
Proof.
  unfold ukv_txn_commit.
  destruct (for_each_or_return (commit_check_requested db) _ tt) as [e|[]] eqn:Hreq.
  - split; [done|]. intros (Hr & _ & _). exfalso.
    assert (for_each_or_return (commit_check_requested db)
              (map_to_list (requested_keys txn)) tt = inr tt) as Hok; [|congruence].
    apply for_each_or_return_unit_inr. intros [lk seq] Hin.
    apply elem_of_map_to_list in Hin. apply commit_check_requested_ok. eauto.
  - pose proof (proj1 (for_each_or_return_unit_inr _ _) Hreq) as Hr.
    destruct (for_each_or_return (commit_check_incoming db txn _) _ tt) as [e|[]] eqn:Hinc.
    + split; [done|]. intros (_ & Hi & _). exfalso.
      assert (for_each_or_return (commit_check_incoming db txn (youngest_sequence db))
                (map_to_list (new_values txn)) tt = inr tt) as Hok; [|congruence].
      apply for_each_or_return_unit_inr. intros [lk v] Hin.
      apply elem_of_map_to_list in Hin. apply commit_check_incoming_ok. eauto.
    + pose proof (proj1 (for_each_or_return_unit_inr _ _) Hinc) as Hi.
      assert ((forall lk seq sv,
                 requested_keys txn !! lk = Some seq ->
                 find_pair db (collection_ptr lk) (key lk) = Some sv ->
                 sequence_number sv = seq)
              /\ (forall lk v sv,
                 new_values txn !! lk = Some v ->
                 find_pair db (collection_ptr lk) (key lk) = Some sv ->
                 entry_was_overwritten (sequence_number sv) (txn_sequence_number txn)
                   (youngest_sequence db) = false)) as [H1 H2].
      { split.
        - intros lk seq sv Hl. apply commit_check_requested_ok, (Hr (lk, seq)).
          by apply elem_of_map_to_list.
        - intros lk v sv Hl. apply (commit_check_incoming_ok db txn lk v), (Hi (lk, v)).
          by apply elem_of_map_to_list. }
      destruct reserve_ok; simpl.
      * destruct (foldl _ _ _). simpl. done.
      * split; [done|]. by intros (_ & _ & ?).
Qed.

Lemma commit_import_buffers_other seq l st lk :
  lk ∉ l.*1 -> (foldl (commit_import seq) st l).2 !! lk = st.2 !! lk.
Proof.
  revert st. induction l as [|[lk' v'] l IH]; intros [db buffers] Hnot; [done|].
  simpl in Hnot. apply not_elem_of_cons in Hnot as [Hne Hnot].
  cbn [foldl]. rewrite IH by done.
  unfold commit_import. destruct (find_pair _ _ _); simpl; by rewrite lookup_insert_ne.
Qed.

Lemma commit_import_buffers_swapped seq l st lk v :
  NoDup l.*1 -> (lk, v) ∈ l ->
  (foldl (commit_import seq) st l).2 !! lk
  = Some (from_option data [] (find_pair st.1 (collection_ptr lk) (key lk))).
Proof.
  revert st. induction l as [|[lk' v'] l IH]; intros [db buffers] Hnd Hin.
  - by apply elem_of_nil in Hin.
  - simpl in Hnd. apply NoDup_cons in Hnd as [Hnot Hnd].
    cbn [foldl]. apply elem_of_cons in Hin as [Heq|Hin].
    + injection Heq as <- <-. rewrite commit_import_buffers_other by done.
      unfold commit_import. simpl.
      destruct (find_pair db _ _); simpl; by rewrite lookup_insert_eq.
    + rewrite IH by done. rewrite commit_import_db. simpl.
      rewrite find_pair_set_pair_ne; [done|].
      intros Heq. apply Hnot. apply list_elem_of_fmap. exists (lk, v). split; [|done].
      destruct lk, lk'. simpl in *. congruence.
Qed.

Lemma commit_success_txn db txn reserve_ok db' txn' :
  ukv_txn_commit db txn reserve_ok = (db', txn', None) ->
  txn' = {| requested_keys := requested_keys txn;
            new_values := (foldl (commit_import (txn_sequence_number txn)) (db, new_values txn)
                             (map_to_list (new_values txn))).2;
            txn_sequence_number := txn_sequence_number txn |}.
Proof.
  unfold ukv_txn_commit.
  destruct (for_each_or_return (commit_check_requested db) _ _); [done|].
  destruct (for_each_or_return (commit_check_incoming db txn _) _ _); [done|].
  destruct reserve_ok; simpl; [|done].
  destruct (foldl _ _ _) as [d b]. by intros [= _ <-].
Qed.

(** X10: a commit that goes through swaps buffers with the store: afterwards
    every key of the write set is still in the write set of the handle, now
    with the bytes its entry held before the commit (none if the entry is
    new), while the read set and the sequence number of the handle are
    unchanged. *)
Theorem txn_commit_swaps_buffers db txn reserve_ok db' txn' :
  ukv_txn_commit db txn reserve_ok = (db', txn', None) ->
  requested_keys txn' = requested_keys txn
  /\ txn_sequence_number txn' = txn_sequence_number txn
  /\ (forall lk v, new_values txn !! lk = Some v ->
        new_values txn' !! lk
        = Some (from_option data [] (find_pair db (collection_ptr lk) (key lk))))
  /\ (forall lk, new_values txn !! lk = None -> new_values txn' !! lk = None).
Proof.
  intros Hc. rewrite (commit_success_txn _ _ _ _ _ Hc). simpl.
  split; [done|]. split; [done|]. split.
  - intros lk v Hv.
    rewrite (commit_import_buffers_swapped _ _ _ lk v); [done| |].
    + apply NoDup_fst_map_to_list.
    + by apply elem_of_map_to_list.
  - intros lk Hnone. rewrite commit_import_buffers_other; [done|].
    intros Hin. apply list_elem_of_fmap in Hin as ([lk' v] & Heq & Hin).
    apply elem_of_map_to_list in Hin. simpl in Heq. subst lk'. congruence.
Qed.

Lemma txn_commit_swaps_buffers_witness :
  new_values (ukv_txn_commit run1_db run1_txn true).1.2 !! {| collection_ptr := None; key := 34 |}
  = Some [].
Proof.
  destruct (txn_commit_swaps_buffers run1_db run1_txn true
              (ukv_txn_commit run1_db run1_txn true).1.1
              (ukv_txn_commit run1_db run1_txn true).1.2
              ltac:(vm_compute; reflexivity)) as (_ & _ & Hswap & _).
  exact (Hswap {| collection_ptr := None; key := 34 |} (bytes "v")
           ltac:(vm_compute; reflexivity)).
Defined.

(** X11: a transaction that has committed writes cannot commit again before
    it begins anew: its entries now carry its own sequence number, so the
    second commit reports an error and changes nothing, whatever the
    reservation does. *)
Theorem txn_commit_twice_fails db txn reserve_ok db' txn' reserve_ok' :
  ukv_txn_commit db txn reserve_ok = (db', txn', None) ->
  new_values txn <> ∅ ->
  exists e, ukv_txn_commit db' txn' reserve_ok' = (db', txn', Some e).
Proof.
  intros Hc Hne.
  destruct (map_choose _ Hne) as (lk & v & Hv).
  pose proof (commit_applied _ _ _ _ _ lk v Hc Hv) as Hentry.
  assert (exists b, new_values txn' !! lk = Some b) as [b Hb].
  { rewrite (commit_success_txn _ _ _ _ _ Hc). simpl. eexists.
    apply (commit_import_buffers_swapped _ _ _ lk v).
    - apply NoDup_fst_map_to_list.
    - by apply elem_of_map_to_list. }
  assert (txn_sequence_number txn' = txn_sequence_number txn) as Hseq.
  { by rewrite (commit_success_txn _ _ _ _ _ Hc). }
  destruct (ukv_txn_commit db' txn' reserve_ok') as [[db'' txn''] [e|]] eqn:Hc2.
  - destruct (commit_failure _ _ _ _ _ _ Hc2) as [-> ->]. by exists e.
  - exfalso.
    assert ((ukv_txn_commit db' txn' reserve_ok').2 = None) as Hnone by (by rewrite Hc2).
    pose proof (commit_success_incoming _ _ _ Hnone lk b _ Hb Hentry) as Hover.
    simpl in Hover. rename Hover into Hnone'.
    rewrite Hseq, entry_was_overwritten_start in Hnone'. done.
Qed.

Lemma txn_commit_twice_fails_witness :
  exists e,
    ukv_txn_commit (ukv_txn_commit run1_db run1_txn true).1.1
      (ukv_txn_commit run1_db run1_txn true).1.2 false
    = ((ukv_txn_commit run1_db run1_txn true).1.1,
       (ukv_txn_commit run1_db run1_txn true).1.2, Some e).
Proof.
  apply (txn_commit_twice_fails run1_db run1_txn true).
  - vm_compute. reflexivity.
  - intros Hempty.
    assert (new_values run1_txn !! {| collection_ptr := None; key := 34 |} = None) as Hnone
      by (rewrite Hempty; apply lookup_empty).
    vm_compute in Hnone. discriminate Hnone.
Defined.

Lemma txn_commit_succeeds_iff_witness :
  (ukv_txn_commit run1_db run1_txn true).2 = None
  /\ (ukv_txn_commit run2_db run1_txn true).2 <> None.
Proof.
  split.
  - vm_compute. reflexivity.
  - intros Hnone.
    destruct (proj1 (txn_commit_succeeds_iff run2_db run1_txn true) Hnone) as (_ & Hinc & _).
    specialize (Hinc {| collection_ptr := None; key := 34 |} (bytes "v")
                  {| data := bytes "w"; sequence_number := 2 |}
                  ltac:(vm_compute; reflexivity) ltac:(vm_compute; reflexivity)).
    vm_compute in Hinc. discriminate Hinc.
Defined.



(** ** Collections *)

Lemma find_pair_named db n k :
  find_pair db (Some n) k = named db !! n ≫= fun col => pairs col !! k.
Proof. unfold find_pair, deref. by destruct (named db !! n). Qed.

(** X13: creating a collection never touches an entry or the youngest
    sequence, returns the handle of the name, and is idempotent: a second
    call with the same name returns the same handle and the same database.
    A collection that is created is empty. *)
Theorem collection_upsert_idempotent db n :
  (ukv_collection_upsert db n).2 = Some n
  /\ ukv_collection_upsert (ukv_collection_upsert db n).1 n = ukv_collection_upsert db n
  /\ (forall c k, find_pair (ukv_collection_upsert db n).1 c k = find_pair db c k)
  /\ youngest_sequence (ukv_collection_upsert db n).1 = youngest_sequence db
  /\ is_Some (named (ukv_collection_upsert db n).1 !! n)
  /\ (named db !! n = None ->
      named (ukv_collection_upsert db n).1 !! n = Some {| name := n; pairs := ∅ |}).
Proof.
  unfold ukv_collection_upsert.
  destruct (named db !! n) as [col|] eqn:Hn; simpl.
  - rewrite Hn. split; [done|]. split; [done|]. split; [done|]. split; [done|].
    split; [by exists col|done].
  - rewrite lookup_insert_eq. split; [done|]. split; [done|]. split; [|done].
    intros [m|] k; [|done]. rewrite !find_pair_named. simpl.
    destruct (decide (n = m)) as [->|Hne].
    + by rewrite lookup_insert_eq, Hn.
    + by rewrite lookup_insert_ne.
Qed.

(** X14: removing a collection drops its entries and nothing else: the
    entries of every other collection and of the unnamed one stay, the
    youngest sequence stays, and a collection created again under the name
    is empty.  Removing a name that is not there changes nothing. *)
Theorem collection_remove_drops_entries db n :
  named (ukv_collection_remove db n) !! n = None
  /\ (forall k, find_pair (ukv_collection_upsert (ukv_collection_remove db n) n).1
                  (Some n) k = None)
  /\ (forall c k, c <> Some n -> find_pair (ukv_collection_remove db n) c k = find_pair db c k)
  /\ youngest_sequence (ukv_collection_remove db n) = youngest_sequence db
  /\ (named db !! n = None -> ukv_collection_remove db n = db).
Proof.
  assert (Hgone : named (ukv_collection_remove db n) !! n = None).
  { unfold ukv_collection_remove. destruct (named db !! n) eqn:Hn; simpl; [|done].
    apply lookup_delete_eq. }
  split; [exact Hgone|]. split; [|split; [|split]].
  - intros k. unfold ukv_collection_upsert. rewrite Hgone. simpl.
    rewrite find_pair_named. simpl. by rewrite lookup_insert_eq.
  - intros [m|] k Hne; unfold ukv_collection_remove;
      destruct (named db !! n) eqn:Hn; try done.
    rewrite !find_pair_named. simpl. rewrite lookup_delete_ne; [done|congruence].
  - unfold ukv_collection_remove. by destruct (named db !! n).
  - intros Hn. unfold ukv_collection_remove. by rewrite Hn.
Qed.

(** ** Options *)

Lemma land_flag_zero (o flag : N) (b : N) :
  flag = (2 ^ b)%N -> (N.land o flag =? 0)%N = negb (N.testbit o b).
Proof.
  intros ->. destruct (N.testbit o b) eqn:Hb; simpl.
  - apply N.eqb_neq. intros Hz.
    assert (N.testbit (N.land o (2 ^ b)) b = false) as Ht by (rewrite Hz; apply N.bits_0).
    rewrite N.land_spec, Hb, N.pow2_bits_true in Ht. done.
  - apply N.eqb_eq. apply N.bits_inj. intros i.
    rewrite N.land_spec, N.bits_0.
    destruct (N.eq_dec i b) as [->|Hne]; [by rewrite Hb|].
    rewrite N.pow2_bits_false by done. apply andb_false_r.
Qed.

Lemma set_flag_testbit o enabled flag b i :
  flag = (2 ^ b)%N ->
  N.testbit (set_flag o enabled flag) i = if N.eqb i b then enabled else N.testbit o i.
Proof.
  intros ->. unfold set_flag.
  destruct (N.eqb_spec i b) as [->|Hne]; destruct enabled.
  - by rewrite N.lor_spec, N.pow2_bits_true, orb_true_r.
  - by rewrite N.ldiff_spec, N.pow2_bits_true, andb_false_r.
  - rewrite N.lor_spec, N.pow2_bits_false by done. apply orb_false_r.
  - rewrite N.ldiff_spec, N.pow2_bits_false by done. apply andb_true_r.
Qed.

(** X15: the option setters each switch one bit and leave the others; with
    the colocated option switched on every task of a batch addresses the
    first collection of the array, with it switched off task i addresses
    collection i, and the other three options have no influence on the
    collection a task addresses. *)
Theorem options_select_collection o cs (i : nat) enabled :
  collection_at (Some cs) i (ukv_option_read_colocated o true) = default None (cs !! 0%nat)
  /\ collection_at (Some cs) i (ukv_option_write_colocated o false) = default None (cs !! i)
  /\ collection_at (Some cs) i (ukv_option_read_consistent o enabled)
     = collection_at (Some cs) i o
  /\ collection_at (Some cs) i (ukv_option_read_transparent o enabled)
     = collection_at (Some cs) i o
  /\ collection_at (Some cs) i (ukv_option_write_flush o enabled)
     = collection_at (Some cs) i o
  /\ (forall flag b j, flag = (2 ^ b)%N -> j <> b ->
        N.testbit (set_flag o enabled flag) j = N.testbit o j)
  /\ collection_at None i o = None.
Proof.
  unfold ukv_option_read_colocated, ukv_option_write_colocated, ukv_option_read_consistent,
    ukv_option_read_transparent, ukv_option_write_flush, collection_at.
  rewrite !(land_flag_zero _ colocated_k 1 eq_refl).
  rewrite (set_flag_testbit o true colocated_k 1 1 eq_refl).
  rewrite (set_flag_testbit o false colocated_k 1 1 eq_refl).
  rewrite (set_flag_testbit o enabled consistent_k 0 1 eq_refl).
  rewrite (set_flag_testbit o enabled transaparent_read_k 2 1 eq_refl).
  rewrite (set_flag_testbit o enabled flush_write_k 3 1 eq_refl).
  simpl. repeat split; try done.
  intros flag b j Hflag Hne. rewrite (set_flag_testbit o enabled flag b j Hflag).
  by destruct (N.eqb_spec j b).
Qed.

(** ** Batches written inside a transaction, and the whole round trip *)

Lemma write_txn_fields txn c_keys count cs opts vals lens :
  requested_keys (_ukv_write_txn txn c_keys count cs opts vals lens) = requested_keys txn
  /\ txn_sequence_number (_ukv_write_txn txn c_keys count cs opts vals lens)
     = txn_sequence_number txn.
Proof.
  unfold _ukv_write_txn. induction count as [|count IH]; [done|].
  rewrite for_range_S. simpl. exact IH.
Qed.

Lemma write_txn_buffer_other txn c_keys count cs opts vals lens lk :
  (forall j, (j < count)%nat -> located c_keys cs opts j <> lk) ->
  new_values (_ukv_write_txn txn c_keys count cs opts vals lens) !! lk = new_values txn !! lk.
Proof.
  unfold _ukv_write_txn. induction count as [|count IH]; intros Hother; [done|].
  rewrite for_range_S. simpl.
  rewrite lookup_insert_ne by (apply (Hother count); lia).
  apply IH. intros j Hj. apply Hother. lia.
Qed.

Lemma write_txn_buffer_last txn c_keys count cs opts vals lens i :
  (i < count)%nat ->
  (forall j, (i < j < count)%nat -> located c_keys cs opts j <> located c_keys cs opts i) ->
  new_values (_ukv_write_txn txn c_keys count cs opts vals lens) !! located c_keys cs opts i
  = Some (value_of (default None (vals !! i)) (default 0%N (lens !! i))).
Proof.
  unfold _ukv_write_txn. induction count as [|count IH]; intros Hi Hlast; [lia|].
  rewrite for_range_S. simpl.
  destruct (decide (i = count)) as [->|Hne].
  - apply lookup_insert_eq.
  - rewrite lookup_insert_ne by (apply (Hlast count); lia).
    apply IH; [lia|]. intros j Hj. apply Hlast. lia.
Qed.

Lemma write_txn_buffer_addressed txn c_keys count cs opts vals lens lk v :
  new_values (_ukv_write_txn txn c_keys count cs opts vals lens) !! lk = Some v ->
  new_values txn !! lk = Some v
  \/ exists i, (i < count)%nat /\ located c_keys cs opts i = lk
       /\ v = value_of (default None (vals !! i)) (default 0%N (lens !! i)).
Proof.
  unfold _ukv_write_txn. induction count as [|count IH]; [by left|].
  rewrite for_range_S. simpl.
  destruct (decide (located c_keys cs opts count = lk)) as [Heq|Hne].
  - unfold located in Heq. rewrite Heq, lookup_insert_eq. intros [= <-].
    right. exists count. split; [lia|]. done.
  - unfold located in Hne. rewrite lookup_insert_ne by done. intros Hv.
    destruct (IH Hv) as [|(i & Hi & Hlk & Hval)]; [by left|].
    right. exists i. split; [lia|done].
Qed.

(** X16: a write inside a transaction only fills the write set of the
    transaction: the last row for a place gives the buffered bytes, a place
    no row addresses keeps its buffer, every buffered value comes from the
    write set before the call or from a row, and the read set and the
    sequence number of the transaction stay. *)
Theorem write_txn_buffers_last_row txn c_keys count cs opts vals lens :
  (forall i, (i < count)%nat ->
     (forall j, (i < j < count)%nat -> located c_keys cs opts j <> located c_keys cs opts i) ->
     new_values (_ukv_write_txn txn c_keys count cs opts vals lens) !! located c_keys cs opts i
     = Some (value_of (default None (vals !! i)) (default 0%N (lens !! i))))
  /\ (forall lk, (forall j, (j < count)%nat -> located c_keys cs opts j <> lk) ->
        new_values (_ukv_write_txn txn c_keys count cs opts vals lens) !! lk
        = new_values txn !! lk)
  /\ (forall lk v,
        new_values (_ukv_write_txn txn c_keys count cs opts vals lens) !! lk = Some v ->
        new_values txn !! lk = Some v
        \/ exists i, (i < count)%nat /\ located c_keys cs opts i = lk
             /\ v = value_of (default None (vals !! i)) (default 0%N (lens !! i)))
  /\ requested_keys (_ukv_write_txn txn c_keys count cs opts vals lens) = requested_keys txn
  /\ txn_sequence_number (_ukv_write_txn txn c_keys count cs opts vals lens)
     = txn_sequence_number txn.
Proof.
  split; [|split; [|split]].
  - intros i Hi Hlast. by apply write_txn_buffer_last.
  - intros lk Hother. by apply write_txn_buffer_other.
  - intros lk v. apply write_txn_buffer_addressed.
  - apply write_txn_fields.
Qed.

Lemma commit_goes_through db txn :
  (forall lk seq sv,
     requested_keys txn !! lk = Some seq ->
     find_pair db (collection_ptr lk) (key lk) = Some sv -> sequence_number sv = seq) ->
  (forall lk v sv,
     new_values txn !! lk = Some v ->
     find_pair db (collection_ptr lk) (key lk) = Some sv ->
     entry_was_overwritten (sequence_number sv) (txn_sequence_number txn)
       (youngest_sequence db) = false) ->
  (ukv_txn_commit db txn true).2 = None.
Proof.
  intros Hr Hi. unfold ukv_txn_commit.
  assert (for_each_or_return (commit_check_requested db)
            (map_to_list (requested_keys txn)) tt = inr tt) as ->.
  { apply for_each_or_return_unit_inr. intros [lk seq] Hin.
    apply elem_of_map_to_list in Hin. apply commit_check_requested_ok. eauto. }
  assert (for_each_or_return (commit_check_incoming db txn (youngest_sequence db))
            (map_to_list (new_values txn)) tt = inr tt) as ->.
  { apply for_each_or_return_unit_inr. intros [lk v] Hin.
    apply elem_of_map_to_list in Hin. apply commit_check_incoming_ok. eauto. }
  simpl. by destruct (foldl _ _ _).
Qed.

(** X17: a transaction that is begun with a zero sequence hint, filled by one
    write and committed with nothing written to HEAD in between always
    commits.  HEAD then holds, for the last row of each place, the bytes of
    the row under the sequence number the transaction took at its start;
    places the write does not address keep their entries, and the youngest
    sequence is the one the start allocated. *)
Theorem transaction_round_trip db c_txn c_keys count cs opts vals lens :
  sequences_bounded db ->
  in_sequence_range (youngest_sequence db) ->
  youngest_sequence db + 1 < 2 ^ 63 ->
  exists db2 txn2,
    ukv_txn_commit (ukv_txn_begin db 0 c_txn).1
      (_ukv_write_txn (ukv_txn_begin db 0 c_txn).2 c_keys count cs opts vals lens) true
    = (db2, txn2, None)
    /\ (forall i, (i < count)%nat ->
          (forall j, (i < j < count)%nat ->
             located c_keys cs opts j <> located c_keys cs opts i) ->
          find_pair db2 (collection_at cs i opts) (default 0 (c_keys !! i))
          = Some {| data := value_of (default None (vals !! i)) (default 0%N (lens !! i));
                    sequence_number := youngest_sequence db + 1 |})
    /\ (forall c k,
          (forall j, (j < count)%nat ->
             located c_keys cs opts j <> {| collection_ptr := c; key := k |}) ->
          find_pair db2 c k = find_pair db c k)
    /\ youngest_sequence db2 = youngest_sequence db + 1.
Proof.
  intros Hb Hr Hfit.
  set (db1 := (ukv_txn_begin db 0 c_txn).1).
  set (txn0 := (ukv_txn_begin db 0 c_txn).2).
  set (txn1 := _ukv_write_txn txn0 c_keys count cs opts vals lens).
  assert (Hdb1 : db1 = (increment_youngest db).2) by done.
  assert (Hy1 : youngest_sequence db1 = youngest_sequence db + 1).
  { rewrite Hdb1. simpl. apply wrap64_id. unfold in_sequence_range in *. lia. }
  assert (Hfind1 : forall c k, find_pair db1 c k = find_pair db c k).
  { intros c k. rewrite Hdb1. apply find_pair_increment_youngest. }
  destruct (write_txn_fields txn0 c_keys count cs opts vals lens) as [Hreq Hseq].
  fold txn1 in Hreq, Hseq.
  assert (Hseq1 : txn_sequence_number txn1 = youngest_sequence db + 1).
  { rewrite Hseq. change (txn_sequence_number txn0) with (wrap64 (youngest_sequence db + 1)).
    apply wrap64_id. unfold in_sequence_range in *. lia. }
  assert (Hnone : (ukv_txn_commit db1 txn1 true).2 = None).
  { apply commit_goes_through.
    - intros lk seq sv. rewrite Hreq. change (requested_keys txn0) with (∅ : gmap located_key_t Z).
      by rewrite lookup_empty.
    - intros lk v sv _. rewrite Hfind1, Hseq1, Hy1. intros Hsv.
      specialize (Hb _ _ _ Hsv). unfold entry_was_overwritten.
      rewrite Z.leb_refl. destruct (Z.geb_spec (sequence_number sv) (youngest_sequence db + 1));
        [lia|done]. }
  destruct (ukv_txn_commit db1 txn1 true) as [[db2 txn2] e] eqn:Hc. simpl in Hnone. subst e.
  exists db2, txn2. split; [done|]. split; [|split].
  - intros i Hi Hlast.
    pose proof (commit_applied _ _ _ _ _ (located c_keys cs opts i) _ Hc
                  (write_txn_buffer_last txn0 c_keys count cs opts vals lens i Hi Hlast)) as Ha.
    simpl in Ha. by rewrite Ha, Hseq1.
  - intros c k Hother. rewrite (commit_untouched _ _ _ _ _ c k Hc); [apply Hfind1|].
    unfold txn1. rewrite write_txn_buffer_other by done. apply lookup_empty.
  - by rewrite (commit_youngest _ _ _ _ _ Hc).
Qed.

Lemma transaction_round_trip_witness :
  exists db2 txn2,
    ukv_txn_commit (ukv_txn_begin run4_db 0 None).1
      (_ukv_write_txn (ukv_txn_begin run4_db 0 None).2 [34; 35] 2 None 0%N
         [Some (bytes "a"); Some (bytes "b")] [1%N; 1%N]) true
    = (db2, txn2, None)
    /\ youngest_sequence db2 = 2.
Proof.
  destruct (transaction_round_trip run4_db None [34; 35] 2 None 0%N
              [Some (bytes "a"); Some (bytes "b")] [1%N; 1%N])
    as (db2 & txn2 & Hc & _ & _ & Hy).
  - exact run4_db_bounded.
  - unfold in_sequence_range. vm_compute. split; [discriminate|reflexivity].
  - vm_compute. reflexivity.
  - exists db2, txn2. split; [exact Hc|exact Hy].
Defined.

(** ** Measuring inside a transaction *)

Lemma for_each_or_return_app {A B : Type} (body : A -> list B -> string + list B)
    (fails : A -> bool) (f : A -> B) (message : string) l acc :
  (forall x t, body x t = if fails x then inl message else inr (t ++ [f x])) ->
  for_each_or_return body l acc
  = if existsb fails l then inl message else inr (acc ++ map f l).
Proof.
  intros Hbody. revert acc. induction l as [|x l IH]; intros acc.
  - simpl. by rewrite app_nil_r.
  - simpl. rewrite Hbody. destruct (fails x); [done|].
    rewrite IH. destruct (existsb _ _); [done|]. by rewrite <- app_assoc.
Qed.

Lemma measure_txn_cases txn db c_keys count cs opts :
  _ukv_measure_txn txn db c_keys count cs opts
  = if existsb (row_conflicts txn db c_keys cs opts) (seq 0 count) then inl conflict_message
    else inr (map (txn_row_length txn db c_keys cs opts) (seq 0 count)).
Proof.
  unfold _ukv_measure_txn.
  rewrite (for_each_or_return_app _ (row_conflicts txn db c_keys cs opts)
             (txn_row_length txn db c_keys cs opts) conflict_message); [done|].
  intros i t. unfold measure_txn_body, row_conflicts, txn_row_length, located.
  destruct (new_values txn !! _); [done|].
  destruct (find_pair _ _ _); [|done].
  by destruct (entry_was_overwritten _ _ _).
Qed.

Lemma read_txn_success allocate txn db c_keys count cs opts c_arena out :
  (forall n block, allocate n = Some block -> length block = N.to_nat n) ->
  length (arena_bytes c_arena) = N.to_nat (arena_length c_arena) ->
  (_ukv_read_txn allocate txn db c_keys count cs opts c_arena).2 = inr out ->
  exists a,
    out = read_txn_output txn db c_keys count cs opts a
    /\ (N.to_nat (for_range count
                    (fun i t => (t + txn_row_bytes txn db c_keys cs opts i)%N) 0%N)
        <= length (arena_bytes a))%nat.
Proof.
  intros Halloc Harena. rewrite read_txn_cases. cbn [snd]. cbv zeta.
  destruct (existsb _ _); [done|].
  destruct (N.leb_spec (arena_length c_arena)
              (for_range count (fun i t => (t + txn_row_bytes txn db c_keys cs opts i)%N) 0%N))
    as [Hle|Hgt].
  - destruct (allocate _) as [block|] eqn:Hblock; [|done]. intros [= <-].
    eexists. split; [reflexivity|]. simpl. rewrite (Halloc _ _ Hblock). lia.
  - intros [= <-]. exists c_arena. split; [done|]. rewrite Harena. lia.
Qed.

(** X18: inside a transaction, [ukv_read] without an array of values
    reports the conflict exactly when a task reads an entry of HEAD written
    since the transaction began and not buffered, and reports nothing else;
    when it succeeds it leaves the arena alone and measures, for a buffered
    place, the length of the buffer, and in all the lengths that a read of
    the values reports. *)
Theorem measure_txn_agrees_with_read allocate txn db c_keys count cs opts c_arena :
  (forall n block, allocate n = Some block -> length block = N.to_nat n) ->
  length (arena_bytes c_arena) = N.to_nat (arena_length c_arena) ->
  (forall e, ukv_read allocate db (Some txn) c_keys count cs opts c_arena false = inl e ->
     e = conflict_message
     /\ exists i, (i < count)%nat /\ row_conflicts txn db c_keys cs opts i = true)
  /\ ((forall i, (i < count)%nat -> row_conflicts txn db c_keys cs opts i = false) ->
      exists measured,
        ukv_read allocate db (Some txn) c_keys count cs opts c_arena false = inr measured
        /\ out_arena measured = c_arena
        /\ length (c_lengths_out measured) = count
        /\ (forall i value, (i < count)%nat ->
              new_values txn !! located c_keys cs opts i = Some value ->
              c_lengths_out measured !! i = Some (wrap32 (N.of_nat (length value))))
        /\ forall out,
             ukv_read allocate db (Some txn) c_keys count cs opts c_arena true = inr out ->
             c_lengths_out out = c_lengths_out measured).
Proof.
  intros Halloc Harena. cbn [ukv_read negb]. rewrite measure_txn_cases. split.
  - intros e. destruct (existsb _ _) eqn:Hex; [|done]. intros [= <-]. split; [done|].
    apply existsb_exists in Hex as (i & Hin & Hi). apply in_seq in Hin.
    exists i. split; [lia|done].
  - intros Hno. rewrite (proj2 (existsb_seq_false _ _) Hno).
    eexists. split; [reflexivity|]. cbn [out_arena c_lengths_out].
    assert (Hrow : forall i, (i < count)%nat ->
              map (txn_row_length txn db c_keys cs opts) (seq 0 count) !! i
              = Some (txn_row_length txn db c_keys cs opts i)).
    { intros i Hi. rewrite list_lookup_fmap, lookup_seq_lt by done. done. }
    split; [done|]. split; [by rewrite length_map, length_seq|]. split.
    + intros i value Hi Hbuf. rewrite (Hrow i Hi). unfold txn_row_length. by rewrite Hbuf.
    + intros out Hout.
      destruct (read_txn_success _ _ _ _ _ _ _ _ _ Halloc Harena Hout) as (a & -> & Hfit).
      destruct (read_txn_output_rows txn db c_keys count cs opts a Hfit) as (_ & Hl & Hfetched).
      apply list_eq_same_length with count; [by rewrite length_map, length_seq|done|].
      intros i x y Hi Hx Hy. specialize (Hfetched i Hi).
      unfold txn_row_fetched, row_fetched in Hfetched.
      rewrite (Hrow i Hi) in Hy. unfold txn_row_length in Hy.
      destruct (new_values txn !! _).
      * destruct Hfetched as [_ Hlx]. congruence.
      * destruct (find_pair _ _ _).
        -- destruct Hfetched as (off & _ & Hlx & _). congruence.
        -- destruct Hfetched as [_ Hlx]. congruence.
Qed.

Lemma measure_txn_agrees_with_read_witness :
  exists measured,
    ukv_read zero_block run1_db (Some run1_txn) [34] 1 None 0%N empty_arena false = inr measured
    /\ c_lengths_out measured !! 0%nat = Some 1%N.
Proof.
  destruct (measure_txn_agrees_with_read zero_block run1_txn run1_db [34] 1 None 0%N empty_arena)
    as [_ Hok].
  - intros n block [= <-]. by rewrite length_replicate.
  - reflexivity.
  - destruct Hok as (measured & Hm & _ & _ & Hbuf & _).
    + intros i Hi. assert (i = 0%nat) as -> by lia. vm_compute. reflexivity.
    + exists measured. split; [exact Hm|].
      apply (Hbuf 0%nat (bytes "v")); [lia|]. vm_compute. reflexivity.
Defined.

(** ** Writing to HEAD and reading back *)



(** ** Two transactions writing the same key *)

Lemma commit_collides db txn reserve_ok lk v sv :
  new_values txn !! lk = Some v ->
  find_pair db (collection_ptr lk) (key lk) = Some sv ->
  entry_was_overwritten (sequence_number sv) (txn_sequence_number txn) (youngest_sequence db)
  = true ->
  exists e, ukv_txn_commit db txn reserve_ok = (db, txn, Some e).
Proof.
  intros Hv Hsv Hover.
  destruct (ukv_txn_commit db txn reserve_ok) as [[db' txn'] [e|]] eqn:Hc.
  - destruct (commit_failure _ _ _ _ _ _ Hc) as [-> ->]. by exists e.
  - exfalso.
    assert ((ukv_txn_commit db txn reserve_ok).2 = None) as Hnone by (by rewrite Hc).
    pose proof (commit_success_incoming _ _ _ Hnone lk v sv Hv Hsv). congruence.
Qed.

(** X26: two transactions that begin one after the other with zero hints and
    buffer the same key are not treated alike.  Whichever commits first
    commits.  If the earlier one commits first, the later one still commits
    and replaces the value: the write of the earlier one is lost without an
    error.  If the later one commits first, the commit of the earlier one
    fails and changes nothing. *)
Theorem concurrent_writers_later_wins db (k : Z) cs opts va la vb lb :
  sequences_bounded db ->
  in_sequence_range (youngest_sequence db) ->
  youngest_sequence db + 2 < 2 ^ 63 ->
  let begin_a := ukv_txn_begin db 0 None in
  let begin_b := ukv_txn_begin begin_a.1 0 None in
  let txn_a := _ukv_write_txn begin_a.2 [k] 1 cs opts [va] [la] in
  let txn_b := _ukv_write_txn begin_b.2 [k] 1 cs opts [vb] [lb] in
  (exists db3 txn_a' db4 txn_b',
     ukv_txn_commit begin_b.1 txn_a true = (db3, txn_a', None)
     /\ ukv_txn_commit db3 txn_b true = (db4, txn_b', None)
     /\ find_pair db4 (collection_at cs 0 opts) k
        = Some {| data := value_of vb lb; sequence_number := youngest_sequence db + 2 |})
  /\ (exists db3 txn_b' e,
        ukv_txn_commit begin_b.1 txn_b true = (db3, txn_b', None)
        /\ ukv_txn_commit db3 txn_a true = (db3, txn_a, Some e)
        /\ find_pair db3 (collection_at cs 0 opts) k
           = Some {| data := value_of vb lb; sequence_number := youngest_sequence db + 2 |}).
Proof.
  intros Hb Hr Hfit begin_a begin_b txn_a txn_b.
  set (lk := {| collection_ptr := collection_at cs 0 opts; key := k |}).
  set (db2 := begin_b.1).
  assert (Hy2 : youngest_sequence db2 = youngest_sequence db + 2).
  { subst db2 begin_b begin_a. cbn.
    rewrite (wrap64_id (youngest_sequence db + 1)) by (unfold in_sequence_range in *; lia).
    rewrite wrap64_id by (unfold in_sequence_range in *; lia). lia. }
  assert (Hfind2 : forall c k', find_pair db2 c k' = find_pair db c k').
  { intros c k'. subst db2 begin_b begin_a. by destruct c. }
  assert (Hsa : txn_sequence_number txn_a = youngest_sequence db + 1).
  { subst txn_a begin_a. cbn. apply wrap64_id. unfold in_sequence_range in *. lia. }
  assert (Hsb : txn_sequence_number txn_b = youngest_sequence db + 2).
  { subst txn_b begin_b begin_a. cbn.
    rewrite (wrap64_id (youngest_sequence db + 1)) by (unfold in_sequence_range in *; lia).
    rewrite wrap64_id by (unfold in_sequence_range in *; lia). lia. }
  assert (Hva : new_values txn_a = {[ lk := value_of va la ]}) by done.
  assert (Hvb : new_values txn_b = {[ lk := value_of vb lb ]}) by done.
  assert (Hra : requested_keys txn_a = ∅) by done.
  assert (Hrb : requested_keys txn_b = ∅) by done.
  assert (Hfirst : forall txn, requested_keys txn = ∅ ->
            youngest_sequence db < txn_sequence_number txn <= youngest_sequence db + 2 ->
            (ukv_txn_commit db2 txn true).2 = None).
  { intros txn Hreq Hseq. apply commit_goes_through.
    - intros lk' seq sv. by rewrite Hreq, lookup_empty.
    - intros lk' v sv _. rewrite Hfind2, Hy2. intros Hsv. specialize (Hb _ _ _ Hsv).
      unfold entry_was_overwritten.
      destruct (Z.leb_spec (txn_sequence_number txn) (youngest_sequence db + 2)); [|lia].
      destruct (Z.geb_spec (sequence_number sv) (txn_sequence_number txn)); [lia|done]. }
  split.
  - pose proof (Hfirst txn_a Hra ltac:(lia)) as Hnone.
    destruct (ukv_txn_commit db2 txn_a true) as [[db3 txn_a'] e] eqn:Hca.
    cbn in Hnone. subst e.
    assert (Hentry : find_pair db3 (collection_at cs 0 opts) k
                     = Some {| data := value_of va la;
                               sequence_number := youngest_sequence db + 1 |}).
    { rewrite <- Hsa. apply (commit_applied _ _ _ _ _ lk _ Hca).
      rewrite Hva. apply lookup_singleton_eq. }
    assert (Hnone2 : (ukv_txn_commit db3 txn_b true).2 = None).
    { apply commit_goes_through.
      - intros lk' seq sv. by rewrite Hrb, lookup_empty.
      - intros lk' v sv. rewrite Hvb. intros Hin.
        apply lookup_singleton_Some in Hin as [<- _]. cbn [lk collection_ptr key].
        rewrite Hentry. intros [= <-]. cbn [sequence_number].
        rewrite Hsb, (commit_youngest _ _ _ _ _ Hca), Hy2.
        unfold entry_was_overwritten. rewrite Z.leb_refl.
        destruct (Z.geb_spec (youngest_sequence db + 1) (youngest_sequence db + 2)); [lia|done]. }
    destruct (ukv_txn_commit db3 txn_b true) as [[db4 txn_b'] e] eqn:Hcb.
    cbn in Hnone2. subst e.
    exists db3, txn_a', db4, txn_b'. split; [done|]. split; [done|].
    rewrite <- Hsb. apply (commit_applied _ _ _ _ _ lk _ Hcb).
    rewrite Hvb. apply lookup_singleton_eq.
  - pose proof (Hfirst txn_b Hrb ltac:(lia)) as Hnone.
    destruct (ukv_txn_commit db2 txn_b true) as [[db3 txn_b'] e] eqn:Hcb.
    cbn in Hnone. subst e.
    assert (Hentry : find_pair db3 (collection_at cs 0 opts) k
                     = Some {| data := value_of vb lb;
                               sequence_number := youngest_sequence db + 2 |}).
    { rewrite <- Hsb. apply (commit_applied _ _ _ _ _ lk _ Hcb).
      rewrite Hvb. apply lookup_singleton_eq. }
    destruct (commit_collides db3 txn_a true lk (value_of va la)
                {| data := value_of vb lb; sequence_number := youngest_sequence db + 2 |})
      as [e He]; [by rewrite Hva, lookup_singleton_eq|exact Hentry| |].
    + cbn [sequence_number]. rewrite Hsa, (commit_youngest _ _ _ _ _ Hcb), Hy2.
      unfold entry_was_overwritten.
      destruct (Z.leb_spec (youngest_sequence db + 1) (youngest_sequence db + 2)); [|lia].
      destruct (Z.geb_spec (youngest_sequence db + 2) (youngest_sequence db + 1)); [|lia].
      destruct (Z.leb_spec (youngest_sequence db + 2) (youngest_sequence db + 2)); [done|lia].
    + by exists db3, txn_b', e.
Qed.

Lemma concurrent_writers_later_wins_witness :
  exists db3 txn_b' e,
    ukv_txn_commit (ukv_txn_begin (ukv_txn_begin db_new 0 None).1 0 None).1
      (_ukv_write_txn (ukv_txn_begin (ukv_txn_begin db_new 0 None).1 0 None).2
         [7] 1 None 0%N [Some (bytes "b")] [1%N]) true
    = (db3, txn_b', None)
    /\ ukv_txn_commit db3
         (_ukv_write_txn (ukv_txn_begin db_new 0 None).2 [7] 1 None 0%N [Some (bytes "a")] [1%N])
         true
       = (db3,
          _ukv_write_txn (ukv_txn_begin db_new 0 None).2 [7] 1 None 0%N [Some (bytes "a")] [1%N],
          Some e)
    /\ find_pair db3 None 7 = Some {| data := bytes "b"; sequence_number := 2 |}.
Proof.
  refine (proj2 (concurrent_writers_later_wins db_new 7 None 0%N
                   (Some (bytes "a")) 1%N (Some (bytes "b")) 1%N _ _ _)).
  - intros c k sv. destruct c; vm_compute; discriminate.
  - unfold in_sequence_range. vm_compute. split; [discriminate|reflexivity].
  - vm_compute. reflexivity.
Defined.

(** ** What a transaction sees of HEAD *)



Local Open Scope N_scope.

(** * Further properties of the paths modality *)

(** ** Prefixes and the scan *)

Lemma starts_with_prefix str prefix :
  starts_with str prefix = true <-> exists rest, str = prefix ++ rest.
Proof.
  unfold starts_with. split.
  - intros Hs. apply andb_true_iff in Hs as [_ Htake].
    apply bool_decide_eq_true in Htake.
    exists (drop (length prefix) str). by rewrite <- Htake at 1; rewrite take_drop.
  - intros [rest ->]. apply andb_true_iff. split.
    + apply Nat.leb_le. rewrite length_app. lia.
    + apply bool_decide_eq_true. by rewrite take_app_length.
Qed.

(** A property that every call of the callback keeps is kept by the walk,
    whatever bytes the bucket holds. *)
Lemma for_each_in_bucket_invariant {S : Type} (P : S -> Prop) bucket
    (cb : bucket_member_t -> S -> S) s :
  (forall member s', P s' -> P (cb member s')) -> P s -> P (for_each_in_bucket bucket cb s).
Proof.
  intros Hcb Hs. unfold for_each_in_bucket. destruct (_ =? 0); [done|].
  generalize (N.to_nat (get_bucket_size bucket)) 0
    (get_bucket_keys (get_bucket_size bucket))
    (get_bucket_vals (bucket_bytes bucket) (get_bucket_size bucket)).
  intros remaining. revert s Hs.
  induction remaining as [|remaining IH]; intros s Hs i kit vit; [done|].
  simpl. apply IH. by apply Hcb.
Qed.

Lemma scan_member_invariant mem prefix max_count member st :
  max_count < 2 ^ 32 ->
  scan_invariant prefix max_count st ->
  scan_invariant prefix max_count (scan_member mem prefix max_count member st).
Proof.
  intros Hmax (Hcount & Hle & Hall). unfold scan_member.
  destruct (starts_with _ prefix) eqn:Hstarts; simpl; [|done].
  case_bool_decide; [done|].
  destruct (has_reached_previous st); simpl; [|done].
  destruct (N.leb_spec max_count (found_paths st)); [done|].
  split; [|split]; simpl.
  - rewrite length_app. simpl. unfold wrap32. rewrite N.mod_small by lia. lia.
  - unfold wrap32. rewrite N.mod_small by lia. lia.
  - apply Forall_app. split; [done|]. by apply Forall_singleton.
Qed.

Lemma scan_rounds_invariant hash unknown fuel db collection prefix max_count st st' :
  max_count < 2 ^ 32 ->
  scan_invariant prefix max_count st ->
  scan_rounds hash unknown fuel db collection prefix max_count st = Some st' ->
  scan_invariant prefix max_count st'.
Proof.
  intros Hmax. revert st. induction fuel as [|fuel IH]; intros st Hinv; simpl.
  - destruct (_ <=? _); [|done]. by intros [= <-].
  - destruct (_ <=? _); [by intros [= <-]|].
    destruct (_ <=? _)%nat; [by intros [= <-]|].
    destruct (ukv_read_tape _ _) as [boffs bdata].
    apply IH. apply for_range_invariant; [done|].
    intros i acc Hacc. apply for_each_in_bucket_invariant; [|done].
    intros member s' Hs'. by apply scan_member_invariant.
Qed.

(** X19: whenever the scan of one collection for one prefix returns, the
    count it reports is the number of names it exported, is at most the
    limit of the task, and every exported name begins with the prefix,
    whatever bytes the buckets of the collection hold. *)
Theorem scan_exports_names_with_prefix hash unknown fuel db collection prefix previous_name
    max_count count names :
  max_count < 2 ^ 32 ->
  scan_one_collection_one_range hash unknown fuel db collection prefix previous_name max_count
  = Some (count, names) ->
  count = N.of_nat (length names)
  /\ count <= max_count
  /\ Forall (fun exported => exists rest, exported = prefix ++ rest) names.
Proof.
  intros Hmax. unfold scan_one_collection_one_range.
  destruct (scan_rounds _ _ _ _ _ _ _ _) as [st|] eqn:Hrounds; [|done].
  intros [= <- <-].
  apply scan_rounds_invariant in Hrounds as (Hcount & Hle & Hall); [|done|].
  - split; [done|]. split; [done|].
    eapply Forall_impl; [exact Hall|]. intros exported. apply starts_with_prefix.
  - split; [done|]. split; [simpl; lia|]. by apply Forall_nil.
Qed.

Lemma scan_exports_names_with_prefix_witness :
  Forall (fun exported => exists rest, exported = bytes "home/" ++ rest)
    [bytes "home/a"; bytes "home/bb"; bytes "home/a"].
Proof.
  apply (scan_exports_names_with_prefix length_hash key_unknown 4 two_buckets_db 0%Z
           (bytes "home/") [] 3 3).
  - reflexivity.
  - vm_compute. reflexivity.
Defined.

(** ** Looking a name up in a bucket *)

Lemma find_in_members_last ms n v :
  forall r1 r2 ms1 result koff voff,
    ms = ms1 ++ r1 ++ (n, v) :: r2 ->
    n ∉ r2.*1 ->
    koff = keys_offset ms + N.of_nat (length (keys_of ms1)) ->
    foldl (keep_match (encode_bucket ms) n) result
      (members_from (N.of_nat (length ms1)) koff voff (r1 ++ (n, v) :: r2))
    = {| idx := N.of_nat (length (ms1 ++ r1));
         key_view := {| v_begin := koff + N.of_nat (length (keys_of r1));
                        v_size := N.of_nat (length n) |};
         value_view := Some {| v_begin := voff + N.of_nat (length (values_of r1));
                               v_size := N.of_nat (length v) |} |}.
Proof.
  induction r1 as [|[k' v'] r1 IH]; intros r2 ms1 result koff voff Hms Hnot Hk.
  - cbn [app members_from foldl fst snd].
    unfold keep_match at 2. cbn [key_view].
    rewrite (key_view_bytes ms ms1 r2 n v) by done.
    rewrite decide_True by done.
    replace (N.of_nat (length ms1) + 1) with (N.of_nat (length (ms1 ++ [(n, v)])))
      by (rewrite length_app; cbn; lia).
    rewrite (find_in_members_missing ms n r2 (ms1 ++ [(n, v)])).
    + rewrite app_nil_r. cbn. f_equal; [f_equal; lia|do 2 f_equal; lia].
    + by rewrite <- app_assoc.
    + done.
    + rewrite keys_of_app, length_app. cbn. rewrite length_app. cbn. lia.
  - cbn [app members_from foldl fst snd].
    replace (N.of_nat (length ms1) + 1) with (N.of_nat (length (ms1 ++ [(k', v')])))
      by (rewrite length_app; cbn; lia).
    rewrite (IH r2 (ms1 ++ [(k', v')])).
    + rewrite <- app_assoc. cbn [app].
      change (keys_of ((k', v') :: r1)) with (k' ++ keys_of r1).
      change (values_of ((k', v') :: r1)) with (v' ++ values_of r1).
      rewrite !length_app. f_equal; [f_equal; lia|do 2 f_equal; lia].
    + by rewrite <- app_assoc.
    + done.
    + rewrite keys_of_app, length_app. cbn. rewrite length_app. cbn. lia.
Qed.

(** X20: [find_in_bucket] walks the whole bucket and keeps the last member
    whose name matches.  In the layout of the members [ms] (names may
    repeat), a name whose last occurrence is at position [length ms1] is
    found there, with its index and with views that cover exactly the bytes
    of the name and of the value of that occurrence; a name that does not
    occur yields the member without value. *)
Theorem find_in_bucket_keeps_last_match ms ms1 ms2 n v :
  N.of_nat (length (encode_bucket ms)) < 2 ^ 32 ->
  (ms = ms1 ++ (n, v) :: ms2 -> n ∉ ms2.*1 ->
   idx (find_in_bucket (Some (encode_bucket ms)) n) = N.of_nat (length ms1)
   /\ view_bytes (encode_bucket ms) (key_view (find_in_bucket (Some (encode_bucket ms)) n)) = n
   /\ bucket_read (Some (encode_bucket ms)) n = Some v)
  /\ (n ∉ ms.*1 ->
      find_in_bucket (Some (encode_bucket ms)) n = no_member
      /\ bucket_read (Some (encode_bucket ms)) n = None).
Proof.
  intros Hfit. split.
  - intros Hms Hnot.
    assert (Hfound : find_in_bucket (Some (encode_bucket ms)) n
      = {| idx := N.of_nat (length ms1);
           key_view := {| v_begin := keys_offset ms + N.of_nat (length (keys_of ms1));
                          v_size := N.of_nat (length n) |};
           value_view := Some {| v_begin := values_offset ms + N.of_nat (length (values_of ms1));
                                 v_size := N.of_nat (length v) |} |}).
    { rewrite find_in_bucket_fold by done.
      pose proof (find_in_members_last ms n v ms1 ms2 [] no_member
                    (keys_offset ms) (values_offset ms)) as Hlast.
      cbn [app length keys_of map concat] in Hlast. change (N.of_nat 0) with 0 in Hlast.
      rewrite <- Hms in Hlast. rewrite Hlast; [done|done|done|lia]. }
    unfold bucket_read. rewrite Hfound. cbn [idx key_view value_view].
    split; [done|]. split.
    + by apply (key_view_bytes ms ms1 ms2 n v).
    + cbn [fmap option_fmap option_map].
      change (bucket_bytes (Some (encode_bucket ms))) with (encode_bucket ms).
      f_equal. by apply (value_view_bytes ms ms1 ms2 n v).
  - intros Hnot. unfold bucket_read. by rewrite find_in_bucket_missing.
Qed.

Lemma find_in_bucket_keeps_last_match_witness :
  bucket_read (Some (encode_bucket [(bytes "k", bytes "old"); (bytes "j", bytes "x");
                                    (bytes "k", bytes "new")])) (bytes "k")
  = Some (bytes "new").
Proof.
  destruct (find_in_bucket_keeps_last_match
              [(bytes "k", bytes "old"); (bytes "j", bytes "x"); (bytes "k", bytes "new")]
              [(bytes "k", bytes "old"); (bytes "j", bytes "x")] [] (bytes "k") (bytes "new"))
    as [Hlast _].
  - vm_compute. reflexivity.
  - apply Hlast; [reflexivity|]. apply not_elem_of_nil.
Defined.

(** ** Upserting a new name, or the last member *)

Lemma memcpy_region pre junk post src off m :
  m = pre ++ junk ++ post ->
  N.to_nat off = length pre -> (length src <= length junk)%nat ->
  memcpy m off src = pre ++ (src ++ drop (length src) junk) ++ post.
Proof.
  intros -> Hoff Hle. unfold memcpy. rewrite Hoff.
  rewrite take_app_length.
  rewrite drop_app_ge by lia.
  replace (length pre + length src - length pre)%nat with (length src) by lia.
  rewrite drop_app_le by done.
  by rewrite <- app_assoc.
Qed.

Lemma partial_bucket_done ms :
  partial_bucket (N.of_nat (length ms)) ms [] [] [] [] = encode_bucket ms.
Proof. unfold partial_bucket, encode_bucket. by rewrite !app_nil_r. Qed.

(** Writing the member of index [length ms] into the new bucket: its two
    lengths and its two byte strings. *)
Lemma partial_bucket_write size ms k v jkl jvl jk jv :
  (length (key_lengths ms ++ jkl) = 4 * N.to_nat size)%nat ->
  (length (value_lengths ms ++ jvl) = 4 * N.to_nat size)%nat ->
  (4 <= length jkl)%nat -> (4 <= length jvl)%nat ->
  (length k <= length jk)%nat -> (length v <= length jv)%nat ->
  memcpy
    (memcpy
       (store_length
          (store_length (partial_bucket size ms jkl jvl jk jv)
             (4 + 4 * N.of_nat (length ms)) (N.of_nat (length k)))
          (4 * (1 + size) + 4 * N.of_nat (length ms)) (N.of_nat (length v)))
       (4 + 8 * size + N.of_nat (length (keys_of ms))) k)
    (4 + 8 * size + N.of_nat (length (keys_of ms ++ jk)) + N.of_nat (length (values_of ms))) v
  = partial_bucket size (ms ++ [(k, v)]) (drop 4 jkl) (drop 4 jvl)
      (drop (length k) jk) (drop (length v) jv).
Proof.
  intros Hkl Hvl Hjkl Hjvl Hjk Hjv. unfold partial_bucket, store_length.
  rewrite key_lengths_app, value_lengths_app, keys_of_app, values_of_app.
  change (key_lengths [(k, v)]) with (le_bytes (N.of_nat (length k)) ++ []).
  change (value_lengths [(k, v)]) with (le_bytes (N.of_nat (length v)) ++ []).
  change (keys_of [(k, v)]) with (k ++ []).
  change (values_of [(k, v)]) with (v ++ []).
  rewrite !app_nil_r.
  pose proof (length_le_bytes size) as Hh.
  pose proof (length_le_bytes (N.of_nat (length k))) as Hlk.
  pose proof (length_le_bytes (N.of_nat (length v))) as Hlv.
  pose proof (length_key_lengths ms) as Hkls.
  pose proof (length_value_lengths ms) as Hvls.
  rewrite length_app in Hkl, Hvl.
  rewrite (memcpy_region (le_bytes size ++ key_lengths ms) jkl
             ((value_lengths ms ++ jvl) ++ (keys_of ms ++ jk) ++ (values_of ms ++ jv))
             (le_bytes (N.of_nat (length k))));
    [|by rewrite <- ?app_assoc|rewrite length_app; lia|lia].
  rewrite Hlk.
  rewrite (memcpy_region
             (le_bytes size ++ (key_lengths ms ++ le_bytes (N.of_nat (length k)) ++ drop 4 jkl)
                ++ value_lengths ms) jvl
             ((keys_of ms ++ jk) ++ (values_of ms ++ jv))
             (le_bytes (N.of_nat (length v))));
    [|by rewrite <- ?app_assoc|rewrite !length_app, length_drop; lia|lia].
  rewrite Hlv.
  rewrite (memcpy_region
             (le_bytes size ++ (key_lengths ms ++ le_bytes (N.of_nat (length k)) ++ drop 4 jkl)
                ++ (value_lengths ms ++ le_bytes (N.of_nat (length v)) ++ drop 4 jvl)
                ++ keys_of ms) jk
             (values_of ms ++ jv) k);
    [|by rewrite <- ?app_assoc|rewrite !length_app, !length_drop; lia|lia].
  rewrite (memcpy_region
             (le_bytes size ++ (key_lengths ms ++ le_bytes (N.of_nat (length k)) ++ drop 4 jkl)
                ++ (value_lengths ms ++ le_bytes (N.of_nat (length v)) ++ drop 4 jvl)
                ++ (keys_of ms ++ k ++ drop (length k) jk)
                ++ values_of ms) jv [] v);
    [|by rewrite <- ?app_assoc, ?app_nil_r
     |rewrite !length_app, !length_drop; lia|lia].
  by rewrite <- ?app_assoc, ?app_nil_r.
Qed.

Lemma length_keys_of_snoc ms k v :
  length (keys_of (ms ++ [(k, v)])) = (length (keys_of ms) + length k)%nat.
Proof.
  rewrite keys_of_app, length_app. change (keys_of [(k, v)]) with (k ++ []).
  by rewrite app_nil_r.
Qed.

Lemma length_values_of_snoc ms k v :
  length (values_of (ms ++ [(k, v)])) = (length (values_of ms) + length v)%nat.
Proof.
  rewrite values_of_app, length_app. change (values_of [(k, v)]) with (v ++ []).
  by rewrite app_nil_r.
Qed.

Lemma upsert_copy_step old_mem is_missing old_idx nkl nvl i kv vv m kout vout :
  negb is_missing && (i =? old_idx) = false ->
  upsert_copy old_mem is_missing old_idx nkl nvl
    {| idx := i; key_view := kv; value_view := Some vv |} (m, kout, vout)
  = (memcpy
       (memcpy
          (store_length
             (store_length m (nkl + counter_size_k * i) (wrap32 (v_size kv)))
             (nvl + counter_size_k * i) (wrap32 (v_size vv)))
          kout (view_bytes old_mem kv))
       vout (view_bytes old_mem vv),
     kout + v_size kv, vout + v_size vv).
Proof. intros Hcopy. unfold upsert_copy. cbn [idx key_view value_view default]. by rewrite Hcopy. Qed.

Lemma upsert_copy_skip old_mem old_idx nkl nvl kv vv st :
  upsert_copy old_mem false old_idx nkl nvl
    {| idx := old_idx; key_view := kv; value_view := vv |} st = st.
Proof.
  unfold upsert_copy. destruct st as [[m kout] vout]. cbn [idx negb andb].
  by rewrite N.eqb_refl.
Qed.

(** The copy loop over members that are all copied: they land, in their
    order, behind the members that are already in place. *)
Lemma upsert_copy_members ms size is_missing old_idx key_bytes :
  N.of_nat (length (encode_bucket ms)) < 2 ^ 32 ->
  forall rest tail ms1 jkl jvl jk jv koff voff,
    ms = ms1 ++ rest ++ tail ->
    is_missing = true \/ N.of_nat (length (ms1 ++ rest)) <= old_idx ->
    koff = keys_offset ms + N.of_nat (length (keys_of ms1)) ->
    voff = values_offset ms + N.of_nat (length (values_of ms1)) ->
    (length (key_lengths ms1 ++ jkl) = 4 * N.to_nat size)%nat ->
    (length (value_lengths ms1 ++ jvl) = 4 * N.to_nat size)%nat ->
    key_bytes = N.of_nat (length (keys_of ms1 ++ jk)) ->
    (4 * length rest <= length jkl)%nat -> (4 * length rest <= length jvl)%nat ->
    (length (keys_of rest) <= length jk)%nat -> (length (values_of rest) <= length jv)%nat ->
    foldl (fun acc member =>
             upsert_copy (encode_bucket ms) is_missing old_idx
               (counter_size_k * 1) (counter_size_k * (1 + size)) member acc)
      (partial_bucket size ms1 jkl jvl jk jv,
       4 + 8 * size + N.of_nat (length (keys_of ms1)),
       4 + 8 * size + key_bytes + N.of_nat (length (values_of ms1)))
      (members_from (N.of_nat (length ms1)) koff voff rest)
    = (partial_bucket size (ms1 ++ rest)
         (drop (4 * length rest) jkl) (drop (4 * length rest) jvl)
         (drop (length (keys_of rest)) jk) (drop (length (values_of rest)) jv),
       4 + 8 * size + N.of_nat (length (keys_of (ms1 ++ rest))),
       4 + 8 * size + key_bytes + N.of_nat (length (values_of (ms1 ++ rest)))).
Proof.
  intros Hfit rest. induction rest as [|[k v] rest IH];
    intros tail ms1 jkl jvl jk jv koff voff Hms Hcopy Hk Hv Hkl Hvl Hkb Hjkl Hjvl Hjk Hjv.
  - cbn [members_from foldl length keys_of values_of map concat Nat.mul].
    rewrite app_nil_r. by rewrite !drop_0.
  - cbn [members_from foldl fst snd].
    assert (Hms' : ms = ms1 ++ (k, v) :: (rest ++ tail)) by done.
    destruct (member_fits ms ms1 (rest ++ tail) k v Hms' Hfit) as (Hkfit & Hvfit & _).
    rewrite upsert_copy_step.
    2:{ destruct Hcopy as [->|Hle]; [done|].
        rewrite length_app in Hle. cbn [length] in Hle.
        destruct is_missing; [done|]. cbn [negb andb]. apply N.eqb_neq. lia. }
    cbn [v_size].
    rewrite (key_view_bytes ms ms1 (rest ++ tail) k v) by done.
    rewrite (value_view_bytes ms ms1 (rest ++ tail) k v) by done.
    unfold wrap32. rewrite !N.mod_small by done.
    replace (counter_size_k * 1 + counter_size_k * N.of_nat (length ms1))
      with (4 + 4 * N.of_nat (length ms1)) by (unfold counter_size_k; lia).
    replace (counter_size_k * (1 + size) + counter_size_k * N.of_nat (length ms1))
      with (4 * (1 + size) + 4 * N.of_nat (length ms1)) by (unfold counter_size_k; lia).
    change (keys_of ((k, v) :: rest)) with (k ++ keys_of rest) in *.
    change (values_of ((k, v) :: rest)) with (v ++ values_of rest) in *.
    rewrite length_app in Hjk, Hjv. cbn [length] in Hjkl, Hjvl.
    rewrite Hkb at 1.
    rewrite partial_bucket_write by (done || lia).
    replace (N.of_nat (length ms1) + 1) with (N.of_nat (length (ms1 ++ [(k, v)])))
      by (rewrite length_app; cbn; lia).
    replace (4 + 8 * size + N.of_nat (length (keys_of ms1)) + N.of_nat (length k))
      with (4 + 8 * size + N.of_nat (length (keys_of (ms1 ++ [(k, v)]))))
      by (rewrite length_keys_of_snoc; lia).
    replace (4 + 8 * size + key_bytes + N.of_nat (length (values_of ms1)) + N.of_nat (length v))
      with (4 + 8 * size + key_bytes + N.of_nat (length (values_of (ms1 ++ [(k, v)]))))
      by (rewrite length_values_of_snoc; lia).
    rewrite (IH tail (ms1 ++ [(k, v)]) (drop 4 jkl) (drop 4 jvl)
               (drop (length k) jk) (drop (length v) jv)
               (koff + N.of_nat (length k)) (voff + N.of_nat (length v))).
    + rewrite <- !app_assoc. cbn [app]. rewrite !drop_drop, !length_app.
      cbn [length].
      by replace (4 * S (length rest))%nat with (4 + 4 * length rest)%nat by lia.
    + by rewrite <- app_assoc.
    + destruct Hcopy as [->|Hle]; [by left|right].
      rewrite <- app_assoc. done.
    + rewrite Hk, length_keys_of_snoc. lia.
    + rewrite Hv, length_values_of_snoc. lia.
    + rewrite length_app, length_key_lengths, length_drop in *.
      rewrite length_app. cbn [length]. lia.
    + rewrite length_app, length_value_lengths, length_drop in *.
      rewrite length_app. cbn [length]. lia.
    + rewrite Hkb, !length_app, length_keys_of_snoc, length_drop. lia.
    + rewrite length_drop. lia.
    + rewrite length_drop. lia.
    + rewrite length_drop. lia.
    + rewrite length_drop. lia.
Qed.

Lemma accumulate_values ms :
  N.of_nat (length (encode_bucket ms)) < 2 ^ 32 ->
  accumulate (encode_bucket ms) (1 + N.of_nat (length ms)) (N.of_nat (length ms))
  = N.of_nat (length (values_of ms)).
Proof.
  intros Hfit. unfold accumulate, for_range. rewrite Nat2N.id. cbv beta.
  assert (Hgen : forall rest ms1 acc, ms = ms1 ++ rest ->
    foldl (fun acc j => acc + load_length (encode_bucket ms)
                                (counter_size_k * (1 + N.of_nat (length ms) + N.of_nat j))) acc
      (seq (length ms1) (length rest))
    = acc + N.of_nat (length (values_of rest))).
  { induction rest as [|[k v] rest IH]; intros ms1 acc Hms.
    - cbn. lia.
    - cbn [length seq foldl].
      rewrite (load_value_length ms ms1 rest k v Hms Hfit) by done.
      specialize (IH (ms1 ++ [(k, v)]) (acc + N.of_nat (length v))).
      rewrite length_app in IH. cbn [length] in IH.
      replace (length ms1 + 1)%nat with (Datatypes.S (length ms1)) in IH by lia.
      rewrite IH by (by rewrite <- app_assoc).
      change (values_of ((k, v) :: rest)) with (v ++ values_of rest).
      rewrite length_app. lia. }
  change (seq 0 (length ms)) with (seq (length (@nil (list byte * list byte))) (length ms)).
  rewrite (Hgen ms [] 0 eq_refl). lia.
Qed.

Lemma sub_size_t_small a b : b <= a -> a < 2 ^ 64 -> sub_size_t a b = a - b.
Proof.
  intros Hle Ha. unfold sub_size_t. rewrite (N.mod_small b) by lia.
  replace (a + 2 ^ 64 - b) with (a - b + 1 * 2 ^ 64) by lia.
  rewrite N.Div0.mod_add. apply N.mod_small. lia.
Qed.

(** What the walks of [upsert_in_bucket] see of a well-formed bucket. *)
Lemma well_formed_bucket_sizes B ms :
  well_formed_bucket B ms ->
  get_bucket_size B = N.of_nat (length ms)
  /\ (if bool_decide (is_Some B)
      then accumulate (bucket_bytes B) 1 (N.of_nat (length ms)) else 0)
     = N.of_nat (length (keys_of ms))
  /\ (if bool_decide (is_Some B)
      then accumulate (bucket_bytes B) (1 + N.of_nat (length ms)) (N.of_nat (length ms)) else 0)
     = N.of_nat (length (values_of ms)).
Proof.
  intros [|ms' [_ Hfit]]; [done|].
  rewrite get_bucket_size_encode by done.
  rewrite bool_decide_eq_true_2 by done.
  change (bucket_bytes (Some (encode_bucket ms'))) with (encode_bucket ms').
  by rewrite accumulate_keys, accumulate_values.
Qed.

Lemma well_formed_bucket_walk {S : Type} B ms (cb : bucket_member_t -> S -> S) s :
  well_formed_bucket B ms ->
  for_each_in_bucket_loop (bucket_bytes B) cb (length ms) 0
    (get_bucket_keys (N.of_nat (length ms)))
    (get_bucket_vals (bucket_bytes B) (N.of_nat (length ms))) s
  = foldl (fun acc member => cb member acc) s
      (members_from 0 (keys_offset ms) (values_offset ms) ms).
Proof.
  intros [|ms' [_ Hfit]]; [done|].
  change (bucket_bytes (Some (encode_bucket ms'))) with (encode_bucket ms').
  rewrite (for_each_in_bucket_loop_encode ms' cb Hfit ms' [] s); try done.
  - cbn [get_bucket_keys get_bucket_vals it_contents].
    rewrite accumulate_keys by done.
    unfold wrap32. rewrite N.mod_small.
    + unfold keys_offset, values_offset, bytes_in_header_k, counter_size_k.
      cbn [length]. change (N.of_nat 0) with 0.
      by replace (4 + N.of_nat (length ms') * 2 * 4) with (4 + 8 * N.of_nat (length ms')) by lia.
    + rewrite length_encode_bucket in Hfit. lia.
  - cbn. unfold counter_size_k. lia.
Qed.

(** The allocated block, with the member count stored, is a new bucket in
    which no member is in place yet. *)
Lemma block_as_partial_bucket block size (a c d : nat) :
  length block = (4 + 4 * a + 4 * a + c + d)%nat ->
  store_length block 0 size
  = partial_bucket size []
      (take (4 * a) (drop 4 block))
      (take (4 * a) (drop (4 + 4 * a) block))
      (take c (drop (4 + 4 * a + 4 * a) block))
      (drop (4 + 4 * a + 4 * a + c) block).
Proof.
  intros Hlen. unfold store_length, memcpy, partial_bucket.
  change (N.to_nat 0) with 0%nat. rewrite take_0, length_le_bytes.
  cbn [key_lengths value_lengths keys_of values_of map concat app Nat.add].
  f_equal.
  rewrite <- (take_drop (4 * a) (drop 4 block)) at 1. f_equal.
  rewrite drop_drop.
  rewrite <- (take_drop (4 * a) (drop (4 + 4 * a) block)) at 1. f_equal.
  rewrite drop_drop.
  rewrite <- (take_drop c (drop (4 + 4 * a + 4 * a) block)) at 1. f_equal.
  by rewrite drop_drop.
Qed.

Lemma find_in_well_formed_missing B ms n :
  well_formed_bucket B ms -> n ∉ ms.*1 -> find_in_bucket B n = no_member.
Proof.
  intros [|ms' [_ Hfit]] Hnot; [done|]. by apply find_in_bucket_missing.
Qed.

(** The last four writes of [upsert_in_bucket] complete the new bucket. *)
Lemma upsert_finish size kept n v jkl jvl jk jv key_bytes :
  size = N.of_nat (length kept) + 1 ->
  N.of_nat (length (encode_bucket (kept ++ [(n, v)]))) < 2 ^ 32 ->
  length jkl = 4%nat -> length jvl = 4%nat -> length jk = length n -> length jv = length v ->
  key_bytes = N.of_nat (length (keys_of kept)) + N.of_nat (length n) ->
  memcpy
    (memcpy
       (store_length
          (store_length (partial_bucket size kept jkl jvl jk jv)
             (counter_size_k * 1 + counter_size_k * wrap32 (size + (2 ^ 32 - 1)))
             (wrap32 (N.of_nat (length n))))
          (counter_size_k * (1 + size) + counter_size_k * wrap32 (size + (2 ^ 32 - 1)))
          (wrap32 (N.of_nat (length v))))
       (4 + 8 * size + N.of_nat (length (keys_of kept))) n)
    (4 + 8 * size + key_bytes + N.of_nat (length (values_of kept))) v
  = encode_bucket (kept ++ [(n, v)]).
Proof.
  intros Hsize Hfit Hjkl Hjvl Hjk Hjv Hkb.
  pose proof Hfit as Hfit'. rewrite length_encode_bucket, length_app in Hfit'.
  rewrite length_keys_of_snoc, length_values_of_snoc in Hfit'. cbn [length] in Hfit'.
  assert (wrap32 (size + (2 ^ 32 - 1)) = N.of_nat (length kept)) as ->.
  { unfold wrap32. rewrite Hsize.
    replace (N.of_nat (length kept) + 1 + (2 ^ 32 - 1))
      with (N.of_nat (length kept) + 1 * 2 ^ 32) by lia.
    rewrite N.Div0.mod_add. apply N.mod_small. lia. }
  unfold wrap32. rewrite !N.mod_small by lia.
  replace (counter_size_k * 1 + counter_size_k * N.of_nat (length kept))
    with (4 + 4 * N.of_nat (length kept)) by (unfold counter_size_k; lia).
  replace (counter_size_k * (1 + size) + counter_size_k * N.of_nat (length kept))
    with (4 * (1 + size) + 4 * N.of_nat (length kept)) by (unfold counter_size_k; lia).
  replace key_bytes with (N.of_nat (length (keys_of kept ++ jk)))
    by (rewrite Hkb, length_app, Hjk; lia).
  rewrite partial_bucket_write.
  - rewrite (nil_length_inv (drop 4 jkl)) by (rewrite length_drop; lia).
    rewrite (nil_length_inv (drop 4 jvl)) by (rewrite length_drop; lia).
    rewrite (nil_length_inv (drop (length n) jk)) by (rewrite length_drop; lia).
    rewrite (nil_length_inv (drop (length v) jv)) by (rewrite length_drop; lia).
    replace size with (N.of_nat (length (kept ++ [(n, v)])))
      by (rewrite Hsize, length_app; cbn [length]; lia).
    apply partial_bucket_done.
  - rewrite length_app, length_key_lengths. lia.
  - rewrite length_app, length_value_lengths. lia.
  - lia.
  - lia.
  - lia.
  - lia.
Qed.

Lemma members_from_app i koff voff a b :
  members_from i koff voff (a ++ b)
  = members_from i koff voff a
    ++ members_from (i + N.of_nat (length a)) (koff + N.of_nat (length (keys_of a)))
         (voff + N.of_nat (length (values_of a))) b.
Proof.
  revert i koff voff. induction a as [|[k v] a IH]; intros i koff voff.
  - cbn [app length keys_of values_of map concat members_from].
    change (N.of_nat 0) with 0. by rewrite !N.add_0_r.
  - cbn [app members_from fst snd]. rewrite IH. cbn [app]. f_equal.
    change (keys_of ((k, v) :: a)) with (k ++ keys_of a).
    change (values_of ((k, v) :: a)) with (v ++ values_of a).
    rewrite !length_app. cbn [length]. f_equal. f_equal; lia.
Qed.

(** The copy loop from its start, over the members in front of the one
    that is replaced, or over all of them. *)
Lemma upsert_copy_prefix ms kept tail size is_missing old_idx key_bytes jkl jvl jk jv :
  N.of_nat (length (encode_bucket ms)) < 2 ^ 32 ->
  ms = kept ++ tail ->
  is_missing = true \/ N.of_nat (length kept) <= old_idx ->
  (length jkl = 4 * N.to_nat size)%nat ->
  (length jvl = 4 * N.to_nat size)%nat ->
  key_bytes = N.of_nat (length jk) ->
  (4 * length kept <= length jkl)%nat -> (4 * length kept <= length jvl)%nat ->
  (length (keys_of kept) <= length jk)%nat -> (length (values_of kept) <= length jv)%nat ->
  foldl (fun acc member =>
           upsert_copy (encode_bucket ms) is_missing old_idx
             (counter_size_k * 1) (counter_size_k * (1 + size)) member acc)
    (partial_bucket size [] jkl jvl jk jv, 4 + 8 * size, 4 + 8 * size + key_bytes)
    (members_from 0 (keys_offset ms) (values_offset ms) kept)
  = (partial_bucket size kept
       (drop (4 * length kept) jkl) (drop (4 * length kept) jvl)
       (drop (length (keys_of kept)) jk) (drop (length (values_of kept)) jv),
     4 + 8 * size + N.of_nat (length (keys_of kept)),
     4 + 8 * size + key_bytes + N.of_nat (length (values_of kept))).
Proof.
  intros Hfit Hms Hcopy Hjkl Hjvl Hkb H1 H2 H3 H4.
  pose proof (upsert_copy_members ms size is_missing old_idx key_bytes Hfit kept tail []
                jkl jvl jk jv (keys_offset ms) (values_offset ms)) as Hloop.
  cbn [app length keys_of values_of key_lengths value_lengths map concat] in Hloop.
  change (N.of_nat 0) with 0 in Hloop. rewrite !N.add_0_r in Hloop.
  by apply Hloop.
Qed.

Lemma upsert_copy_all B ms size old_idx key_bytes jkl jvl jk jv :
  well_formed_bucket B ms ->
  (length jkl = 4 * N.to_nat size)%nat ->
  (length jvl = 4 * N.to_nat size)%nat ->
  key_bytes = N.of_nat (length jk) ->
  (4 * length ms <= length jkl)%nat -> (4 * length ms <= length jvl)%nat ->
  (length (keys_of ms) <= length jk)%nat -> (length (values_of ms) <= length jv)%nat ->
  foldl (fun acc member =>
           upsert_copy (bucket_bytes B) true old_idx
             (counter_size_k * 1) (counter_size_k * (1 + size)) member acc)
    (partial_bucket size [] jkl jvl jk jv, 4 + 8 * size, 4 + 8 * size + key_bytes)
    (members_from 0 (keys_offset ms) (values_offset ms) ms)
  = (partial_bucket size ms
       (drop (4 * length ms) jkl) (drop (4 * length ms) jvl)
       (drop (length (keys_of ms)) jk) (drop (length (values_of ms)) jv),
     4 + 8 * size + N.of_nat (length (keys_of ms)),
     4 + 8 * size + key_bytes + N.of_nat (length (values_of ms))).
Proof.
  intros [|ms' [_ Hfit]] Hjkl Hjvl Hkb H1 H2 H3 H4.
  - cbn [members_from foldl length keys_of values_of map concat Nat.mul].
    rewrite !drop_0. change (N.of_nat 0) with 0. by rewrite !N.add_0_r.
  - change (bucket_bytes (Some (encode_bucket ms'))) with (encode_bucket ms').
    apply (upsert_copy_prefix ms' ms' []); try done; [by rewrite app_nil_r|by left].
Qed.

(** Upserting a name that the bucket does not hold. *)
Lemma upsert_new_name allocate B ms n v block :
  well_formed_bucket B ms ->
  n ∉ ms.*1 ->
  N.of_nat (length (encode_bucket (ms ++ [(n, v)]))) < 2 ^ 32 ->
  allocate (N.of_nat (length (encode_bucket (ms ++ [(n, v)])))) = Some block ->
  length block = length (encode_bucket (ms ++ [(n, v)])) ->
  upsert_in_bucket allocate B n v = Some (Some (encode_bucket (ms ++ [(n, v)]))).
Proof.
  intros HB Hnot Hfit Halloc Hblock.
  destruct (well_formed_bucket_sizes B ms HB) as (Hsize & Hkeys & Hvals).
  pose proof Hfit as Hfit'. rewrite length_encode_bucket, length_app in Hfit'.
  rewrite length_keys_of_snoc, length_values_of_snoc in Hfit'. cbn [length] in Hfit'.
  pose proof Hblock as Hblock'. rewrite length_encode_bucket, length_app in Hblock'.
  rewrite length_keys_of_snoc, length_values_of_snoc in Hblock'. cbn [length] in Hblock'.
  unfold upsert_in_bucket. cbv zeta.
  rewrite (find_in_well_formed_missing B ms n HB Hnot).
  rewrite Hsize, Hkeys, Hvals.
  cbn [no_member idx key_view value_view v_size from_option].
  rewrite (bool_decide_eq_false_2 (is_Some None)) by (by intros [? ?]).
  cbn [negb].
  set (size := N.of_nat (length ms) + 1).
  assert (wrap32 size = size) as -> by (unfold wrap32; apply N.mod_small; lia).
  assert (wrap32 (size * 2) * counter_size_k = 8 * size) as ->
      by (unfold wrap32, counter_size_k; rewrite N.mod_small by lia; lia).
  rewrite !sub_size_t_small by lia. rewrite !N.sub_0_r.
  rewrite !(N.mod_small (_ + _) (2 ^ 64)) by lia.
  change bytes_in_header_k with 4.
  replace (4 + 8 * size + (N.of_nat (length (keys_of ms)) + N.of_nat (length n))
           + (N.of_nat (length (values_of ms)) + N.of_nat (length v)))
    with (N.of_nat (length (encode_bucket (ms ++ [(n, v)]))))
    by (rewrite length_encode_bucket, length_app, length_keys_of_snoc, length_values_of_snoc;
        cbn [length]; lia).
  rewrite Halloc.
  rewrite (block_as_partial_bucket block size (length ms + 1)
             (length (keys_of ms) + length n) (length (values_of ms) + length v)) by lia.
  rewrite Nat2N.id, (well_formed_bucket_walk B ms _ _ HB).
  rewrite (upsert_copy_all B ms size 0
             (N.of_nat (length (keys_of ms)) + N.of_nat (length n))); try done.
  - cbv beta iota. do 2 f_equal. apply upsert_finish; try done.
    + rewrite length_drop, length_take, length_drop. lia.
    + rewrite length_drop, length_take, length_drop. lia.
    + rewrite length_drop, length_take, length_drop. lia.
    + rewrite !length_drop. lia.
  - rewrite length_take, length_drop. lia.
  - rewrite length_take, length_drop. lia.
  - rewrite length_take, length_drop. lia.
  - rewrite length_take, length_drop. lia.
  - rewrite length_take, length_drop. lia.
  - rewrite length_take, length_drop. lia.
  - rewrite length_drop. lia.
Qed.

(** Upserting the name of the last member of the bucket. *)
Lemma upsert_last_member allocate kept n v0 v block :
  well_formed_members (kept ++ [(n, v0)]) ->
  N.of_nat (length (encode_bucket (kept ++ [(n, v)]))) < 2 ^ 32 ->
  allocate (N.of_nat (length (encode_bucket (kept ++ [(n, v)])))) = Some block ->
  length block = length (encode_bucket (kept ++ [(n, v)])) ->
  upsert_in_bucket allocate (Some (encode_bucket (kept ++ [(n, v0)]))) n v
  = Some (Some (encode_bucket (kept ++ [(n, v)]))).
Proof.
  intros Hwf Hfit Halloc Hblock.
  remember (kept ++ [(n, v0)]) as ms eqn:Hms.
  pose proof (encoded_bucket ms Hwf) as HB.
  destruct (well_formed_bucket_sizes _ ms HB) as (Hsize & Hkeys & Hvals).
  pose proof Hwf as [_ Hold]. pose proof Hold as Hold'.
  rewrite length_encode_bucket in Hold'.
  assert (Hlen : length ms = (length kept + 1)%nat) by (rewrite Hms, length_app; done).
  assert (Hlk : length (keys_of ms) = (length (keys_of kept) + length n)%nat)
    by (rewrite Hms; apply length_keys_of_snoc).
  assert (Hlv : length (values_of ms) = (length (values_of kept) + length v0)%nat)
    by (rewrite Hms; apply length_values_of_snoc).
  pose proof Hfit as Hfit'. rewrite length_encode_bucket, length_app in Hfit'.
  rewrite length_keys_of_snoc, length_values_of_snoc in Hfit'. cbn [length] in Hfit'.
  pose proof Hblock as Hblock'. rewrite length_encode_bucket, length_app in Hblock'.
  rewrite length_keys_of_snoc, length_values_of_snoc in Hblock'. cbn [length] in Hblock'.
  unfold upsert_in_bucket. cbv zeta.
  rewrite (find_in_bucket_found ms kept [] n v0 Hwf Hms).
  rewrite Hsize, Hkeys, Hvals.
  cbn [idx key_view value_view v_size from_option].
  rewrite bool_decide_eq_true_2 by done.
  cbn [negb].
  set (size := N.of_nat (length kept) + 1).
  assert (Hw1 : wrap32 (N.of_nat (length ms) + 0) = size)
    by (unfold wrap32; rewrite N.add_0_r, N.mod_small; lia).
  assert (Hw2 : wrap32 (size * 2) * counter_size_k = 8 * size)
    by (unfold wrap32, counter_size_k; rewrite N.mod_small by lia; lia).
  assert (Hkb : (sub_size_t (N.of_nat (length (keys_of ms))) (N.of_nat (length n))
                 + N.of_nat (length n)) mod 2 ^ 64
                = N.of_nat (length (keys_of kept)) + N.of_nat (length n))
    by (rewrite sub_size_t_small by lia; rewrite N.mod_small; lia).
  assert (Hvb : (sub_size_t (N.of_nat (length (values_of ms))) (N.of_nat (length v0))
                 + N.of_nat (length v)) mod 2 ^ 64
                = N.of_nat (length (values_of kept)) + N.of_nat (length v))
    by (rewrite sub_size_t_small by lia; rewrite N.mod_small; lia).
  rewrite !Hw1, !Hw2, !Hkb, !Hvb.
  change bytes_in_header_k with 4.
  replace (4 + 8 * size + (N.of_nat (length (keys_of kept)) + N.of_nat (length n))
           + (N.of_nat (length (values_of kept)) + N.of_nat (length v)))
    with (N.of_nat (length (encode_bucket (kept ++ [(n, v)]))))
    by (rewrite length_encode_bucket, length_app, length_keys_of_snoc, length_values_of_snoc;
        cbn [length]; lia).
  rewrite Halloc.
  rewrite Nat2N.id, (well_formed_bucket_walk _ ms _ _ HB).
  change (bucket_bytes (Some (encode_bucket ms))) with (encode_bucket ms).
  rewrite (block_as_partial_bucket block size (length kept + 1)
             (length (keys_of kept) + length n) (length (values_of kept) + length v)) by lia.
  replace (members_from 0 (keys_offset ms) (values_offset ms) ms)
    with (members_from 0 (keys_offset ms) (values_offset ms) (kept ++ [(n, v0)]))
    by (by rewrite <- Hms).
  rewrite members_from_app, foldl_app.
  rewrite (upsert_copy_prefix ms kept [(n, v0)] size false (N.of_nat (length kept))
             (N.of_nat (length (keys_of kept)) + N.of_nat (length n))); try done.
  - cbn [members_from foldl]. rewrite N.add_0_l, upsert_copy_skip.
    cbv beta iota. do 2 f_equal. apply upsert_finish; try done.
    + rewrite length_drop, length_take, length_drop. lia.
    + rewrite length_drop, length_take, length_drop. lia.
    + rewrite length_drop, length_take, length_drop. lia.
    + rewrite !length_drop. lia.
  - by right.
  - rewrite length_take, length_drop. lia.
  - rewrite length_take, length_drop. lia.
  - rewrite length_take, length_drop. lia.
  - rewrite length_take, length_drop. lia.
  - rewrite length_take, length_drop. lia.
  - rewrite length_take, length_drop. lia.
  - rewrite length_drop. lia.
Qed.

Lemma well_formed_members_snoc kept n v :
  NoDup kept.*1 -> n ∉ kept.*1 ->
  N.of_nat (length (encode_bucket (kept ++ [(n, v)]))) < 2 ^ 32 ->
  well_formed_members (kept ++ [(n, v)]).
Proof.
  intros Hnd Hnot Hfit. split; [|done].
  rewrite fmap_app. apply NoDup_app. split; [done|]. split.
  - intros x Hx Hin. cbn in Hin. apply list_elem_of_singleton in Hin. by subst x.
  - cbn. apply NoDup_singleton.
Qed.

(** X21: [upsert_in_bucket] is right for a name the bucket does not hold and
    for the name of its last member.  For a well-formed bucket (absent, or
    the layout of members with distinct names), whatever the allocated
    memory held, the new bucket is the layout of the other members, in
    their order, followed by the name with the new value; the name then
    reads with the new value and every other member with its own. *)
Theorem upsert_in_bucket_appends allocate B ms kept n v block :
  well_formed_bucket B ms ->
  (ms = kept /\ n ∉ ms.*1) \/ (exists v0, ms = kept ++ [(n, v0)]) ->
  N.of_nat (length (encode_bucket (kept ++ [(n, v)]))) < 2 ^ 32 ->
  allocate (N.of_nat (length (encode_bucket (kept ++ [(n, v)])))) = Some block ->
  length block = length (encode_bucket (kept ++ [(n, v)])) ->
  upsert_in_bucket allocate B n v = Some (Some (encode_bucket (kept ++ [(n, v)])))
  /\ well_formed_bucket (Some (encode_bucket (kept ++ [(n, v)]))) (kept ++ [(n, v)])
  /\ bucket_read (Some (encode_bucket (kept ++ [(n, v)]))) n = Some v
  /\ (forall n' v', (n', v') ∈ kept ->
        bucket_read (Some (encode_bucket (kept ++ [(n, v)]))) n' = Some v').
Proof.
  intros HB Hcase Hfit Halloc Hblock.
  assert (Hwf : well_formed_members (kept ++ [(n, v)])).
  { destruct Hcase as [[-> Hnot]|[v0 ->]].
    - apply well_formed_members_snoc; [|done|done].
      inversion HB as [Hnil|ms' [Hnd _] Heq]; [subst kept; apply NoDup_nil_2|done].
    - inversion HB as [Hnil|ms' [Hnd _] Heq]; [by destruct kept|].
      rewrite fmap_app in Hnd. apply NoDup_app in Hnd as (Hnd & Hdisj & _).
      apply well_formed_members_snoc; [done| |done].
      intros Hin. apply (Hdisj n Hin). cbn. left. }
  split; [|split; [by apply encoded_bucket|split]].
  - destruct Hcase as [[-> Hnot]|[v0 ->]].
    + by apply upsert_new_name with block.
    + inversion HB as [Hnil|ms' Hwf' Heq]; [by destruct kept|].
      by apply upsert_last_member with block.
  - apply bucket_read_found; [done|]. apply elem_of_app. right. left.
  - intros n' v' Hin. apply bucket_read_found; [done|]. apply elem_of_app. by left.
Qed.

Lemma upsert_in_bucket_appends_witness :
  upsert_in_bucket zero_block (Some three_members) (bytes "ccc") (bytes "9")
  = Some (Some (encode_bucket [(bytes "a", bytes "1"); (bytes "bb", bytes "2");
                               (bytes "ccc", bytes "9")])).
Proof.
  apply (upsert_in_bucket_appends zero_block (Some three_members)
           [(bytes "a", bytes "1"); (bytes "bb", bytes "2"); (bytes "ccc", bytes "3")]
           [(bytes "a", bytes "1"); (bytes "bb", bytes "2")] (bytes "ccc") (bytes "9")
           (replicate 37 x00)).
  - apply encoded_bucket. split.
    + apply (bool_decide_unpack _). vm_compute. exact I.
    + vm_compute. reflexivity.
  - right. by exists (bytes "3").
  - vm_compute. reflexivity.
  - vm_compute. reflexivity.
  - vm_compute. reflexivity.
Defined.

(** X22: upserting a name that a well-formed bucket does not hold and then
    removing it gives the bucket back: the same bytes when the bucket had
    members, and no bucket when it had none; every name reads as before. *)
Theorem upsert_then_remove_restores_bucket allocate B ms n v block :
  well_formed_bucket B ms ->
  n ∉ ms.*1 ->
  N.of_nat (length (encode_bucket (ms ++ [(n, v)]))) < 2 ^ 32 ->
  allocate (N.of_nat (length (encode_bucket (ms ++ [(n, v)])))) = Some block ->
  length block = length (encode_bucket (ms ++ [(n, v)])) ->
  exists B',
    upsert_in_bucket allocate B n v = Some B'
    /\ (ms <> [] -> remove_from_bucket B' n = B)
    /\ (ms = [] -> remove_from_bucket B' n = None)
    /\ forall n', bucket_read (remove_from_bucket B' n) n' = bucket_read B n'.
Proof.
  intros HB Hnot Hfit Halloc Hblock.
  exists (Some (encode_bucket (ms ++ [(n, v)]))).
  split; [by apply upsert_new_name with block|].
  assert (Hwf : well_formed_members (ms ++ [(n, v)])).
  { apply well_formed_members_snoc; [|done|done].
    inversion HB as [Hnil|ms' [Hnd _] Heq]; [apply NoDup_nil_2|done]. }
  rewrite (remove_from_bucket_found (ms ++ [(n, v)]) ms [] n v Hwf eq_refl).
  rewrite app_nil_r.
  case_decide as Hnil.
  - split; [done|]. split; [done|]. intros n'. subst ms.
    inversion HB as [Hnone|ms' Hwf' Heq]; [done|].
    symmetry. apply bucket_read_missing; [done|]. apply not_elem_of_nil.
  - assert (B = Some (encode_bucket ms)) as ->.
    { inversion HB as [Hnone|ms' Hwf' Heq]; [by subst ms|done]. }
    split; [done|]. split; done.
Qed.

Lemma upsert_then_remove_restores_bucket_witness :
  exists B',
    upsert_in_bucket zero_block (Some three_members) (bytes "dd") (bytes "4") = Some B'
    /\ remove_from_bucket B' (bytes "dd") = Some three_members.
Proof.
  destruct (upsert_then_remove_restores_bucket zero_block (Some three_members)
              [(bytes "a", bytes "1"); (bytes "bb", bytes "2"); (bytes "ccc", bytes "3")]
              (bytes "dd") (bytes "4") (replicate 48 x00))
    as (B' & Hup & Hsame & _).
  - apply encoded_bucket. split.
    + apply (bool_decide_unpack _). vm_compute. exact I.
    + vm_compute. reflexivity.
  - apply (bool_decide_unpack _). vm_compute. exact I.
  - vm_compute. reflexivity.
  - vm_compute. reflexivity.
  - vm_compute. reflexivity.
  - exists B'. split; [exact Hup|]. by apply Hsame.
Defined.

Local Open Scope N_scope.

(** ** Reading paths *)

Lemma ukv_read_tape_spec db places :
  (ukv_read_tape db places).2 = concat (map (fun p => default [] (db !! p)) places)
  /\ length (ukv_read_tape db places).1 = S (length places)
  /\ forall i, (i <= length places)%nat ->
       (ukv_read_tape db places).1 !! i
       = Some (N.of_nat (length (concat (take i (map (fun p => default [] (db !! p)) places))))).
Proof.
  unfold ukv_read_tape. induction places as [|p places IH] using rev_ind.
  - cbn. split; [done|]. split; [done|]. intros i Hi. by assert (i = 0%nat) as -> by lia.
  - rewrite foldl_app. cbn [foldl].
    destruct (foldl _ _ places) as [offs tape]. cbn [fst snd] in *.
    destruct IH as (Htape & Hlen & Hoffs).
    rewrite map_app, concat_app. cbn [map concat]. rewrite app_nil_r.
    split; [by rewrite Htape|]. split; [rewrite !length_app; cbn; lia|].
    intros i Hi. rewrite length_app in Hi. cbn in Hi.
    destruct (decide (i = S (length places))) as [->|Hne].
    + rewrite lookup_app_r by lia. rewrite Hlen, Nat.sub_diag. cbn.
      rewrite take_ge by (rewrite length_app, length_map; cbn; lia).
      rewrite concat_app. cbn. by rewrite app_nil_r, Htape.
    + rewrite lookup_app_l by lia. rewrite Hoffs by lia.
      by rewrite take_app_le by (rewrite length_map; lia).
Qed.





Lemma concat_take_S {A : Type} (ls : list (list A)) i l :
  ls !! i = Some l -> concat (take (S i) ls) = concat (take i ls) ++ l.
Proof.
  intros Hl. rewrite (take_S_r _ _ _ Hl), concat_app. cbn. by rewrite app_nil_r.
Qed.

Lemma concat_drop_lookup {A : Type} (ls : list (list A)) i l :
  ls !! i = Some l ->
  drop (length (concat (take i ls))) (concat ls) = l ++ drop (length (concat (take (S i) ls))) (concat ls).
Proof.
  intros Hl.
  rewrite <- (take_drop i ls) at 2 4. rewrite concat_app.
  rewrite drop_app_length.
  rewrite (drop_S _ _ _ Hl). cbn [concat].
  rewrite (concat_take_S _ _ _ Hl), length_app.
  rewrite drop_app_ge by lia.
  replace (length (concat (take i ls)) + length l - length (concat (take i ls)))%nat
    with (length l) by lia.
  by rewrite drop_app_length.
Qed.

Lemma for_range_indexed_invariant {S : Type} (P : nat -> S -> Prop) count
    (body : nat -> S -> S) s :
  P 0%nat s ->
  (forall i s', (i < count)%nat -> P i s' -> P (Datatypes.S i) (body i s')) ->
  P count (for_range count body s).
Proof.
  intros Hs Hbody. induction count as [|count IH]; [done|].
  rewrite for_range_S. apply Hbody; [lia|]. apply IH. intros i s' Hi. apply Hbody. lia.
Qed.

Section PathsRead.

Context (hash : list byte -> Z) (missing : N) (main : Z) (db : gmap (Z * Z) (list byte)).
Context (n : nat) (collections : option (list Z)) (names : list (list byte)) (c_values : bool).

Let place (i : nat) : Z * Z := path_place hash main collections names i.
Let value (i : nat) : option (list byte) := path_value hash main db collections names i.
Let exported (i : nat) : list byte := exported_values hash main db collections names i.
Let buckets : list (list byte) := map (fun i => default [] (db !! place i)) (seq 0 n).
Let tape : list byte := concat buckets.
Let start (i : nat) : nat := length (concat (take i buckets)).

Hypothesis Hwf : forall i, (i < n)%nat -> exists ms, well_formed_bucket (db !! place i) ms.
Hypothesis Hfit : N.of_nat (length tape) < 2 ^ 32.









Let boffs : list N := (ukv_read_tape db (map place (seq 0 n))).1.







End PathsRead.



(** ** The names a scan exports *)

Lemma joined_bin_tape db places i place :
  places !! i = Some place ->
  joined_bin (ukv_read_tape db places).1 (ukv_read_tape db places).2 i
  = Some (default [] (db !! place)).
Proof.
  intros Hplace. pose proof (lookup_lt_Some _ _ _ Hplace) as Hi.
  destruct (ukv_read_tape_spec db places) as (Htape & _ & Hoffs).
  unfold joined_bin. rewrite (Hoffs i), (Hoffs (S i)) by lia.
  simpl (from_option _ _ (Some _)). f_equal. rewrite Htape, Nat2N.id.
  assert (Hval : map (fun p => default [] (db !! p)) places !! i = Some (default [] (db !! place)))
    by (by rewrite list_lookup_fmap, Hplace).
  rewrite (concat_drop_lookup _ i _ Hval).
  rewrite (concat_take_S _ i _ Hval), length_app.
  replace (N.to_nat (N.of_nat (length (concat (take i (map (fun p => default [] (db !! p))
                                                     places)))
                               + length (default [] (db !! place)))
                     - N.of_nat (length (concat (take i (map (fun p => default [] (db !! p))
                                                         places))))))
    with (length (default [] (db !! place))) by lia.
  by rewrite take_app_length.
Qed.

Lemma members_from_names ms :
  forall rest ms1 koff voff member,
    ms = ms1 ++ rest ->
    koff = keys_offset ms + N.of_nat (length (keys_of ms1)) ->
    member ∈ members_from (N.of_nat (length ms1)) koff voff rest ->
    view_bytes (encode_bucket ms) (key_view member) ∈ ms.*1.
Proof.
  induction rest as [|[k v] rest IH]; intros ms1 koff voff member Hms Hk Hin.
  - by apply elem_of_nil in Hin.
  - cbn [members_from fst snd] in Hin. apply elem_of_cons in Hin as [->|Hin].
    + cbn [key_view]. rewrite (key_view_bytes ms ms1 rest k v) by done.
      rewrite Hms, fmap_app. apply elem_of_app. right. cbn. left.
    + replace (N.of_nat (length ms1) + 1) with (N.of_nat (length (ms1 ++ [(k, v)]))) in Hin
        by (rewrite length_app; cbn; lia).
      apply (IH (ms1 ++ [(k, v)]) (koff + N.of_nat (length k)) (voff + N.of_nat (length v))
               member); [by rewrite <- app_assoc| |exact Hin].
      rewrite Hk, length_keys_of_snoc. lia.
Qed.

Lemma foldl_invariant_members {S M : Type} (P : S -> Prop) (Q : M -> Prop)
    (cb : M -> S -> S) l s :
  (forall m s', Q m -> P s' -> P (cb m s')) -> Forall Q l -> P s ->
  P (foldl (fun acc m => cb m acc) s l).
Proof.
  intros Hcb Hall. revert s. induction Hall as [|m l Hm Hall IH]; intros s Hs; [done|].
  cbn. apply IH. by apply Hcb.
Qed.

Lemma ukv_scan_keys unknown db collection min_key max_count k :
  k ∈ ukv_scan unknown db collection min_key max_count -> is_Some (db !! (collection, k)).
Proof.
  unfold ukv_scan. intros Hin. apply elem_of_take in Hin as (i & Hin & _).
  apply list_elem_of_lookup_2 in Hin.
  assert (k ∈ merge_sort Z.le (collection_keys db collection)) as Hsorted.
  { case_decide; [done|]. by apply list_elem_of_filter in Hin as [_ Hin]. }
  rewrite merge_sort_Permutation in Hsorted. unfold collection_keys in Hsorted.
  apply list_elem_of_omap in Hsorted as ([c k'] & Hdom & Hsome).
  cbn in Hsome. case_decide as Hc; [|done]. injection Hsome as ->. cbn in Hc. subst c.
  apply elem_of_elements in Hdom. by apply elem_of_dom in Hdom.
Qed.

Lemma scan_bucket_stored db collection prefix max_count k st :
  (forall k', is_Some (db !! (collection, k')) ->
     exists ms, well_formed_bucket (db !! (collection, k')) ms) ->
  is_Some (db !! (collection, k)) ->
  Forall (stored_name db collection) (paths st) ->
  Forall (stored_name db collection)
    (paths (for_each_in_bucket (Some (default [] (db !! (collection, k))))
              (scan_member (bucket_bytes (Some (default [] (db !! (collection, k)))))
                 prefix max_count) st)).
Proof.
  intros Hwf Hk Hst. destruct (Hwf k Hk) as [ms Hms].
  destruct (db !! (collection, k)) as [stored|] eqn:Hdb; [|by destruct Hk].
  inversion Hms as [|ms' Hwf' Hstored Hms']. subst ms' stored.
  cbn [from_option]. unfold id.
  change (bucket_bytes (Some (encode_bucket ms))) with (encode_bucket ms).
  pose proof Hwf' as [_ Hfit].
  rewrite for_each_in_bucket_encode by done.
  apply (foldl_invariant_members
           (fun s => Forall (stored_name db collection) (paths s))
           (fun member => view_bytes (encode_bucket ms) (key_view member) ∈ ms.*1));
    [| |done].
  - intros member s' Hmember Hs'. unfold scan_member.
    destruct (starts_with _ prefix); cbn [negb]; [|done].
    case_bool_decide; [done|].
    destruct (has_reached_previous s'); cbn [negb]; [|done].
    destruct (_ <=? _); [done|]. cbn [paths].
    apply Forall_app. split; [done|]. apply Forall_singleton.
    exists k. rewrite Hdb.
    apply list_elem_of_fmap in Hmember as ([n0 v] & Hn & Hin). cbn [fst] in Hn.
    rewrite Hn. exists v. by apply bucket_read_found.
  - apply Forall_forall. intros member Hin.
    apply (members_from_names ms ms [] (keys_offset ms) (values_offset ms)); [done| |done].
    cbn. lia.
Qed.

Lemma scan_rounds_stored hash unknown fuel db collection prefix max_count st st' :
  (forall k, is_Some (db !! (collection, k)) ->
     exists ms, well_formed_bucket (db !! (collection, k)) ms) ->
  Forall (stored_name db collection) (paths st) ->
  scan_rounds hash unknown fuel db collection prefix max_count st = Some st' ->
  Forall (stored_name db collection) (paths st').
Proof.
  intros Hwf. revert st. induction fuel as [|fuel IH]; intros st Hst; simpl.
  - destruct (_ <=? _); [|done]. by intros [= <-].
  - destruct (_ <=? _); [by intros [= <-]|].
    destruct (_ <=? _)%nat; [by intros [= <-]|].
    set (keys := ukv_scan unknown db collection _ max_count).
    pose proof (joined_bin_tape db (map (fun k => (collection, k)) keys)) as Hbin.
    destruct (ukv_read_tape db (map (fun k => (collection, k)) keys)) as [offs data].
    cbn [fst snd] in Hbin.
    apply IH.
    apply (for_range_indexed_invariant
             (fun _ s => Forall (stored_name db collection) (paths s))); [done|].
    intros i s' Hi Hs'.
    destruct (lookup_lt_is_Some_2 keys i Hi) as [k Hk].
    change (take (N.to_nat (default 0 (offs !! S i) - default 0 (offs !! i)))
              (drop (N.to_nat (default 0 (offs !! i))) data))
      with (bucket_bytes (joined_bin offs data i)).
    rewrite (Hbin i (collection, k)) by (by rewrite list_lookup_fmap, Hk).
    apply scan_bucket_stored; [done| |done].
    apply list_elem_of_lookup_2 in Hk. by apply ukv_scan_keys in Hk.
Qed.

(** X24: a scan exports only names that are stored: when the buckets of the
    collection are well-formed, every name the scan of the collection
    returns is the name of a member of one of its buckets. *)
Theorem scan_exports_stored_names hash unknown fuel db collection prefix previous_name
    max_count count names :
  (forall k, is_Some (db !! (collection, k)) ->
     exists ms, well_formed_bucket (db !! (collection, k)) ms) ->
  scan_one_collection_one_range hash unknown fuel db collection prefix previous_name max_count
  = Some (count, names) ->
  Forall (stored_name db collection) names.
Proof.
  intros Hwf. unfold scan_one_collection_one_range.
  destruct (scan_rounds _ _ _ _ _ _ _ _) as [st|] eqn:Hrounds; [|done].
  intros [= <- <-].
  apply (scan_rounds_stored _ _ _ _ _ _ _ _ _ Hwf) in Hrounds; [done|].
  apply Forall_nil_2.
Qed.

Lemma two_buckets_db_well_formed k :
  is_Some (two_buckets_db !! (0%Z, k)) ->
  exists ms, well_formed_bucket (two_buckets_db !! (0%Z, k)) ms.
Proof.
  unfold two_buckets_db, one_bucket_db.
  destruct (decide (k = length_hash (bytes "home/bb"))) as [->|Hne7].
  - intros _. rewrite lookup_insert_eq. eexists. apply encoded_bucket. split.
    + apply (bool_decide_unpack _). vm_compute. exact I.
    + vm_compute. reflexivity.
  - rewrite lookup_insert_ne by congruence.
    destruct (decide (k = length_hash (bytes "home/a"))) as [->|Hne6].
    + intros _. rewrite lookup_singleton_eq. eexists. apply encoded_bucket. split.
      * apply (bool_decide_unpack _). vm_compute. exact I.
      * vm_compute. reflexivity.
    + rewrite lookup_singleton_ne by congruence. by intros [? ?].
Qed.

Lemma scan_exports_stored_names_witness :
  Forall (stored_name two_buckets_db 0%Z) [bytes "home/a"; bytes "home/bb"; bytes "home/a"].
Proof.
  apply (scan_exports_stored_names length_hash key_unknown 4 two_buckets_db 0%Z
           (bytes "home/") [] 3 3).
  - exact two_buckets_db_well_formed.
  - vm_compute. reflexivity.
Defined.
